(** * rstd::hash_map: a fixed-bucket separate-chaining map from int32_t keys

    The development embeds [src/hash_map.h].  Nodes and stored values live in
    an explicit heap addressed by pointers; [new] takes the next unused
    address and [delete] removes an object, so that a read or a second
    [delete] through a dangling pointer is visible as undefined behaviour.
    The 32-bit fields of the class are integers with their wrap-around
    written out. *)

From Stdlib Require Import ZArith Lia Bool.
From stdpp Require Import base option list gmap.

Local Open Scope Z_scope.

(** ** 32-bit arithmetic *)

(** Value of an integer expression once stored in a [uint32_t]. *)
Definition uint32 (z : Z) : Z := z mod 2 ^ 32.

(** Range of an [int32_t] key. *)
Definition is_int32 (k : Z) : Prop := - 2 ^ 31 <= k < 2 ^ 31.

(** [x |= x >> k]. *)
Definition or_shift (k x : Z) : Z := Z.lor x (Z.shiftr x k).

(** The five smearing steps of the constructor. *)
Definition smear (x : Z) : Z :=
  or_shift 16 (or_shift 8 (or_shift 4 (or_shift 2 (or_shift 1 x)))).

(** [storageSize - 1], smeared and incremented: the value of [_hashIndices]
    just before the test against zero. *)
Definition rounded_size (storageSize : Z) : Z :=
  uint32 (smear (uint32 (storageSize - 1)) + 1).

(** [_hashIndices] as left by [hash_map( uint32_t storageSize )]. *)
Definition initial_hashIndices (storageSize : Z) : Z :=
  let n := rounded_size storageSize in
  if n =? 0 then 256 else n.

Definition power_of_two (n : Z) : Prop := exists e, 0 <= e /\ n = 2 ^ e.

(** [y] is [x] smeared over [s] positions: bit [i] of [y] is set exactly
    when one of the bits [i .. i + s] of [x] is. *)
Definition spread (s x y : Z) : Prop :=
  forall i, 0 <= i ->
    (Z.testbit y i = true <-> exists d, 0 <= d <= s /\ Z.testbit x (i + d) = true).

(** ** Objects *)

(** A pointer is an address; [option ptr] is a nullable pointer, [None]
    being [nullptr]. *)
Abbreviation ptr := positive (only parsing).

Record hash_map_ll_node : Type := mk_node {
  rawKey : Z;
  dataPointer : ptr;
  parentNode : option ptr;
  childNode : option ptr
}.

Definition set_childNode (n : hash_map_ll_node) (c : option ptr) : hash_map_ll_node :=
  {| rawKey := rawKey n; dataPointer := dataPointer n;
     parentNode := parentNode n; childNode := c |}.

(** The array behind [_heads]: slot [i] holds the head of chain [i]; a slot
    without an entry holds [nullptr]. *)
Abbreviation head_table := (gmap Z ptr) (only parsing).

Definition set_slot (t : head_table) (i : Z) (p : option ptr) : head_table :=
  match p with
  | Some a => <[i := a]> t
  | None => delete i t
  end.

Record hash_map : Type := mk_map {
  _hashIndices : Z;
  _elementCount : Z;
  _heads : option head_table
}.

(** The state of the members before any constructor body runs. *)
Definition member_defaults : hash_map :=
  {| _hashIndices := 0; _elementCount := 0; _heads := None |}.

(** [hash_map( uint32_t storageSize = 256 )]: the table is allocated with
    [_hashIndices] slots and zeroed by [memsetHeads]. *)
Definition hash_map_new (storageSize : Z) : hash_map :=
  {| _hashIndices := initial_hashIndices storageSize;
     _elementCount := 0;
     _heads := Some ∅ |}.

Definition hashThis (m : hash_map) (key : Z) : Z :=
  uint32 (Z.land (uint32 key) (uint32 (_hashIndices m - 1))).

Definition empty (m : hash_map) : bool := _elementCount m =? 0.
Definition size (m : hash_map) : Z := _elementCount m.
Definition bucketCount (m : hash_map) : Z := _hashIndices m.

(** The invariant of the specification on the bucket count. *)
Definition valid_bucket_count (m : hash_map) : Prop :=
  1 <= bucketCount m /\ power_of_two (bucketCount m).

(** [rstd::swap]: the three members are exchanged; no object of the heap is
    touched. *)
Definition swap (map1 map2 : hash_map) : hash_map * hash_map :=
  ({| _hashIndices := _hashIndices map2; _elementCount := _elementCount map2;
      _heads := _heads map2 |},
   {| _hashIndices := _hashIndices map1; _elementCount := _elementCount map1;
      _heads := _heads map1 |}).

(** [hash_map( hash_map&& other )]: the new object starts from the member
    defaults and is swapped with [other].  The result is (new object,
    [other] afterwards). *)
Definition hash_map_move (other : hash_map) : hash_map * hash_map :=
  swap member_defaults other.

(** [operator=( hash_map&& other )]; the result is ([*this], [other]). *)
Definition move_assign (this other : hash_map) : hash_map * hash_map :=
  swap this other.

(** ** The heap and the operations that allocate, read or free *)

Section WithValue.

(** The element type [T] with its default constructor [T()]; its copy
    constructor yields an equal value. *)
Context {T : Type} (default_value : T).

Record heap : Type := mk_heap {
  nodes : gmap ptr hash_map_ll_node;
  values : gmap ptr T;
  next_free : ptr
}.

(** An operation either completes with a result and a heap, or has
    undefined behaviour (a dangling or null pointer is used, an object is
    freed twice), or exhausts the bound put on its loops. *)
Inductive outcome (A : Type) : Type :=
| Done (a : A) (h : heap)
| Undefined
| Timeout.
Arguments Done {A} a h.
Arguments Undefined {A}.
Arguments Timeout {A}.

Definition M (A : Type) : Type := heap -> outcome A.

Definition ret {A} (a : A) : M A := fun h => Done a h.

Definition bind {A B} (c : M A) (k : A -> M B) : M B :=
  fun h =>
    match c h with
    | Done a h' => k a h'
    | Undefined => Undefined
    | Timeout => Timeout
    end.

Notation "x <- c ;; k" := (bind c (fun x => k))
  (at level 100, c at next level, right associativity).
Notation "c ;;; k" := (bind c (fun _ => k))
  (at level 100, right associativity).

Definition undefined {A} : M A := fun _ => Undefined.
Definition timeout {A} : M A := fun _ => Timeout.

(** Storage for a new object: the next unused address. *)
Definition new_address : M ptr :=
  fun h => Done (next_free h)
    {| nodes := nodes h; values := values h; next_free := Pos.succ (next_free h) |}.

Definition construct_node (a : ptr) (n : hash_map_ll_node) : M unit :=
  fun h => Done tt
    {| nodes := <[a := n]> (nodes h); values := values h; next_free := next_free h |}.

Definition load_node (a : ptr) : M hash_map_ll_node :=
  fun h => match nodes h !! a with
           | Some n => Done n h
           | None => Undefined
           end.

Definition store_node (a : ptr) (n : hash_map_ll_node) : M unit :=
  fun h => match nodes h !! a with
           | Some _ => construct_node a n h
           | None => Undefined
           end.

Definition release_node (a : ptr) : M unit :=
  fun h => match nodes h !! a with
           | Some _ => Done tt
               {| nodes := delete a (nodes h); values := values h;
                  next_free := next_free h |}
           | None => Undefined
           end.

(** [new T( v )]. *)
Definition new_value (v : T) : M ptr :=
  fun h => Done (next_free h)
    {| nodes := nodes h; values := <[next_free h := v]> (values h);
       next_free := Pos.succ (next_free h) |}.

Definition load_value (d : ptr) : M T :=
  fun h => match values h !! d with
           | Some v => Done v h
           | None => Undefined
           end.

(** [delete dataPointer]. *)
Definition delete_value (d : ptr) : M unit :=
  fun h => match values h !! d with
           | Some _ => Done tt
               {| nodes := nodes h; values := delete d (values h);
                  next_free := next_free h |}
           | None => Undefined
           end.

(** [*d = v]: an assignment through a reference handed out by
    [operator[]]. *)
Definition store_value (d : ptr) (v : T) : M unit :=
  fun h => match values h !! d with
           | Some _ => Done tt
               {| nodes := nodes h; values := <[d := v]> (values h);
                  next_free := next_free h |}
           | None => Undefined
           end.

(** [new hash_map_ll_node( rawkey, parent, new T() )]. *)
Definition new_node (rawkey : Z) (parent : option ptr) : M ptr :=
  a <- new_address;;
  d <- new_value default_value;;
  construct_node a (mk_node rawkey d parent None);;;
  ret a.

(** [new hash_map_ll_node( *other, parent )]: the copy constructor clones the
    value, then the child chain, each clone pointing back at its parent. *)
Fixpoint node_copy (fuel : nat) (other : ptr) (parent : option ptr) : M ptr :=
  match fuel with
  | O => timeout
  | S fuel' =>
      this <- new_address;;
      o <- load_node other;;
      v <- load_value (dataPointer o);;
      d <- new_value v;;
      c <- match childNode o with
           | None => ret None
           | Some oc => c <- node_copy fuel' oc (Some this);; ret (Some c)
           end;;
      construct_node this (mk_node (rawKey o) d parent c);;;
      ret this
  end.

(** [delete p]: the destructor [~hash_map_ll_node] deletes the value and
    then the child node, whose destructor does the same; the storage of the
    node is released last. *)
Fixpoint delete_node (fuel : nat) (p : option ptr) : M unit :=
  match p with
  | None => ret tt
  | Some a =>
      match fuel with
      | O => timeout
      | S fuel' =>
          n <- load_node a;;
          delete_value (dataPointer n);;;
          delete_node fuel' (childNode n);;;
          release_node a
      end
  end.

(** ** The member functions that walk chains *)

(** [_heads[i]]. *)
Definition read_head (m : hash_map) (i : Z) : M (option ptr) :=
  match _heads m with
  | None => undefined
  | Some t =>
      if (0 <=? i) && (i <? _hashIndices m) then ret (t !! i) else undefined
  end.

(** [_heads[i] = p]. *)
Definition write_head (m : hash_map) (i : Z) (p : option ptr) : M hash_map :=
  match _heads m with
  | None => undefined
  | Some t =>
      if (0 <=? i) && (i <? _hashIndices m)
      then ret {| _hashIndices := _hashIndices m;
                  _elementCount := _elementCount m;
                  _heads := Some (set_slot t i p) |}
      else undefined
  end.

(** [_elementCount++]. *)
Definition count_up (m : hash_map) : hash_map :=
  {| _hashIndices := _hashIndices m;
     _elementCount := uint32 (_elementCount m + 1);
     _heads := _heads m |}.

(** The [do ... while ( true )] of [operator[]]. *)
Fixpoint index_walk (fuel : nat) (m : hash_map) (rawkey : Z) (curNode : ptr)
  : M (ptr * hash_map) :=
  match fuel with
  | O => timeout
  | S fuel' =>
      n <- load_node curNode;;
      if rawKey n =? rawkey then ret (dataPointer n, m)
      else
        match childNode n with
        | Some c => index_walk fuel' m rawkey c
        | None =>
            a <- new_node rawkey (Some curNode);;
            store_node curNode (set_childNode n (Some a));;;
            c <- load_node a;;
            ret (dataPointer c, count_up m)
        end
  end.

(** [T& operator[]( int32_t rawKey )], the specification's [get_or_insert].
    The reference returned is the address of the stored value. *)
Definition operator_index (fuel : nat) (m : hash_map) (rawkey : Z)
  : M (ptr * hash_map) :=
  let hashedKey := hashThis m rawkey in
  curNode <- read_head m hashedKey;;
  match curNode with
  | None =>
      a <- new_node rawkey None;;
      m' <- write_head m hashedKey (Some a);;
      n <- load_node a;;
      ret (dataPointer n, count_up m')
  | Some cur => index_walk fuel m rawkey cur
  end.

(** The splice of [erase] for the matching node [n]: the slot of the table
    when the node has no parent, the parent's [childNode] otherwise.  No
    [parentNode] is written. *)
Definition unlink (m : hash_map) (hashedKey : Z) (n : hash_map_ll_node)
  : M hash_map :=
  match parentNode n with
  | None => write_head m hashedKey (childNode n)
  | Some p =>
      pn <- load_node p;;
      store_node p (set_childNode pn (childNode n));;;
      ret m
  end.

(** The [do ... while ( true )] of [erase]. *)
Fixpoint erase_walk (fuel : nat) (m : hash_map) (hashedKey rawkey : Z)
    (curNode : ptr) : M hash_map :=
  match fuel with
  | O => timeout
  | S fuel' =>
      n <- load_node curNode;;
      if rawKey n =? rawkey then
        m' <- unlink m hashedKey n;;
        delete_node fuel (Some curNode);;;
        ret m'
      else
        match childNode n with
        | None => ret m
        | Some c => erase_walk fuel' m hashedKey rawkey c
        end
  end.

Definition erase (fuel : nat) (m : hash_map) (rawkey : Z) : M hash_map :=
  let hashedKey := hashThis m rawkey in
  curNode <- read_head m hashedKey;;
  match curNode with
  | None => ret m
  | Some cur => erase_walk fuel m hashedKey rawkey cur
  end.

(** The [while ( toDelete != nullptr )] of [clear]. *)
Fixpoint clear_chain (fuel : nat) (toDelete : option ptr) : M unit :=
  match toDelete with
  | None => ret tt
  | Some a =>
      match fuel with
      | O => timeout
      | S fuel' =>
          n <- load_node a;;
          delete_node fuel (Some a);;;
          clear_chain fuel' (childNode n)
      end
  end.

(** The [for] of [clear], with [count] slots left from index [i]. *)
Fixpoint clear_slots (fuel : nat) (m : hash_map) (count : nat) (i : Z) : M unit :=
  match count with
  | O => ret tt
  | S count' =>
      p <- read_head m i;;
      clear_chain fuel p;;;
      clear_slots fuel m count' (i + 1)
  end.

(** [memsetHeads]: [memset] needs a valid pointer whatever the length, so
    the call on a null table is undefined also for a table of length
    zero. *)
Definition memsetHeads (m : hash_map) : M hash_map :=
  match _heads m with
  | Some _ => ret {| _hashIndices := _hashIndices m;
                     _elementCount := _elementCount m;
                     _heads := Some ∅ |}
  | None => undefined
  end.

Definition clear (fuel : nat) (m : hash_map) : M hash_map :=
  clear_slots fuel m (Z.to_nat (_hashIndices m)) 0;;;
  memsetHeads m.

(** The [while ( curNode != nullptr )] of [bucketDensity]. *)
Fixpoint density_walk (fuel : nat) (counter : Z) (curNode : option ptr) : M Z :=
  match curNode with
  | None => ret counter
  | Some a =>
      match fuel with
      | O => timeout
      | S fuel' =>
          n <- load_node a;;
          density_walk fuel' (uint32 (counter + 1)) (childNode n)
      end
  end.

Definition bucketDensity (fuel : nat) (m : hash_map) (rawkey : Z) : M Z :=
  curNode <- read_head m (hashThis m rawkey);;
  density_walk fuel 0 curNode.

(** The [for] of the copy constructor. *)
Fixpoint copy_slots (fuel : nat) (other : hash_map) (count : nat) (i : Z)
    (this : hash_map) : M hash_map :=
  match count with
  | O => ret this
  | S count' =>
      p <- read_head other i;;
      this' <- match p with
               | None => ret this
               | Some a => b <- node_copy fuel a None;; write_head this i (Some b)
               end;;
      copy_slots fuel other count' (i + 1) this'
  end.

(** [hash_map( const hash_map& other )]: delegates to
    [hash_map( other._hashIndices )], then clones every occupied slot. *)
Definition hash_map_copy (fuel : nat) (other : hash_map) : M hash_map :=
  let this := hash_map_new (_hashIndices other) in
  copy_slots fuel other (Z.to_nat (_hashIndices this)) 0 this.

(** [~hash_map]: [clear] and release of the table. *)
Definition hash_map_destroy (fuel : nat) (m : hash_map) : M unit :=
  clear fuel m;;; ret tt.

(** [operator=( const hash_map& other )]; [same_object] tells whether
    [this == &other].  The temporary is destroyed on leaving the block. *)
Definition copy_assign (fuel : nat) (same_object : bool) (this other : hash_map)
  : M hash_map :=
  if same_object then ret this
  else
    temp <- hash_map_copy fuel other;;
    let '(this', temp') := swap this temp in
    hash_map_destroy fuel temp';;;
    ret this'.

(** The caller's [map[rawkey] = v]. *)
Definition put (fuel : nat) (m : hash_map) (rawkey : Z) (v : T) : M hash_map :=
  r <- operator_index fuel m rawkey;;
  store_value (fst r) v;;;
  ret (snd r).

(** The caller's read of [map[rawkey]]. *)
Definition get (fuel : nat) (m : hash_map) (rawkey : Z) : M (T * hash_map) :=
  r <- operator_index fuel m rawkey;;
  v <- load_value (fst r);;
  ret (v, snd r).

(** ** Well-formed chains *)

(** [chain h p l]: following [childNode] from [p] reaches [nullptr], and [l]
    lists, in order, each node's address, its fields and its stored
    value. *)
Inductive chain (h : heap) : option ptr -> list (ptr * hash_map_ll_node * T) -> Prop :=
| chain_nil : chain h None []
| chain_cons a n v l :
    nodes h !! a = Some n ->
    values h !! dataPointer n = Some v ->
    chain h (childNode n) l ->
    chain h (Some a) ((a, n, v) :: l).

Definition link_key (x : ptr * hash_map_ll_node * T) : Z := rawKey (snd (fst x)).
Definition link_entry (x : ptr * hash_map_ll_node * T) : Z * T :=
  (rawKey (snd (fst x)), snd x).
Definition link_node (x : ptr * hash_map_ll_node * T) : ptr := fst (fst x).
Definition link_data (x : ptr * hash_map_ll_node * T) : ptr := dataPointer (snd (fst x)).

(** Every live object lies below the next address to be handed out. *)
Definition heap_fresh (h : heap) : Prop :=
  map_Forall (fun a _ => (a < next_free h)%positive) (nodes h) /\
  map_Forall (fun a _ => (a < next_free h)%positive) (values h).

(** [h'] still holds every object of [h], unchanged. *)
Definition heap_extends (h h' : heap) : Prop :=
  (forall a n, nodes h !! a = Some n -> nodes h' !! a = Some n) /\
  (forall d v, values h !! d = Some v -> values h' !! d = Some v) /\
  (next_free h <= next_free h')%positive.

(** Each node of the list points back at the node before it, the first one
    at [parent]. *)
Fixpoint back_linked (parent : option ptr) (l : list (ptr * hash_map_ll_node * T)) : Prop :=
  match l with
  | [] => True
  | x :: l' => parentNode (snd (fst x)) = parent /\ back_linked (Some (link_node x)) l'
  end.

(** Slot [j] of table [tB] in heap [h'] heads a clone of what slot [j] of
    table [tA] heads in heap [h]: the same keys with equal values in the
    same order, in nodes and values that did not exist in [h], linked
    backwards from a head without parent. *)
Definition cloned (h h' : heap) (tA tB : head_table) (j : Z) : Prop :=
  exists lA lB,
    chain h (tA !! j) lA /\ chain h' (tB !! j) lB /\
    link_entry <$> lB = link_entry <$> lA /\
    back_linked None lB /\
    Forall (fun x => (next_free h <= link_node x)%positive /\
                     (next_free h <= link_data x)%positive) lB.

(** Every slot of the table of [m] heads a chain of at most [bound] nodes. *)
Definition chains_within (bound : nat) (h : heap) (m : hash_map) : Prop :=
  exists t, _heads m = Some t /\
    forall i, exists l, chain h (t !! i) l /\ (length l <= bound)%nat.

(** The states on which the walks are defined: objects below the next
    address, a table of at least one bucket, finite chains. *)
Definition well_formed (bound : nat) (h : heap) (m : hash_map) : Prop :=
  heap_fresh h /\ 0 < _hashIndices m < 2 ^ 32 /\ chains_within bound h m.

End WithValue.

Arguments Done {T A} a h.
Arguments Undefined {T A}.
Arguments Timeout {T A}.
Arguments heap T : clear implicits.
Arguments M T A : clear implicits.

(** ** Containers built by running the operations *)

Definition empty_heap : heap Z := {| nodes := ∅; values := ∅; next_free := 1%positive |}.

(** [map[k] = v] for each pair of the list, in order. *)
Fixpoint put_all (fuel : nat) (m : hash_map) (kvs : list (Z * Z)) : M Z hash_map :=
  match kvs with
  | [] => ret m
  | (k, v) :: kvs' => bind (put 0 fuel m k v) (fun m' => put_all fuel m' kvs')
  end.

(** The container and heap reached by [map[1] = 10] on a new 256-bucket
    container: node 1 holds key 1, its value lives at address 2. *)
Definition one_key_heap : heap Z :=
  {| nodes := {[ 1%positive := mk_node 1 2%positive None None ]};
     values := {[ 2%positive := 10 ]};
     next_free := 3%positive |}.

Definition one_key_map : hash_map :=
  {| _hashIndices := 256; _elementCount := 1;
     _heads := Some {[ 1 := 1%positive ]} |}.

(** ** Containers as lists of entries *)

Section Representation.
Context {T : Type}.

(** An entry of a container: a key, the address of the node that holds it
    and the address of its value. *)
Definition entry_key (e : Z * ptr * ptr) : Z := fst (fst e).
Definition entry_node (e : Z * ptr * ptr) : ptr := snd (fst e).
Definition entry_data (e : Z * ptr * ptr) : ptr := snd e.

(** [linked h parent q l]: the nodes reached from [q] through [childNode]
    are those of [l], in order, each with the key and value address of its
    entry and with its predecessor ([parent] for the first) as
    [parentNode]. *)
Inductive linked (h : heap T) : option ptr -> option ptr -> list (Z * ptr * ptr) -> Prop :=
| linked_nil parent : linked h parent None []
| linked_cons parent a n l :
    nodes h !! a = Some n ->
    parentNode n = parent ->
    linked h (Some a) (childNode n) l ->
    linked h parent (Some a) ((rawKey n, a, dataPointer n) :: l).

(** The entries whose key hashes to slot [i], in the order of [g]. *)
Definition bucket (m : hash_map) (g : list (Z * ptr * ptr)) (i : Z) : list (Z * ptr * ptr) :=
  filter (fun e => hashThis m (entry_key e) = i) g.

(** [represents g h m]: the container [m] holds exactly the entries [g],
    each key once and each value in an object of its own, and slot [i] of
    its table heads the chain of the entries that hash to [i]. *)
Definition represents (g : list (Z * ptr * ptr)) (h : heap T) (m : hash_map) : Prop :=
  heap_fresh h /\
  0 < _hashIndices m < 2 ^ 32 /\
  NoDup (entry_key <$> g) /\
  NoDup (entry_data <$> g) /\
  (forall e, e ∈ g -> is_Some (values h !! entry_data e)) /\
  exists t, _heads m = Some t /\ forall i, linked h None (t !! i) (bucket m g i).

(** The container maps key [k] to value [v]. *)
Definition holds (g : list (Z * ptr * ptr)) (h : heap T) (k : Z) (v : T) : Prop :=
  exists a d, (k, a, d) ∈ g /\ values h !! d = Some v.

(** The heap after [operator[]] has appended a node for [k] behind the
    childless node [nx] at [x]. *)
Definition appended (h : heap T) (x : ptr) (nx : hash_map_ll_node) (k : Z) (v : T) : heap T :=
  {| nodes := <[x := set_childNode nx (Some (next_free h))]>
                (<[next_free h := mk_node k (Pos.succ (next_free h)) (Some x) None]>
                   (nodes h));
     values := <[Pos.succ (next_free h) := v]> (values h);
     next_free := Pos.succ (Pos.succ (next_free h)) |}.

(** [h'] is [h] without the nodes and values of the entries [l]. *)
Definition freed (h : heap T) (l : list (Z * ptr * ptr)) (h' : heap T) : Prop :=
  next_free h' = next_free h /\
  (forall x, nodes h' !! x
             = if decide (x ∈ entry_node <$> l) then None else nodes h !! x) /\
  (forall y, values h' !! y
             = if decide (y ∈ entry_data <$> l) then None else values h !! y).

(** The entries whose key hashes to a slot below [i]. *)
Definition below (m : hash_map) (g : list (Z * ptr * ptr)) (i : Z) : list (Z * ptr * ptr) :=
  filter (fun e => hashThis m (entry_key e) < i) g.

End Representation.

(** The finite map obtained by the assignments [m[k] = v] of a list, in
    order, starting from [A]. *)
Definition assign (A : gmap Z Z) (kvs : list (Z * Z)) : gmap Z Z :=
  foldl (fun A kv => <[fst kv := snd kv]> A) A kvs.

(** * SimpleHashMap: the earlier variant of the same container

    The embedding of [src/SimpleHashMap.h].  Its nodes have the fields of
    [hash_map_ll_node] and live in the same kind of heap; the node
    destructor deletes the value only.  [size_t] is taken to be 64 bits
    wide and [int] 32 bits. *)

Module Simple.

Definition size_t (z : Z) : Z := z mod 2 ^ 64.

(** Conversion of an unsigned value to [int]. *)
Definition to_int (z : Z) : Z :=
  let r := z mod 2 ^ 32 in if r <? 2 ^ 31 then r else r - 2 ^ 32.

Record SimpleHashMap : Type := mk_simple {
  _storageSize : Z;
  _nodeCount : Z;
  _heads : option head_table
}.

(** [SimpleHashMap( size_t storageSize = 256 )]. *)
Definition SimpleHashMap_new (storageSize : Z) : SimpleHashMap :=
  {| _storageSize :=
       if (storageSize =? 0)
          && (Z.land storageSize (size_t (storageSize - 1)) =? 0)
       then 256 else storageSize;
     _nodeCount := 0;
     _heads := Some ∅ |}.

(** [hashThis]: the sign is dropped first, which overflows for the least
    [int] ([None]); the mask is [_storageSize - 1] as a [size_t]. *)
Definition hashThis (m : SimpleHashMap) (rawKey : Z) : option Z :=
  let rawKey' := if rawKey <? 0 then rawKey * -1 else rawKey in
  if rawKey' <? 2 ^ 31
  then Some (to_int (Z.land (size_t rawKey') (size_t (_storageSize m - 1))))
  else None.

Definition empty (m : SimpleHashMap) : bool := _nodeCount m =? 0.
Definition size (m : SimpleHashMap) : Z := _nodeCount m.
Definition bucketCount (m : SimpleHashMap) : Z := _storageSize m.

Section WithValue.
Context {T : Type} (default_value : T).

Notation "x <- c ;; k" := (bind (T:=T) c (fun x => k))
  (at level 100, c at next level, right associativity).
Notation "c ;;; k" := (bind (T:=T) c (fun _ => k))
  (at level 100, right associativity).

(** [_heads[i]]. *)
Definition read_head (m : SimpleHashMap) (i : Z) : M T (option ptr) :=
  match _heads m with
  | None => undefined
  | Some t =>
      if (0 <=? i) && (i <? _storageSize m) then ret (t !! i) else undefined
  end.

(** [_heads[i] = p]. *)
Definition write_head (m : SimpleHashMap) (i : Z) (p : option ptr) : M T SimpleHashMap :=
  match _heads m with
  | None => undefined
  | Some t =>
      if (0 <=? i) && (i <? _storageSize m)
      then ret {| _storageSize := _storageSize m;
                  _nodeCount := _nodeCount m;
                  _heads := Some (set_slot t i p) |}
      else undefined
  end.

(** The call of [hashThis] inside a member function. *)
Definition hashed (m : SimpleHashMap) (rawKey : Z) : M T Z :=
  match hashThis m rawKey with
  | Some i => ret i
  | None => undefined
  end.

(** [_nodeCount++]. *)
Definition count_up (m : SimpleHashMap) : SimpleHashMap :=
  {| _storageSize := _storageSize m;
     _nodeCount := size_t (_nodeCount m + 1);
     _heads := _heads m |}.

(** [delete h] for a [HashNode]: [~HashNode] deletes the value; the child
    is left alone. *)
Definition delete_HashNode (a : ptr) : M T unit :=
  n <- load_node a;;
  delete_value (dataPointer n);;;
  release_node a.

(** [memsetHeads]. *)
Definition memsetHeads (m : SimpleHashMap) : M T SimpleHashMap :=
  match _heads m with
  | Some _ => ret {| _storageSize := _storageSize m;
                     _nodeCount := _nodeCount m;
                     _heads := Some ∅ |}
  | None => undefined
  end.

(** The [do ... while ( true )] of [operator[]]. *)
Fixpoint index_walk (fuel : nat) (m : SimpleHashMap) (rawkey : Z) (h : ptr)
  : M T (ptr * SimpleHashMap) :=
  match fuel with
  | O => timeout
  | S fuel' =>
      n <- load_node h;;
      if rawKey n =? rawkey then ret (dataPointer n, m)
      else
        match childNode n with
        | Some c => index_walk fuel' m rawkey c
        | None =>
            a <- new_node default_value rawkey (Some h);;
            store_node h (set_childNode n (Some a));;;
            c <- load_node a;;
            ret (dataPointer c, count_up m)
        end
  end.

Definition operator_index (fuel : nat) (m : SimpleHashMap) (rawkey : Z)
  : M T (ptr * SimpleHashMap) :=
  hashedKey <- hashed m rawkey;;
  head <- read_head m hashedKey;;
  match head with
  | None =>
      a <- new_node default_value rawkey None;;
      m' <- write_head m hashedKey (Some a);;
      n <- load_node a;;
      ret (dataPointer n, count_up m')
  | Some h => index_walk fuel m rawkey h
  end.

(** The splice of [erase] for the matching node [n]. *)
Definition unlink (m : SimpleHashMap) (hashedKey : Z) (n : hash_map_ll_node)
  : M T SimpleHashMap :=
  match parentNode n with
  | None => write_head m hashedKey (childNode n)
  | Some p =>
      pn <- load_node p;;
      store_node p (set_childNode pn (childNode n));;;
      ret m
  end.

(** The [do ... while ( true )] of [erase]. *)
Fixpoint erase_walk (fuel : nat) (m : SimpleHashMap) (hashedKey rawkey : Z)
    (h : ptr) : M T SimpleHashMap :=
  match fuel with
  | O => timeout
  | S fuel' =>
      n <- load_node h;;
      if rawKey n =? rawkey then
        m' <- unlink m hashedKey n;;
        delete_HashNode h;;;
        ret m'
      else
        match childNode n with
        | None => ret m
        | Some c => erase_walk fuel' m hashedKey rawkey c
        end
  end.

Definition erase (fuel : nat) (m : SimpleHashMap) (rawkey : Z) : M T SimpleHashMap :=
  hashedKey <- hashed m rawkey;;
  head <- read_head m hashedKey;;
  match head with
  | None => ret m
  | Some h => erase_walk fuel m hashedKey rawkey h
  end.

(** The [for] of [clear], with [count] slots left from index [i]: the
    head of an occupied slot is deleted.  [headerHasData] takes the index
    as an [int]. *)
Fixpoint clear_slots (m : SimpleHashMap) (count : nat) (i : Z) : M T unit :=
  match count with
  | O => ret tt
  | S count' =>
      head <- read_head m (to_int i);;
      match head with
      | Some a => delete_HashNode a
      | None => ret tt
      end;;;
      clear_slots m count' (i + 1)
  end.

Definition clear (m : SimpleHashMap) : M T SimpleHashMap :=
  clear_slots m (Z.to_nat (_storageSize m)) 0;;;
  memsetHeads m.

(** The [do ... while ( toDelete != nullptr )] of the destructor: the
    body runs before the test, also on a null [toDelete]. *)
Fixpoint destroy_chain (fuel : nat) (toDelete : option ptr) : M T unit :=
  match toDelete with
  | None => undefined
  | Some a =>
      match fuel with
      | O => timeout
      | S fuel' =>
          n <- load_node a;;
          delete_HashNode a;;;
          match childNode n with
          | None => ret tt
          | Some c => destroy_chain fuel' (Some c)
          end
      end
  end.

Fixpoint destroy_slots (fuel : nat) (m : SimpleHashMap) (count : nat) (i : Z)
  : M T unit :=
  match count with
  | O => ret tt
  | S count' =>
      head <- read_head m i;;
      destroy_chain fuel head;;;
      destroy_slots fuel m count' (i + 1)
  end.

(** [~SimpleHashMap]. *)
Definition SimpleHashMap_destroy (fuel : nat) (m : SimpleHashMap) : M T unit :=
  destroy_slots fuel m (Z.to_nat (_storageSize m)) 0;;;
  memsetHeads m;;;
  ret tt.

(** The [while ( h->childNode != nullptr )] of [bucketDensity]. *)
Fixpoint density_walk (fuel : nat) (counter : Z) (h : ptr) : M T Z :=
  match fuel with
  | O => timeout
  | S fuel' =>
      n <- load_node h;;
      match childNode n with
      | None => ret counter
      | Some c => density_walk fuel' (size_t (counter + 1)) c
      end
  end.

Definition bucketDensity (fuel : nat) (m : SimpleHashMap) (rawkey : Z) : M T Z :=
  hashedKey <- hashed m rawkey;;
  head <- read_head m hashedKey;;
  match head with
  | None => ret 0
  | Some h => density_walk fuel (size_t (0 + 1)) h
  end.

End WithValue.

End Simple.


(** ** Ownership of the head nodes of a [SimpleHashMap] table *)

Section Head_ownership.
Context {T : Type}.

Implicit Types (h hi : heap T).

(** [x] heads a slot below [i]; [y] is the value of such a head. *)
Definition heads_below (t : gmap Z positive) (i : Z) (x : positive) : Prop :=
  exists j, 0 <= j < i /\ t !! j = Some x.

Definition head_data_below h (t : gmap Z positive) (i : Z) (y : positive) : Prop :=
  exists j a n, 0 <= j < i /\ t !! j = Some a /\ nodes h !! a = Some n /\ dataPointer n = y.

Definition heads_owned h (t : gmap Z positive) : Prop :=
  (forall j a, t !! j = Some a ->
     exists n, nodes h !! a = Some n /\ is_Some (values h !! dataPointer n)) /\
  (forall j j' a, t !! j = Some a -> t !! j' = Some a -> j = j') /\
  (forall j j' a a' n n', t !! j = Some a -> t !! j' = Some a' ->
     nodes h !! a = Some n -> nodes h !! a' = Some n' ->
     dataPointer n = dataPointer n' -> j = j').

Definition heads_released h (t : gmap Z positive) (i : Z) hi : Prop :=
  (forall x, heads_below t i x -> nodes hi !! x = None) /\
  (forall x, ~ heads_below t i x -> nodes hi !! x = nodes h !! x) /\
  (forall y, head_data_below h t i y -> values hi !! y = None) /\
  (forall y, ~ head_data_below h t i y -> values hi !! y = values h !! y).

End Head_ownership.

(** ** A container with two keys in one bucket *)

(** The heap and container reached by [map[1] = 10; map[257] = 20] on a new
    256-bucket container: keys 1 and 257 both hash to slot 1, node 1 heads
    the chain and node 3 follows it. *)
Definition two_key_heap : heap Z :=
  {| nodes := <[ 1%positive := mk_node 1 2%positive None (Some 3%positive) ]>
                {[ 3%positive := mk_node 257 4%positive (Some 1%positive) None ]};
     values := <[ 2%positive := 10 ]> {[ 4%positive := 20 ]};
     next_free := 5%positive |}.

Definition two_key_map : hash_map :=
  {| _hashIndices := 256; _elementCount := 2;
     _heads := Some {[ 1 := 1%positive ]} |}.

(** The same table in a [SimpleHashMap]. *)
Definition simple_two_key_map : Simple.SimpleHashMap :=
  {| Simple._storageSize := 256; Simple._nodeCount := 2;
     Simple._heads := Some {[ 1 := 1%positive ]} |}.
(** ** Rounding of the requested capacity *)

Lemma or_shift_testbit k x i :
  0 <= k -> 0 <= i ->
  Z.testbit (or_shift k x) i = Z.testbit x i || Z.testbit x (i + k).
Proof.
  intros Hk Hi. unfold or_shift.
  rewrite Z.lor_spec, Z.shiftr_spec by lia. reflexivity.
Qed.


Lemma spread_refl x : spread 0 x x.
Proof.
  intros i Hi. split.
  - intros H. exists 0. split; [lia|]. now rewrite Z.add_0_r.
  - intros (d & Hd & H). assert (d = 0) by lia. subst. now rewrite Z.add_0_r in H.
Qed.

Lemma spread_step s x y :
  0 <= s -> spread s x y -> spread (2 * s + 1) x (or_shift (s + 1) y).
Proof.
  intros Hs Hy i Hi. rewrite or_shift_testbit by lia.
  rewrite orb_true_iff, (Hy i), (Hy (i + (s + 1))) by lia. split.
  - intros [(d & Hd & H)|(d & Hd & H)].
    + exists d. split; [lia|done].
    + exists (s + 1 + d). split; [lia|]. now rewrite Z.add_assoc.
  - intros (d & Hd & H). destruct (Z_le_gt_dec d s).
    + left. exists d. split; [lia|done].
    + right. exists (d - (s + 1)). split; [lia|].
      now replace (i + (s + 1) + (d - (s + 1))) with (i + d) by lia.
Qed.

Lemma smear_spread x : spread 31 x (smear x).
Proof.
  unfold smear.
  pose proof (spread_refl x) as H0.
  apply (spread_step 0) in H0; [|lia].
  apply (spread_step 1) in H0; [|lia].
  apply (spread_step 3) in H0; [|lia].
  apply (spread_step 7) in H0; [|lia].
  apply (spread_step 15) in H0; [|lia].
  exact H0.
Qed.

Lemma smear_0 : smear 0 = 0.
Proof. reflexivity. Qed.

Lemma smear_ones x :
  0 < x < 2 ^ 32 -> smear x = Z.ones (Z.log2 x + 1).
Proof.
  intros Hx.
  assert (Hlog : 0 <= Z.log2 x < 32).
  { split; [apply Z.log2_nonneg|]. apply Z.log2_lt_pow2; lia. }
  apply Z.bits_inj'. intros i Hi.
  pose proof (smear_spread x i Hi) as Hs.
  destruct (Z_lt_ge_dec i (Z.log2 x + 1)) as [Hlt|Hge].
  - rewrite Z.ones_spec_low by lia. apply Hs.
    exists (Z.log2 x - i). split; [lia|].
    replace (i + (Z.log2 x - i)) with (Z.log2 x) by lia.
    apply Z.bit_log2. lia.
  - rewrite Z.ones_spec_high by lia.
    apply not_true_is_false. intros E.
    apply Hs in E as (d & Hd & E).
    rewrite Z.bits_above_log2 in E by lia. discriminate.
Qed.

(** The rounding, written without bit operations. *)
Lemma rounded_size_spec r :
  0 <= r < 2 ^ 32 ->
  rounded_size r =
    if decide (r = 0 \/ 2 ^ 31 < r) then 0
    else if decide (r = 1) then 1
    else 2 ^ (Z.log2 (r - 1) + 1).
Proof.
  intros Hr. unfold rounded_size.
  destruct (decide (r = 0 \/ 2 ^ 31 < r)) as [Hbig|Hsmall].
  - assert (Hx : 2 ^ 31 <= uint32 (r - 1) < 2 ^ 32).
    { unfold uint32. destruct Hbig as [->|Hb].
      - change ((0 - 1) mod 2 ^ 32) with (2 ^ 32 - 1). lia.
      - rewrite Z.mod_small by lia. lia. }
    rewrite smear_ones by lia.
    assert (Z.log2 (uint32 (r - 1)) = 31) as ->.
    { apply Z.log2_unique; [lia|]. change (2 ^ Z.succ 31) with (2 ^ 32). lia. }
    reflexivity.
  - assert (1 <= r <= 2 ^ 31) by lia.
    unfold uint32 at 2. rewrite (Z.mod_small (r - 1)) by lia.
    destruct (decide (r = 1)) as [->|Hne].
    + reflexivity.
    + assert (Hl : 0 <= Z.log2 (r - 1) < 31).
      { split; [apply Z.log2_nonneg|]. apply Z.log2_lt_pow2; lia. }
      rewrite smear_ones by lia. rewrite Z.ones_equiv.
      replace (Z.pred (2 ^ (Z.log2 (r - 1) + 1)) + 1) with (2 ^ (Z.log2 (r - 1) + 1)) by lia.
      unfold uint32. apply Z.mod_small. split; [lia|].
      apply Z.pow_lt_mono_r; lia.
Qed.

Lemma power_of_two_pos n : power_of_two n -> 1 <= n.
Proof. intros (e & He & ->). pose proof (Z.pow_pos_nonneg 2 e). lia. Qed.

Lemma initial_hashIndices_power_of_two r :
  0 <= r < 2 ^ 32 -> power_of_two (initial_hashIndices r).
Proof.
  intros Hr. unfold initial_hashIndices. rewrite rounded_size_spec by done.
  repeat case_decide.
  - exists 8. done.
  - exists 0. done.
  - assert (0 <= Z.log2 (r - 1)) by apply Z.log2_nonneg.
    assert (0 < 2 ^ (Z.log2 (r - 1) + 1)) by (apply Z.pow_pos_nonneg; lia).
    destruct (Z.eqb_spec (2 ^ (Z.log2 (r - 1) + 1)) 0); [lia|].
    exists (Z.log2 (r - 1) + 1). split; [lia|done].
Qed.

Lemma land_upper_bound a b : 0 <= a -> 0 <= b -> Z.land a b <= b.
Proof.
  intros Ha Hb.
  assert (Hd : Z.ldiff (Z.land a b) b = 0).
  { apply Z.bits_inj'. intros i Hi.
    rewrite Z.ldiff_spec, Z.land_spec, Z.bits_0.
    destruct (Z.testbit a i), (Z.testbit b i); reflexivity. }
  apply Z.sub_nocarry_ldiff in Hd.
  assert (0 <= Z.ldiff b (Z.land a b)) by (apply Z.ldiff_nonneg; lia).
  lia.
Qed.

(** C6.  For a requested capacity in the range of [uint32_t], the
    constructor leaves in [bucketCount()] the smallest power of two that is
    at least the request, unless the 32-bit rounding comes out as zero, in
    which case [bucketCount()] is 256; the rounding is zero exactly for the
    request 0 and for requests above 2^31.  Requests 0, 5, 256 and 300 give
    256, 8, 256 and 512. *)
Theorem constructor_rounds_capacity (storageSize : Z) :
  0 <= storageSize < 2 ^ 32 ->
  (rounded_size storageSize <> 0 ->
     power_of_two (bucketCount (hash_map_new storageSize)) /\
     storageSize <= bucketCount (hash_map_new storageSize) /\
     forall p, power_of_two p -> storageSize <= p ->
               bucketCount (hash_map_new storageSize) <= p) /\
  (rounded_size storageSize = 0 -> bucketCount (hash_map_new storageSize) = 256) /\
  (rounded_size storageSize = 0 <-> storageSize = 0 \/ 2 ^ 31 < storageSize) /\
  bucketCount (hash_map_new 0) = 256 /\
  bucketCount (hash_map_new 5) = 8 /\
  bucketCount (hash_map_new 256) = 256 /\
  bucketCount (hash_map_new 300) = 512.
Proof.
  intros Hr. unfold bucketCount. cbn [_hashIndices hash_map_new].
  split; [|split; [|split; [|repeat split]]].
  - intros Hnz. split; [by apply initial_hashIndices_power_of_two|].
    unfold initial_hashIndices.
    destruct (Z.eqb_spec (rounded_size storageSize) 0) as [|_]; [done|].
    revert Hnz. rewrite rounded_size_spec by done.
    repeat case_decide; intros Hnz; [done| |].
    + subst. split; [lia|]. intros p Hp _. by apply power_of_two_pos.
    + assert (Hl : 0 <= Z.log2 (storageSize - 1)) by apply Z.log2_nonneg.
      destruct (Z.log2_spec (storageSize - 1)) as [Hlo Hhi]; [lia|].
      rewrite <- Z.add_1_r in Hhi. split; [lia|].
      intros p (e & He & ->) Hle.
      apply Z.pow_le_mono_r; [lia|].
      destruct (Z_lt_ge_dec (Z.log2 (storageSize - 1)) e); [lia|].
      assert (2 ^ e <= 2 ^ Z.log2 (storageSize - 1)) by (apply Z.pow_le_mono_r; lia).
      lia.
  - intros Hz. unfold initial_hashIndices. by rewrite Hz.
  - rewrite rounded_size_spec by done. repeat case_decide; split; try done; try lia.
    intros Hz. assert (0 <= Z.log2 (storageSize - 1)) by apply Z.log2_nonneg.
    assert (0 < 2 ^ (Z.log2 (storageSize - 1) + 1)) by (apply Z.pow_pos_nonneg; lia).
    lia.
Qed.

Lemma constructor_rounds_capacity_witness :
  power_of_two (bucketCount (hash_map_new 1000)) /\
  1000 <= bucketCount (hash_map_new 1000) /\
  bucketCount (hash_map_new 1000) = 1024.
Proof.
  destruct (constructor_rounds_capacity 1000) as (H & _); [lia|].
  destruct H as (Hp & Hle & _); [discriminate|].
  split; [exact Hp|]. split; [exact Hle|reflexivity].
Defined.

(** With at least one bucket the mask is [_hashIndices - 1] itself and the
    masked key is an index of the table. *)
Lemma hashThis_spec (m : hash_map) (key : Z) :
  0 < _hashIndices m < 2 ^ 32 ->
  hashThis m key = Z.land (uint32 key) (_hashIndices m - 1) /\
  0 <= hashThis m key < _hashIndices m.
Proof.
  unfold hashThis. intros Hb.
  assert (Hu : 0 <= uint32 key < 2 ^ 32) by (apply Z.mod_pos_bound; lia).
  assert (Hm : uint32 (_hashIndices m - 1) = _hashIndices m - 1).
  { unfold uint32. apply Z.mod_small. lia. }
  rewrite Hm.
  assert (Hland : 0 <= Z.land (uint32 key) (_hashIndices m - 1) <= _hashIndices m - 1).
  { split; [apply Z.land_nonneg; lia|apply land_upper_bound; lia]. }
  assert (Hh : uint32 (Z.land (uint32 key) (_hashIndices m - 1))
               = Z.land (uint32 key) (_hashIndices m - 1)).
  { unfold uint32 at 1. apply Z.mod_small. lia. }
  rewrite Hh. split; [reflexivity|lia].
Qed.

(** C8.  For an [int32_t] key and a table of at least one bucket,
    [hashThis] is the key's two's-complement bit pattern masked with
    [bucketCount - 1]; the sign is not normalised (for a power-of-two
    bucket count the result is the key modulo the bucket count, so -1 goes
    to the last bucket); the result is an index in [0, bucketCount). *)
Theorem hashThis_masks_raw_bits (m : hash_map) (key : Z) :
  is_int32 key -> 0 < bucketCount m < 2 ^ 32 ->
  hashThis m key = Z.land (uint32 key) (bucketCount m - 1) /\
  0 <= hashThis m key < bucketCount m /\
  (key < 0 -> uint32 key = key + 2 ^ 32) /\
  (power_of_two (bucketCount m) -> hashThis m key = key mod bucketCount m) /\
  hashThis (hash_map_new 256) (-1) = 255.
Proof.
  unfold bucketCount. intros Hk Hb.
  destruct (hashThis_spec m key Hb) as [Hmask Hrange].
  split; [done|]. split; [done|]. split; [|split; [|reflexivity]].
  - intros Hneg. unfold is_int32 in Hk. unfold uint32.
    symmetry. apply (Z.mod_unique key (2 ^ 32) (-1)); lia.
  - intros (e & He & Heq). rewrite Hmask, Heq.
    assert (e <= 32).
    { destruct (Z_le_gt_dec e 32); [done|].
      assert (2 ^ 33 <= 2 ^ e) by (apply Z.pow_le_mono_r; lia). lia. }
    rewrite Z.sub_1_r, <- Z.ones_equiv, Z.land_ones by lia.
    unfold uint32. apply Z.mod_mod_divide.
    exists (2 ^ (32 - e)). rewrite <- Z.pow_add_r by lia. f_equal. lia.
Qed.

Lemma hashThis_masks_raw_bits_witness :
  hashThis (hash_map_new 8) (-3) = Z.land (uint32 (-3)) 7 /\
  0 <= hashThis (hash_map_new 8) (-3) < 8 /\
  hashThis (hash_map_new 8) (-3) = (-3) mod 8.
Proof.
  destruct (hashThis_masks_raw_bits (hash_map_new 8) (-3)) as (H1 & H2 & _ & H3 & _).
  - unfold is_int32. lia.
  - vm_compute. split; reflexivity.
  - split; [exact H1|]. split; [exact H2|].
    apply H3. exists 3. split; [lia|reflexivity].
Defined.

(** ** Reasoning about the operations *)

(** Reduce field accesses on explicit records, leaving the maps alone. *)
Ltac proj :=
  cbn [nodes values next_free rawKey dataPointer parentNode childNode
       set_childNode _hashIndices _elementCount _heads fst snd].

Section Operations.
Context {T : Type} (default_value : T).

Implicit Types (h : heap T) (m : hash_map).

Lemma bind_Done {A B} (c : M T A) (k : A -> M T B) h b h2 :
  bind c k h = Done b h2 ->
  exists a h1, c h = Done a h1 /\ k a h1 = Done b h2.
Proof. unfold bind. destruct (c h); [eauto|discriminate..]. Qed.

Lemma ret_Done {A} (a b : A) h h' : ret a h = Done b h' -> a = b /\ h = h'.
Proof. unfold ret. intros [= -> ->]. done. Qed.

Lemma read_head_Done m i h p h' :
  read_head m i h = Done p h' ->
  h' = h /\ exists t, _heads m = Some t /\ p = t !! i /\ 0 <= i < _hashIndices m.
Proof.
  unfold read_head. destruct (_heads m) as [t|]; [|discriminate].
  destruct (Z.leb_spec 0 i), (Z.ltb_spec i (_hashIndices m)); [|discriminate..].
  intros [= <- <-]. split; [done|]. exists t. repeat split; done || lia.
Qed.

Lemma write_head_Done m i p h m' h' :
  write_head m i p h = Done m' h' ->
  h' = h /\ _hashIndices m' = _hashIndices m /\ _elementCount m' = _elementCount m.
Proof.
  unfold write_head. destruct (_heads m) as [t|]; [|discriminate].
  destruct (_ && _); [|discriminate]. intros [= <- <-]. done.
Qed.

(** *** Members that no walk changes *)

Lemma index_walk_hashIndices fuel m k cur h p m' h' :
  index_walk default_value fuel m k cur h = Done (p, m') h' ->
  _hashIndices m' = _hashIndices m.
Proof.
  revert cur h. induction fuel as [|fuel IH]; intros cur h; [discriminate|].
  cbn [index_walk]. intros H.
  apply bind_Done in H as (n & h1 & _ & H).
  destruct (rawKey n =? k).
  - apply ret_Done in H as [[= _ <-] _]. done.
  - destruct (childNode n) as [c|]; [by eapply IH|].
    apply bind_Done in H as (a & h2 & _ & H).
    apply bind_Done in H as (? & h3 & _ & H).
    apply bind_Done in H as (c & h4 & _ & H).
    apply ret_Done in H as [[= _ <-] _]. done.
Qed.

Lemma operator_index_hashIndices fuel m k h p m' h' :
  operator_index default_value fuel m k h = Done (p, m') h' ->
  _hashIndices m' = _hashIndices m.
Proof.
  unfold operator_index. intros H.
  apply bind_Done in H as (cur & h1 & _ & H).
  destruct cur as [cur|]; [by eapply index_walk_hashIndices|].
  apply bind_Done in H as (a & h2 & _ & H).
  apply bind_Done in H as (m1 & h3 & Hw & H).
  apply bind_Done in H as (n & h4 & _ & H).
  apply ret_Done in H as [[= _ <-] _].
  apply write_head_Done in Hw as (_ & Hw & _). done.
Qed.

Lemma unlink_members m i n h m' h' :
  unlink m i n h = Done m' h' ->
  _hashIndices m' = _hashIndices m /\ _elementCount m' = _elementCount m.
Proof.
  unfold unlink. destruct (parentNode n) as [p|].
  - intros H. apply bind_Done in H as (pn & h1 & _ & H).
    apply bind_Done in H as (? & h2 & _ & H).
    apply ret_Done in H as [<- _]. done.
  - intros H. apply write_head_Done in H as (_ & ? & ?). done.
Qed.

Lemma erase_walk_members fuel m i k cur h m' h' :
  erase_walk fuel m i k cur h = Done m' h' ->
  _hashIndices m' = _hashIndices m /\ _elementCount m' = _elementCount m.
Proof.
  revert cur h. induction fuel as [|fuel IH]; intros cur h; [discriminate|].
  cbn [erase_walk]. intros H.
  apply bind_Done in H as (n & h1 & _ & H).
  destruct (rawKey n =? k).
  - apply bind_Done in H as (m1 & h2 & Hu & H).
    apply bind_Done in H as (? & h3 & _ & H).
    apply ret_Done in H as [<- _]. by eapply unlink_members.
  - destruct (childNode n) as [c|]; [by eapply IH|].
    apply ret_Done in H as [<- _]. done.
Qed.

(** [erase] returns with [_hashIndices] and [_elementCount] as it found
    them. *)
Lemma erase_members fuel m k h m' h' :
  erase fuel m k h = Done m' h' ->
  _hashIndices m' = _hashIndices m /\ _elementCount m' = _elementCount m.
Proof.
  unfold erase. intros H.
  apply bind_Done in H as (cur & h1 & _ & H).
  destruct cur as [cur|]; [by eapply erase_walk_members|].
  apply ret_Done in H as [<- _]. done.
Qed.

(** So does [clear]. *)
Lemma clear_members fuel m h m' h' :
  clear fuel m h = Done m' h' ->
  _hashIndices m' = _hashIndices m /\ _elementCount m' = _elementCount m.
Proof.
  unfold clear. intros H.
  apply bind_Done in H as (? & h1 & _ & H).
  unfold memsetHeads in H. destruct (_heads m).
  - apply ret_Done in H as [<- _]. done.
  - discriminate.
Qed.

Lemma copy_slots_members fuel other count i this h m' h' :
  copy_slots fuel other count i this h = Done m' h' ->
  _hashIndices m' = _hashIndices this /\ _elementCount m' = _elementCount this.
Proof.
  revert i this h. induction count as [|count IH]; intros i this h; cbn [copy_slots].
  - intros H. apply ret_Done in H as [<- _]. done.
  - intros H. apply bind_Done in H as (p & h1 & _ & H).
    apply bind_Done in H as (this' & h2 & Hs & H).
    apply IH in H as [-> ->].
    destruct p as [a|].
    + apply bind_Done in Hs as (b & h3 & _ & Hs).
      apply write_head_Done in Hs as (_ & ? & ?). done.
    + apply ret_Done in Hs as [<- _]. done.
Qed.

(** The copy constructor returns with the bucket count rounded from the
    source's and with an element count of zero. *)
Lemma hash_map_copy_members fuel other h m' h' :
  hash_map_copy fuel other h = Done m' h' ->
  _hashIndices m' = initial_hashIndices (_hashIndices other) /\ _elementCount m' = 0.
Proof. unfold hash_map_copy. intros H. by apply copy_slots_members in H. Qed.

Lemma copy_assign_members fuel this other h m' h' :
  copy_assign fuel false this other h = Done m' h' ->
  _hashIndices m' = initial_hashIndices (_hashIndices other) /\ _elementCount m' = 0.
Proof.
  unfold copy_assign. intros H.
  apply bind_Done in H as (temp & h1 & Hc & H).
  cbn [swap] in H.
  apply bind_Done in H as (? & h2 & _ & H).
  apply ret_Done in H as [<- _]. cbn. by eapply hash_map_copy_members.
Qed.

End Operations.

(** ** [operator[]]: a second call finds what the first one left *)

Section Access.
Context {T : Type} (default_value : T).

Implicit Types (h : heap T) (m : hash_map).


Lemma chain_length_pos h a l : chain h (Some a) l -> (0 < length l)%nat.
Proof. inversion 1; simpl; lia. Qed.

Lemma heap_fresh_lookup h a :
  heap_fresh h -> (next_free h <= a)%positive ->
  nodes h !! a = None /\ values h !! a = None.
Proof.
  intros [Hn Hv] Ha. split.
  - destruct (nodes h !! a) eqn:E; [|done]. apply Hn in E. lia.
  - destruct (values h !! a) eqn:E; [|done]. apply Hv in E. lia.
Qed.

Lemma chain_value_live h q l x :
  chain h q l -> x ∈ l -> is_Some (values h !! link_data x).
Proof.
  induction 1 as [|a n v l Hn Hv Hrest IH]; intros Hx.
  - by apply elem_of_nil in Hx.
  - apply elem_of_cons in Hx as [->|Hx]; [|by apply IH].
    unfold link_data. simpl. eauto.
Qed.

(** A walk over a chain that holds the key only reads: it returns the
    address of the stored value and leaves map and heap as they were. *)
Lemma index_walk_found fuel m k cur h l :
  chain h (Some cur) l -> k ∈ link_key <$> l -> (length l <= fuel)%nat ->
  exists x, x ∈ l /\ link_key x = k /\
    index_walk default_value fuel m k cur h = Done (link_data x, m) h.
Proof.
  revert cur fuel. induction l as [|[[a n] v] l IH]; intros cur fuel Hc Hin Hlen.
  { inversion Hc. }
  inversion Hc as [|? ? ? ? Hn Hv Hrest]; subst.
  destruct fuel as [|fuel]; [simpl in Hlen; lia|].
  cbn [index_walk]. unfold bind, load_node. rewrite Hn.
  destruct (Z.eqb_spec (rawKey n) k) as [Heq|Hne].
  - exists (a, n, v). split; [left|]. done.
  - destruct (childNode n) as [c|] eqn:Hchild.
    + destruct (IH c fuel) as (x & Hx & Hk & Hw).
      * done.
      * rewrite fmap_cons in Hin. apply elem_of_cons in Hin as [Heq|Hin]; [|done].
        by destruct Hne.
      * simpl in Hlen. lia.
      * exists x. split; [by right|done].
    + inversion Hrest; subst.
      rewrite fmap_cons in Hin. apply elem_of_cons in Hin as [Heq|Hin].
      * by destruct Hne.
      * by apply elem_of_nil in Hin.
Qed.

(** A walk over a chain without the key appends one node after the tail.
    Nodes that had a child are left alone, the new value is the default
    one, and any later walk for the same key returns the same address
    without changing anything. *)
Lemma index_walk_appends fuel m k cur h l :
  heap_fresh h ->
  chain h (Some cur) l -> k ∉ link_key <$> l -> (length l <= fuel)%nat ->
  exists p h1,
    index_walk default_value fuel m k cur h = Done (p, count_up m) h1 /\
    values h1 !! p = Some default_value /\
    values h !! p = None /\
    (forall x n, nodes h !! x = Some n -> is_Some (childNode n) ->
                 nodes h1 !! x = Some n) /\
    (forall fuel' m2, (length l < fuel')%nat ->
        index_walk default_value fuel' m2 k cur h1 = Done (p, m2) h1).
Proof.
  intros Hfresh. revert cur fuel.
  induction l as [|[[a n] v] l IH]; intros cur fuel Hc Hin Hlen.
  { inversion Hc. }
  inversion Hc as [|? ? ? ? Hn Hv Hrest]; subst.
  destruct fuel as [|fuel]; [simpl in Hlen; lia|].
  rewrite fmap_cons in Hin. apply not_elem_of_cons in Hin as [Hne Hin].
  unfold link_key in Hne; simpl in Hne.
  cbn [index_walk]. unfold bind at 1, load_node at 1. rewrite Hn.
  destruct (Z.eqb_spec (rawKey n) k) as [Heq|_]; [by destruct Hne|].
  destruct (childNode n) as [c|] eqn:Hchild.
  - destruct (IH c fuel) as (p & h1 & Hw & Hp & Hold & Hframe & Hagain); [done..|simpl in Hlen; lia|].
    exists p, h1. split; [done|]. split; [done|]. split; [done|]. split; [done|].
    intros fuel' m2 Hf. destruct fuel' as [|fuel']; [lia|].
    cbn [index_walk]. unfold bind, load_node.
    rewrite (Hframe a n Hn) by (rewrite Hchild; eauto).
    destruct (Z.eqb_spec (rawKey n) k) as [Heq|_]; [by destruct Hne|].
    rewrite Hchild. apply Hagain. simpl in Hf. lia.
  - inversion Hrest; subst.
    destruct (heap_fresh_lookup h (next_free h)) as [Hfn Hfv]; [done|lia|].
    destruct (heap_fresh_lookup h (Pos.succ (next_free h))) as [_ Hfv']; [done|lia|].
    assert (Hca : a <> next_free h) by (intros ->; congruence).
    exists (Pos.succ (next_free h)).
    eexists. split.
    { unfold bind, new_node, bind, new_address, new_value, construct_node, ret,
        store_node, construct_node, load_node. proj.
      rewrite lookup_insert_ne by done. rewrite Hn. proj.
      rewrite lookup_insert_ne by done. rewrite lookup_insert_eq. proj.
      reflexivity. }
    proj. split; [by rewrite lookup_insert_eq|]. split; [done|]. split.
    { intros x n' Hx [c Hc']. destruct (decide (x = a)) as [->|Hxc].
      - congruence.
      - rewrite lookup_insert_ne by done.
        rewrite lookup_insert_ne; [done|]. intros <-. congruence. }
    intros fuel' m2 Hf. simpl in Hf.
    destruct fuel' as [|[|fuel']]; [lia..|].
    cbn [index_walk]. unfold bind, load_node. proj.
    rewrite lookup_insert_eq. proj.
    destruct (Z.eqb_spec (rawKey n) k) as [Heq|_]; [by destruct Hne|].
    cbn [index_walk]. unfold bind, load_node. proj.
    rewrite lookup_insert_ne by done. rewrite lookup_insert_eq. proj.
    rewrite Z.eqb_refl. reflexivity.
Qed.


Lemma hashThis_count_up m k : hashThis (count_up m) k = hashThis m k.
Proof. reflexivity. Qed.

(** When the head of the bucket holds the key, [operator[]] returns its
    value's address at once. *)
Lemma operator_index_hit fuel m k h t a n :
  _heads m = Some t ->
  0 <= hashThis m k < _hashIndices m ->
  t !! hashThis m k = Some a ->
  nodes h !! a = Some n ->
  rawKey n = k ->
  (0 < fuel)%nat ->
  operator_index default_value fuel m k h = Done (dataPointer n, m) h.
Proof.
  intros Hheads Hrange Hslot Hn Hk Hfuel.
  unfold operator_index, bind, read_head. rewrite Hheads.
  destruct (Z.leb_spec 0 (hashThis m k)); [|lia].
  destruct (Z.ltb_spec (hashThis m k) (_hashIndices m)); [|lia].
  unfold ret. cbn [andb]. rewrite Hslot.
  destruct fuel as [|fuel]; [lia|].
  cbn [index_walk]. unfold bind, load_node. rewrite Hn, Hk, Z.eqb_refl.
  reflexivity.
Qed.

(** X17.  Two consecutive calls of [operator[]] for one key.  On a
    container with a table of at least one bucket whose bucket for [k] is a
    well-formed chain, a call of [operator[]] for [k] returns a reference,
    and a second call that follows it directly returns the same reference
    and leaves the container and the heap exactly as the first call left
    them: no node is created and no link is changed, so [size()] grows by
    0.  The first call adds 1 to [size()] (as a [uint32_t]) and the
    reference holds a default value when [k] was not in the chain; it
    changes nothing when [k] was already there. *)
Theorem get_or_insert_twice fuel m k h t l :
  heap_fresh h ->
  _heads m = Some t ->
  0 < bucketCount m < 2 ^ 32 ->
  chain h (t !! hashThis m k) l ->
  (length l < fuel)%nat ->
  exists p m1 h1,
    operator_index default_value fuel m k h = Done (p, m1) h1 /\
    operator_index default_value fuel m1 k h1 = Done (p, m1) h1 /\
    is_Some (values h1 !! p) /\
    (k ∉ link_key <$> l ->
       size m1 = uint32 (size m + 1) /\
       (0 <= size m < 2 ^ 32 - 1 -> size m1 = size m + 1) /\
       values h !! p = None /\ values h1 !! p = Some default_value) /\
    (k ∈ link_key <$> l -> m1 = m /\ h1 = h).
Proof.
  intros Hfresh Hheads Hcount Hchain Hfuel. unfold bucketCount in Hcount.
  destruct (hashThis_spec m k Hcount) as [_ Hrange].
  assert (Hchk : (0 <=? hashThis m k) && (hashThis m k <? _hashIndices m) = true).
  { apply andb_true_iff. split; [apply Z.leb_le|apply Z.ltb_lt]; lia. }
  unfold operator_index at 1. unfold bind at 1. unfold read_head at 1.
  rewrite Hheads, Hchk. unfold ret at 1.
  destruct (t !! hashThis m k) as [cur|] eqn:Hslot.
  - destruct (decide (k ∈ link_key <$> l)) as [Hin|Hnin].
    + destruct (index_walk_found fuel m k cur h l) as (x & Hx & Hk & Hw); [done..|lia|].
      exists (link_data x), m, h. rewrite Hw.
      split; [done|]. split.
      { unfold operator_index, bind, read_head. rewrite Hheads, Hchk.
        unfold ret. by rewrite Hslot. }
      split.
      { by eapply chain_value_live. }
      split; [done|]. done.
    + destruct (index_walk_appends fuel m k cur h l)
        as (p & h1 & Hw & Hp & Hold & _ & Hagain); [done..|lia|].
      exists p, (count_up m), h1. rewrite Hw.
      split; [done|]. split.
      { unfold operator_index, bind, read_head. rewrite hashThis_count_up.
        change (_heads (count_up m)) with (_heads m).
        change (_hashIndices (count_up m)) with (_hashIndices m).
        rewrite Hheads, Hchk. unfold ret. rewrite Hslot. by apply Hagain. }
      split; [eauto|]. split; [|done].
      intros _. unfold size. proj. split; [done|]. split; [|done].
      intros Hs. unfold uint32. apply Z.mod_small. lia.
  - inversion Hchain; subst.
    exists (Pos.succ (next_free h)). eexists. eexists.
    split.
    { unfold bind, new_node, bind, new_address, new_value, construct_node, ret,
        write_head. proj. rewrite Hheads, Hchk. unfold ret, load_node. proj.
      rewrite lookup_insert_eq. proj. reflexivity. }
    split.
    { eapply operator_index_hit
        with (n := mk_node k (Pos.succ (next_free h)) None None).
      - reflexivity.
      - exact Hrange.
      - apply lookup_insert_eq.
      - proj. apply lookup_insert_eq.
      - reflexivity.
      - lia. }
    proj. rewrite lookup_insert_eq. split; [eauto|]. split.
    + intros _. unfold size. proj. split; [done|]. split.
      * intros Hs. unfold uint32. apply Z.mod_small. lia.
      * split; [|done]. apply heap_fresh_lookup; [done|lia].
    + intros Hin. by apply elem_of_nil in Hin.
Qed.

End Access.

(** ** The copy constructor *)

Section Copy.
Context {T : Type}.

Implicit Types (h : heap T) (m : hash_map).


Lemma heap_extends_refl h : heap_extends h h.
Proof. repeat split; auto. lia. Qed.

Lemma heap_extends_trans h1 h2 h3 :
  heap_extends h1 h2 -> heap_extends h2 h3 -> heap_extends h1 h3.
Proof.
  intros (Hn1 & Hv1 & Hf1) (Hn2 & Hv2 & Hf2). repeat split; auto. lia.
Qed.

Lemma chain_extends h h' p l :
  heap_extends h h' -> chain h p l -> chain h' p l.
Proof.
  intros (Hn & Hv & _). induction 1; econstructor; eauto.
Qed.

Lemma chain_insert_node h q l a n :
  chain h q l -> Forall (fun x => link_node x <> a) l ->
  chain {| nodes := <[a := n]> (nodes h); values := values h;
           next_free := next_free h |} q l.
Proof.
  induction 1 as [|x y z l Hx Hz Hrest IH]; intros Hne; [constructor|].
  apply Forall_cons in Hne as [Hxa Hne]. unfold link_node in Hxa. simpl in Hxa.
  econstructor; proj; [by rewrite lookup_insert_ne|done|by apply IH].
Qed.

(** The clone of a chain: same keys and equal values in the same order,
    held by objects allocated during the call, each clone pointing back at
    its predecessor; nothing that existed before is changed. *)
Lemma node_copy_spec fuel a parent h l :
  heap_fresh h -> chain h (Some a) l -> (length l <= fuel)%nat ->
  exists b h' l',
    node_copy fuel a parent h = Done b h' /\
    heap_fresh h' /\ heap_extends h h' /\
    chain h' (Some b) l' /\
    link_entry <$> l' = link_entry <$> l /\
    back_linked parent l' /\
    Forall (fun x => (next_free h <= link_node x)%positive /\
                     (next_free h <= link_data x)%positive) l'.
Proof.
  revert a parent h fuel.
  induction l as [|[[a0 n] v] l IH]; intros a parent h fuel Hfresh Hc Hlen.
  { inversion Hc. }
  inversion Hc as [|? ? ? ? Hn Hv Hrest]; subst.
  destruct fuel as [|fuel]; [simpl in Hlen; lia|].
  destruct (heap_fresh_lookup h (next_free h)) as [Hfn Hfv]; [done|lia|].
  destruct (heap_fresh_lookup h (Pos.succ (next_free h))) as [_ Hfv']; [done|lia|].
  destruct Hfresh as [Hfrn Hfrv].
  set (this := next_free h). set (d := Pos.succ (next_free h)).
  set (h2 := {| nodes := nodes h; values := <[d := v]> (values h);
                next_free := Pos.succ d |}).
  assert (Hfresh2 : heap_fresh h2).
  { split; unfold h2; proj.
    - intros x y Hx. apply Hfrn in Hx. unfold d. lia.
    - apply map_Forall_insert_2; [unfold d; lia|].
      intros x y Hx. apply Hfrv in Hx. unfold d. lia. }
  assert (Hext2 : heap_extends h h2).
  { unfold h2. repeat split; proj; [done| |unfold d; lia].
    intros x y Hx. rewrite lookup_insert_ne; [done|]. intros <-. unfold d in *. congruence. }
  assert (Hstart : forall k : option positive -> M T positive,
    node_copy (S fuel) a0 parent h =
    bind (match childNode n with
          | None => ret None
          | Some oc => bind (node_copy fuel oc (Some this)) (fun c => ret (Some c))
          end)
         (fun c => bind (construct_node this (mk_node (rawKey n) d parent c))
                        (fun _ => ret this)) h2).
  { intros _. cbn [node_copy]. unfold bind at 1, new_address.
    unfold bind at 1, load_node at 1. proj. rewrite Hn.
    unfold bind at 1, load_value at 1. proj. rewrite Hv.
    unfold bind at 1, new_value at 1. proj. reflexivity. }
  rewrite (Hstart (fun _ => ret this)). clear Hstart.
  destruct (childNode n) as [oc|] eqn:Hchild.
  - destruct (IH oc (Some this) h2 fuel) as (c & h3 & l3 & Hcopy & Hfresh3 & Hext3 & Hc3 & Hent & Hback & Hnew).
    { done. }
    { by eapply chain_extends. }
    { simpl in Hlen. lia. }
    unfold bind at 1. unfold bind at 1. rewrite Hcopy. unfold ret at 1.
    unfold bind, construct_node, ret.
    set (nb := mk_node (rawKey n) d parent (Some c)).
    exists this. eexists. exists ((this, nb, v) :: l3).
    split; [reflexivity|].
    assert (Hnew' : Forall (fun x => link_node x <> this) l3).
    { eapply Forall_impl; [exact Hnew|]. intros x [Hx _]. unfold h2 in Hx.
      proj. cbn [next_free] in Hx. unfold this, d in *. lia. }
    destruct Hfresh3 as [Hfrn3 Hfrv3]. destruct Hext3 as (Hen3 & Hev3 & Hef3).
    unfold h2 in Hef3. cbn [next_free] in Hef3.
    split; [|split; [|split; [|split; [|split]]]].
    + split; proj; [|done].
      apply map_Forall_insert_2; [unfold this, d in *; lia|done].
    + repeat split; proj.
      * intros x y Hx. rewrite lookup_insert_ne; [|intros <-; unfold this in *; congruence].
        apply Hen3. by apply Hext2.
      * intros x y Hx. apply Hev3. by apply Hext2.
      * unfold d in *. lia.
    + econstructor; proj.
      * apply lookup_insert_eq.
      * apply Hev3. unfold h2. proj. apply lookup_insert_eq.
      * by apply (chain_insert_node h3 (Some c)).
    + rewrite !fmap_cons. by f_equal.
    + split; [done|]. done.
    + constructor.
      * unfold link_node, link_data. simpl. unfold this, d. lia.
      * eapply Forall_impl; [exact Hnew|]. intros x [Hx1 Hx2]. unfold h2 in *.
        cbn [next_free] in *. unfold d in *. lia.
  - inversion Hrest; subst.
    unfold bind, construct_node, ret.
    set (nb := mk_node (rawKey n) d parent None).
    exists this. eexists. exists [(this, nb, v)].
    split; [reflexivity|].
    split; [|split; [|split; [|split; [|split]]]].
    + destruct Hfresh2 as [Hfrn2 Hfrv2]. unfold h2 in *. split; proj; [|done].
      apply map_Forall_insert_2; [unfold this, d in *; lia|done].
    + destruct Hext2 as (He1 & He2 & He3). unfold h2 in *. repeat split; proj; [|done|done].
      intros x y Hx. rewrite lookup_insert_ne; [|intros <-; unfold this in *; congruence].
      by apply He1.
    + unfold h2. econstructor; proj; [apply lookup_insert_eq|apply lookup_insert_eq|constructor].
    + done.
    + done.
    + constructor; [|constructor].
      unfold link_node, link_data. simpl. unfold this, d. lia.
Qed.


Lemma cloned_extends h0 h h' tA tB j :
  heap_extends h h' -> cloned h0 h tA tB j -> cloned h0 h' tA tB j.
Proof.
  intros Hext (lA & lB & HA & HB & Hent & Hback & Hnew).
  exists lA, lB. split_and!; eauto using chain_extends.
Qed.

(** The loop of the copy constructor, started at slot [i] with the slots
    below [i] already cloned and the others still empty. *)
Lemma copy_slots_spec fuel other tA (count : nat) i this tB h0 h :
  _heads other = Some tA ->
  (forall j, exists l, chain h0 (tA !! j) l /\ (length l <= fuel)%nat) ->
  heap_fresh h -> heap_extends h0 h ->
  _heads this = Some tB ->
  _hashIndices this = _hashIndices other ->
  0 <= i -> i + Z.of_nat count = _hashIndices other ->
  (forall j, 0 <= j < i -> cloned h0 h tA tB j) ->
  (forall j, i <= j -> tB !! j = None) ->
  exists B h' tB',
    copy_slots fuel other count i this h = Done B h' /\
    heap_fresh h' /\ heap_extends h0 h' /\
    _heads B = Some tB' /\
    _hashIndices B = _hashIndices this /\
    _elementCount B = _elementCount this /\
    forall j, 0 <= j < _hashIndices other -> cloned h0 h' tA tB' j.
Proof.
  intros HtA Hchains. revert i this tB h.
  induction count as [|count IH]; intros i this tB h Hfresh Hext HtB Hn Hi Hcount Hdone Hrest.
  - exists this, h, tB. cbn [copy_slots]. unfold ret.
    split_and!; try done. intros j Hj. apply Hdone. lia.
  - cbn [copy_slots]. unfold bind at 1. unfold read_head. rewrite HtA.
    destruct (Z.leb_spec 0 i); [|lia].
    destruct (Z.ltb_spec i (_hashIndices other)); [|lia].
    cbn [andb]. unfold ret at 1.
    destruct (Hchains i) as (l & Hl & Hlen).
    destruct (tA !! i) as [a|] eqn:Hslot.
    + destruct (node_copy_spec fuel a None h l)
        as (b & h1 & l1 & Hcopy & Hfresh1 & Hext1 & Hc1 & Hent & Hback & Hnew);
        [done|by eapply chain_extends|done|].
      unfold bind at 1. unfold bind at 1. rewrite Hcopy.
      unfold write_head. rewrite HtB, Hn.
      destruct (Z.leb_spec 0 i); [|lia].
      destruct (Z.ltb_spec i (_hashIndices other)); [|lia].
      cbn [andb]. unfold ret at 1.
      destruct (IH (i + 1)
                  {| _hashIndices := _hashIndices other;
                     _elementCount := _elementCount this;
                     _heads := Some (set_slot tB i (Some b)) |}
                  (set_slot tB i (Some b)) h1)
        as (B & h' & tB' & Hrun & Hf' & He' & HB & HnB & HcB & Hall);
        [exact Hfresh1|by eapply heap_extends_trans|reflexivity|reflexivity|lia|lia| | |].
      * intros j Hj. destruct (decide (j = i)) as [->|Hji].
        -- exists l, l1. rewrite Hslot. unfold set_slot. rewrite lookup_insert_eq.
           split_and!; try done.
           eapply Forall_impl; [exact Hnew|]. intros x [Hx1 Hx2].
           destruct Hext as (_ & _ & Hnf). lia.
        -- eapply cloned_extends in Hdone; [|exact Hext1|].
           2:{ instantiate (1 := j). lia. }
           destruct Hdone as (lA & lB & HA & HB & Hrest').
           exists lA, lB. unfold set_slot. rewrite lookup_insert_ne by done. done.
      * intros j Hj. unfold set_slot. rewrite lookup_insert_ne by lia. apply Hrest. lia.
      * exists B, h', tB'. rewrite Hrun. cbn [_hashIndices _elementCount _heads] in HnB, HcB.
        split_and!; done.
    + inversion Hl; subst.
      unfold bind at 1. unfold ret at 1.
      destruct (IH (i + 1) this tB h)
        as (B & h' & tB' & Hrun & Hf' & He' & HB & HnB & HcB & Hall);
        [exact Hfresh|exact Hext|exact HtB|exact Hn|lia|lia| | |].
      * intros j Hj. destruct (decide (j = i)) as [->|Hji].
        -- exists [], []. rewrite Hslot, (Hrest i) by lia.
           split_and!; by constructor.
        -- apply Hdone. lia.
      * intros j Hj. apply Hrest. lia.
      * exists B, h', tB'. rewrite Hrun. split_and!; done.
Qed.


Lemma initial_hashIndices_fixed n :
  power_of_two n -> n <= 2 ^ 31 -> initial_hashIndices n = n.
Proof.
  intros (e & He & ->) Hle.
  assert (e <= 31).
  { destruct (Z_le_gt_dec e 31); [done|].
    assert (2 ^ 32 <= 2 ^ e) by (apply Z.pow_le_mono_r; lia). lia. }
  assert (0 < 2 ^ e) by (apply Z.pow_pos_nonneg; lia).
  unfold initial_hashIndices. rewrite rounded_size_spec by lia.
  destruct (decide (2 ^ e = 0 \/ 2 ^ 31 < 2 ^ e)) as [[?|?]|_]; [lia..|].
  destruct (decide (2 ^ e = 1)) as [->|Hne]; [done|].
  assert (0 < e).
  { destruct (decide (e = 0)) as [->|]; [|lia]. by destruct Hne. }
  rewrite Z.sub_1_r, Z.log2_pred_pow2 by lia.
  replace (Z.pred e + 1) with e by lia.
  destruct (Z.eqb_spec (2 ^ e) 0); [lia|done].
Qed.

Lemma clear_chain_null fuel h : clear_chain fuel None h = Done tt h.
Proof. by destruct fuel. Qed.

(** Clearing a table without chains touches nothing. *)
Lemma clear_slots_empty fuel m (count : nat) i h :
  _heads m = Some ∅ -> 0 <= i -> i + Z.of_nat count <= _hashIndices m ->
  clear_slots fuel m count i h = Done tt h.
Proof.
  intros Hheads. revert i. induction count as [|count IH]; intros i Hi Hle; [done|].
  cbn [clear_slots]. unfold bind at 1. unfold read_head. rewrite Hheads.
  destruct (Z.leb_spec 0 i); [|lia].
  destruct (Z.ltb_spec i (_hashIndices m)); [|lia].
  cbn [andb]. rewrite lookup_empty. unfold bind, ret.
  rewrite clear_chain_null. apply IH; lia.
Qed.

(** C5.  The copy constructor applied to a well-formed container [A] returns
    a container [B] with [size() == 0] and [empty() == true], whatever the
    size of [A]; [B] has the bucket count of [A] and each of its slots heads
    a clone, in newly allocated objects, of the chain in the same slot of
    [A], which is left unchanged.  Copy assignment from [A] to another
    object whose table holds no chain yields the same [B]. *)
Theorem copy_has_zero_size fuel A h :
  heap_fresh h ->
  power_of_two (bucketCount A) -> bucketCount A <= 2 ^ 31 ->
  chains_within fuel h A ->
  exists B h' tA tB,
    hash_map_copy fuel A h = Done B h' /\
    size B = 0 /\ empty B = true /\
    bucketCount B = bucketCount A /\
    _heads A = Some tA /\ _heads B = Some tB /\
    heap_extends h h' /\
    (forall j, 0 <= j < bucketCount A -> cloned h h' tA tB j) /\
    (forall this, _heads this = Some ∅ -> 0 <= bucketCount this ->
       copy_assign fuel false this A h = Done B h').
Proof.
  unfold bucketCount, size, empty.
  intros Hfresh Hpow Hle (tA & HtA & Hchains).
  pose proof (initial_hashIndices_fixed _ Hpow Hle) as Hfix.
  pose proof (power_of_two_pos _ Hpow) as Hpos.
  destruct (copy_slots_spec fuel A tA (Z.to_nat (_hashIndices A)) 0
              (hash_map_new (_hashIndices A)) ∅ h h)
    as (B & h' & tB & Hrun & Hfresh' & Hext & HB & Hn & Hc & Hall);
    [done|done|done|apply heap_extends_refl|done|exact Hfix|lia|lia| | |].
  { intros j Hj. lia. }
  { intros j _. apply lookup_empty. }
  cbn [hash_map_new _hashIndices _elementCount] in Hn, Hc. rewrite Hfix in Hn.
  assert (Hcopy : hash_map_copy fuel A h = Done B h').
  { unfold hash_map_copy. cbn [hash_map_new _hashIndices]. by rewrite Hfix. }
  exists B, h', tA, tB. split_and!; try done.
  - by rewrite Hc.
  - intros this Hthis Hnonneg. unfold copy_assign. unfold bind at 1. rewrite Hcopy.
    cbn [swap]. unfold hash_map_destroy, clear, bind.
    rewrite clear_slots_empty; [|done|done|cbn [_hashIndices]; lia].
    unfold memsetHeads. cbn [_heads]. rewrite Hthis. unfold ret.
    by destruct B.
Qed.

End Copy.

(** ** Containers built by [operator[]] alone are well formed *)

Section Invariant.
Context {T : Type} (default_value : T).

Implicit Types (h : heap T) (m : hash_map).

(** Appending node [a] after the childless node [x] lengthens by at most
    one every chain there is. *)
Lemma chain_after_append h q l x nx a na v0 nf :
  chain h q l ->
  nodes h !! x = Some nx -> childNode nx = None ->
  nodes h !! a = None -> values h !! dataPointer na = None ->
  childNode na = None ->
  exists l',
    chain {| nodes := <[x := set_childNode nx (Some a)]> (<[a := na]> (nodes h));
             values := <[dataPointer na := v0]> (values h);
             next_free := nf |} q l' /\
    (length l' <= S (length l))%nat.
Proof.
  intros Hc Hx Hxc Ha Hd Hac.
  assert (Hxa : x <> a) by (intros ->; congruence).
  induction Hc as [|y n v l Hy Hv Hrest IH].
  { exists []. split; [constructor|simpl; lia]. }
  assert (Hvd : dataPointer na <> dataPointer n) by (intros Heq; congruence).
  assert (Hya : y <> a) by (intros ->; congruence).
  destruct (decide (y = x)) as [->|Hyx].
  - assert (n = nx) as -> by congruence.
    rewrite Hxc in Hrest. inversion Hrest; subst.
    exists [(x, set_childNode nx (Some a), v); (a, na, v0)].
    split; [|simpl; lia].
    econstructor; proj.
    + apply lookup_insert_eq.
    + by rewrite lookup_insert_ne.
    + econstructor; proj.
      * rewrite lookup_insert_ne by done. apply lookup_insert_eq.
      * apply lookup_insert_eq.
      * rewrite Hac. constructor.
  - destruct IH as (l' & Hl' & Hlen).
    exists ((y, n, v) :: l'). split; [|simpl; lia].
    econstructor; proj; [|by rewrite lookup_insert_ne|done].
    rewrite lookup_insert_ne by done. by rewrite lookup_insert_ne.
Qed.

Lemma index_walk_keeps_chains fuel m k cur h p m1 h1 :
  heap_fresh h ->
  index_walk default_value fuel m k cur h = Done (p, m1) h1 ->
  heap_fresh h1 /\
  forall q l, chain h q l ->
    exists l', chain h1 q l' /\ (length l' <= S (length l))%nat.
Proof.
  revert cur h. induction fuel as [|fuel IH]; intros cur h Hfresh; [discriminate|].
  cbn [index_walk]. unfold bind at 1, load_node at 1.
  destruct (nodes h !! cur) as [n|] eqn:Hn; [|discriminate].
  destruct (rawKey n =? k).
  { intros [= _ _ <-]. split; [done|]. intros q l Hq. exists l. split; [done|lia]. }
  destruct (childNode n) as [c|] eqn:Hchild; [by apply IH|].
  destruct (heap_fresh_lookup h (next_free h)) as [Hfn _]; [done|lia|].
  destruct (heap_fresh_lookup h (Pos.succ (next_free h))) as [_ Hfv]; [done|lia|].
  assert (Hca : cur <> next_free h) by (intros ->; congruence).
  unfold bind, new_node, bind, new_address, new_value, construct_node, ret,
    store_node, construct_node, load_node. proj.
  rewrite lookup_insert_ne by done. rewrite Hn. proj.
  rewrite lookup_insert_ne by done. rewrite lookup_insert_eq.
  intros [= _ _ <-]. destruct Hfresh as [Hfrn Hfrv]. split.
  - split; proj.
    + apply map_Forall_insert_2; [apply Hfrn in Hn; lia|].
      apply map_Forall_insert_2; [lia|].
      intros x y Hx. apply Hfrn in Hx. lia.
    + apply map_Forall_insert_2; [lia|].
      intros x y Hx. apply Hfrv in Hx. lia.
  - intros q l Hq.
    by apply (chain_after_append h q l cur n (next_free h)
                (mk_node k (Pos.succ (next_free h)) (Some cur) None)).
Qed.

(** [operator[]] hands back a well-formed container, with chains at most
    one node longer. *)
Lemma operator_index_well_formed bound fuel m k h p m1 h1 :
  well_formed bound h m ->
  operator_index default_value fuel m k h = Done (p, m1) h1 ->
  well_formed (S bound) h1 m1.
Proof.
  intros (Hfresh & Hcount & t & Ht & Hchains).
  unfold operator_index. unfold bind at 1. unfold read_head. rewrite Ht.
  destruct (hashThis_spec m k Hcount) as [_ Hrange].
  destruct (Z.leb_spec 0 (hashThis m k)); [|lia].
  destruct (Z.ltb_spec (hashThis m k) (_hashIndices m)); [|lia].
  cbn [andb]. unfold ret at 1.
  destruct (t !! hashThis m k) as [cur|] eqn:Hslot.
  - intros Hw.
    pose proof (index_walk_hashIndices _ _ _ _ _ _ _ _ _ Hw) as Hn.
    assert (Hheads : _heads m1 = _heads m).
    { clear -Hw. revert cur h Hw. induction fuel as [|fuel IH]; intros cur h; [discriminate|].
      cbn [index_walk]. intros H.
      apply bind_Done in H as (n & h2 & _ & H).
      destruct (rawKey n =? k).
      - apply ret_Done in H as [[= _ <-] _]. done.
      - destruct (childNode n) as [c|]; [by eapply IH|].
        apply bind_Done in H as (a & h3 & _ & H).
        apply bind_Done in H as (? & h4 & _ & H).
        apply bind_Done in H as (c & h5 & _ & H).
        apply ret_Done in H as [[= _ <-] _]. done. }
    apply index_walk_keeps_chains in Hw as [Hfresh1 Hkeep]; [|done].
    split; [done|]. split; [by rewrite Hn|].
    exists t. split; [by rewrite Hheads|]. intros i.
    destruct (Hchains i) as (l & Hl & Hlen).
    destruct (Hkeep _ _ Hl) as (l' & Hl' & Hlen'). exists l'. split; [done|lia].
  - destruct (heap_fresh_lookup h (next_free h)) as [Hfn _]; [done|lia|].
    destruct (heap_fresh_lookup h (Pos.succ (next_free h))) as [_ Hfv]; [done|lia|].
    unfold bind, new_node, bind, new_address, new_value, construct_node, ret,
      write_head. proj. rewrite Ht.
    destruct (Z.leb_spec 0 (hashThis m k)); [|lia].
    destruct (Z.ltb_spec (hashThis m k) (_hashIndices m)); [|lia].
    cbn [andb]. unfold ret, load_node. proj. rewrite lookup_insert_eq.
    intros [= _ <- <-]. destruct Hfresh as [Hfrn Hfrv].
    split; [|split; [done|]].
    + split; proj.
      * apply map_Forall_insert_2; [lia|]. intros x y Hx. apply Hfrn in Hx. lia.
      * apply map_Forall_insert_2; [lia|]. intros x y Hx. apply Hfrv in Hx. lia.
    + eexists. split; [reflexivity|]. intros i. unfold set_slot.
      destruct (decide (i = hashThis m k)) as [->|Hne].
      * rewrite lookup_insert_eq.
        exists [(next_free h, mk_node k (Pos.succ (next_free h)) None None, default_value)].
        split; [|simpl; lia].
        econstructor; proj; [apply lookup_insert_eq|apply lookup_insert_eq|constructor].
      * rewrite lookup_insert_ne by done.
        destruct (Hchains i) as (l & Hl & Hlen). exists l. split; [|lia].
        eapply chain_extends; [|exact Hl].
        split_and!; proj; [| |lia].
        -- intros x y Hx. rewrite lookup_insert_ne; [done|]. intros <-. congruence.
        -- intros x y Hx. rewrite lookup_insert_ne; [done|]. intros <-. congruence.
Qed.

(** A newly constructed container is well formed on any heap. *)
Lemma hash_map_new_well_formed storageSize h :
  0 <= storageSize < 2 ^ 32 -> heap_fresh h ->
  well_formed 0 h (hash_map_new storageSize).
Proof.
  intros Hs Hfresh. split; [done|]. split.
  - cbn [hash_map_new _hashIndices].
    pose proof (initial_hashIndices_power_of_two _ Hs) as Hp.
    pose proof (power_of_two_pos _ Hp).
    split; [lia|]. unfold initial_hashIndices.
    destruct (Z.eqb_spec (rounded_size storageSize) 0); [lia|].
    unfold rounded_size, uint32. apply Z.mod_pos_bound. lia.
  - exists ∅. split; [done|]. intros i. exists []. rewrite lookup_empty.
    split; [constructor|simpl; lia].
Qed.

End Invariant.

(** ** Swap, move and the bucket count *)

Section Value_semantics.
Context {T : Type} (default_value : T).

Implicit Types (h : heap T) (m : hash_map).

Lemma swap_pair m1 m2 : swap m1 m2 = (m2, m1).
Proof. by destruct m1, m2. Qed.

(** C10 (amended).  [swap(A, B)] and [B = std::move(A)] exchange the two
    containers: [B] ends with the table, bucket count and element count [A]
    had, so that every key reads in [B] as it read in [A], and [A] ends with
    those [B] had; the heap is not involved, so no node is copied or
    allocated.  [A] is therefore left zeroed exactly when [B] was zeroed
    before.  Move construction gives the new container the state of [A] and
    leaves [A] with the member defaults: size 0, bucket count 0 and a null
    table.  That state can be read with [size], [empty] and [bucketCount],
    but [clear] and the destructor pass its null table to [memset], and
    [operator[]] indexes the null table. *)
Theorem swap_and_move_exchange (A B : hash_map) :
  swap A B = (B, A) /\
  move_assign B A = (A, B) /\
  hash_map_move A = (A, member_defaults) /\
  (snd (move_assign B A) = member_defaults <-> B = member_defaults) /\
  (fst (swap A B) = member_defaults <-> B = member_defaults) /\
  size member_defaults = 0 /\ empty member_defaults = true /\
  bucketCount member_defaults = 0 /\ _heads member_defaults = None /\
  (forall fuel h, clear fuel member_defaults h = Undefined) /\
  (forall fuel h, hash_map_destroy fuel member_defaults h = Undefined) /\
  (forall fuel k h, operator_index default_value fuel member_defaults k h = Undefined) /\
  (forall fuel k h,
     get default_value fuel (fst (move_assign B A)) k h = get default_value fuel A k h /\
     get default_value fuel (snd (swap A B)) k h = get default_value fuel A k h /\
     get default_value fuel (fst (hash_map_move A)) k h = get default_value fuel A k h).
Proof.
  unfold move_assign, hash_map_move. rewrite !swap_pair.
  split_and!; done.
Qed.

(** C9 (amended).  The capacity constructor, the copy constructor and copy
    assignment leave a bucket count that is at least 1 and a power of two;
    [operator[]], [erase] and [clear] return with the bucket count they
    found; [swap] and move assignment exchange the bucket counts of the two
    containers; the move constructor gives the new container the source's
    bucket count and leaves the source with a bucket count of 0. *)
Theorem bucket_count_through_operations
    (storageSize : Z) (fuel : nat) (m other : hash_map) (k : Z) (h : heap T) :
  0 <= storageSize < 2 ^ 32 ->
  0 <= bucketCount other < 2 ^ 32 ->
  valid_bucket_count (hash_map_new storageSize) /\
  (forall B h', hash_map_copy fuel other h = Done B h' -> valid_bucket_count B) /\
  (forall B h', copy_assign fuel false m other h = Done B h' -> valid_bucket_count B) /\
  (forall p m' h', operator_index default_value fuel m k h = Done (p, m') h' ->
     bucketCount m' = bucketCount m) /\
  (forall m' h', erase fuel m k h = Done m' h' -> bucketCount m' = bucketCount m) /\
  (forall m' h', clear fuel m h = Done m' h' -> bucketCount m' = bucketCount m) /\
  bucketCount (fst (swap m other)) = bucketCount other /\
  bucketCount (snd (swap m other)) = bucketCount m /\
  bucketCount (fst (move_assign m other)) = bucketCount other /\
  bucketCount (snd (move_assign m other)) = bucketCount m /\
  bucketCount (fst (hash_map_move other)) = bucketCount other /\
  bucketCount (snd (hash_map_move other)) = 0.
Proof.
  intros Hs Ho.
  assert (Hvalid : forall r B, 0 <= r < 2 ^ 32 ->
            _hashIndices B = initial_hashIndices r -> valid_bucket_count B).
  { intros r B Hr HB. pose proof (initial_hashIndices_power_of_two r Hr) as Hp.
    unfold valid_bucket_count, bucketCount. rewrite HB.
    split; [by apply power_of_two_pos|done]. }
  split_and!; try done.
  - by apply (Hvalid storageSize).
  - intros B h' Hc. apply hash_map_copy_members in Hc as [Hc _]. by eapply Hvalid.
  - intros B h' Hc. apply copy_assign_members in Hc as [Hc _]. by eapply Hvalid.
  - intros p m' h' Hc. by eapply operator_index_hashIndices.
  - intros m' h' Hc. by apply erase_members in Hc as [Hc _].
  - intros m' h' Hc. by apply clear_members in Hc as [Hc _].
Qed.

End Value_semantics.

Lemma bucket_count_through_operations_witness :
  valid_bucket_count (hash_map_new 300) /\
  bucketCount (snd (hash_map_move (hash_map_new 8))) = 0.
Proof.
  destruct (bucket_count_through_operations 0 300 8 (hash_map_new 256)
              (hash_map_new 8) 1 empty_heap) as (H1 & H); [lia|vm_compute; split; congruence|].
  split; [exact H1|]. apply H.
Defined.

(** C9 fails as stated: the source of a move construction is left with a
    bucket count of 0. *)
Lemma moved_from_bucket_count_zero :
  ~ (1 <= bucketCount (snd (hash_map_move (hash_map_new 256)))
     /\ power_of_two (bucketCount (snd (hash_map_move (hash_map_new 256))))).
Proof. intros [H _]. vm_compute in H. by apply H. Qed.

(** C10 fails as stated: after [B = std::move(A)] with a [B] that held one
    entry, [A] holds that entry and is not emptied. *)
Lemma move_assign_source_not_emptied :
  exists B h,
    put_all 8 (hash_map_new 256) [(7, 70)] empty_heap = Done B h /\
    size (snd (move_assign B (hash_map_new 8))) = 1 /\
    empty (snd (move_assign B (hash_map_new 8))) = false /\
    bucketCount (snd (move_assign B (hash_map_new 8))) = 256 /\
    snd (move_assign B (hash_map_new 8)) <> member_defaults.
Proof.
  eexists. eexists. split; [vm_compute; reflexivity|].
  split_and!; try reflexivity. discriminate.
Qed.

(** ** Erase and clear *)

Section Erase.
Context {T : Type}.

Implicit Types (h : heap T) (m : hash_map).

(** The splice writes one [childNode] or one slot of the table: every
    node keeps the [parentNode] it had. *)
Lemma unlink_keeps_parentNode m i n h m' h' :
  unlink m i n h = Done m' h' ->
  forall a, parentNode <$> nodes h' !! a = parentNode <$> nodes h !! a.
Proof.
  unfold unlink. destruct (parentNode n) as [p|].
  - unfold bind, load_node, store_node, construct_node, ret.
    destruct (nodes h !! p) as [pn|] eqn:Hp; [|discriminate].
    proj. rewrite Hp. intros [= _ <-] a. proj.
    destruct (decide (a = p)) as [->|Hne].
    + by rewrite lookup_insert_eq, Hp.
    + by rewrite lookup_insert_ne.
  - intros H a. by apply write_head_Done in H as (-> & _).
Qed.

End Erase.

(** C1.  A container with the single key 1: [erase(1)] unlinks the node,
    the bucket is empty afterwards, and [size()] is still 1; a following
    [operator[]] for key 1 returns a default value and [size()] becomes 2. *)
Theorem erase_leaves_size :
  exists m h m' h' p m'' h'',
    put_all 8 (hash_map_new 256) [(1, 42)] empty_heap = Done m h /\
    size m = 1 /\
    erase 8 m 1 h = Done m' h' /\
    bucketDensity 8 m' 1 h' = Done 0 h' /\
    nodes h' = ∅ /\
    size m' = 1 /\
    operator_index 0 8 m' 1 h' = Done (p, m'') h'' /\
    values h'' !! p = Some 0 /\
    size m'' = 2.
Proof.
  do 7 eexists.
  split; [vm_compute; reflexivity|].
  split; [reflexivity|].
  split; [vm_compute; reflexivity|].
  split; [vm_compute; reflexivity|].
  split; [reflexivity|].
  split; [reflexivity|].
  split; [vm_compute; reflexivity|].
  split; reflexivity.
Qed.

(** C2.  Keys 1 and 257 share bucket 1 of a 256-bucket table.  [erase(1)]
    deletes the node of key 1 and, through the node destructor, the node of
    key 257 and its value as well: no node and no value is left on the heap,
    while slot 1 of the table still points at the freed node.
    [bucketDensity(257)] and [operator[]] for 257 then read freed memory. *)
Theorem erase_frees_rest_of_chain :
  exists m h m' h' t,
    put_all 8 (hash_map_new 256) [(1, 10); (257, 20)] empty_heap = Done m h /\
    bucketDensity 8 m 1 h = Done 2 h /\
    size m = 2 /\
    erase 8 m 1 h = Done m' h' /\
    nodes h' = ∅ /\ values h' = ∅ /\
    _heads m' = Some t /\ t !! 1 = Some 3%positive /\
    bucketDensity 8 m' 257 h' = Undefined /\
    operator_index 0 8 m' 257 h' = Undefined /\
    get 0 8 m' 257 h' = Undefined.
Proof.
  do 5 eexists.
  split; [vm_compute; reflexivity|].
  split; [vm_compute; reflexivity|].
  split; [reflexivity|].
  split; [vm_compute; reflexivity|].
  split; [reflexivity|].
  split; [reflexivity|].
  split; [reflexivity|].
  split; [reflexivity|].
  split; [vm_compute; reflexivity|].
  split; vm_compute; reflexivity.
Qed.

(** C3.  After [clear()] on a container with the single key 1 the bucket is
    empty but [size()] is still 1 and [empty()] is false.  On a bucket
    with two nodes [clear()] deletes the second node twice. *)
Theorem clear_leaves_size :
  exists m h m' h' m2 h2,
    put_all 8 (hash_map_new 256) [(1, 10)] empty_heap = Done m h /\
    clear 8 m h = Done m' h' /\
    bucketDensity 8 m' 1 h' = Done 0 h' /\
    size m' = 1 /\ empty m' = false /\
    put_all 8 (hash_map_new 256) [(1, 10); (257, 20)] empty_heap = Done m2 h2 /\
    clear 8 m2 h2 = Undefined.
Proof.
  do 6 eexists.
  split; [vm_compute; reflexivity|].
  split; [vm_compute; reflexivity|].
  split; [vm_compute; reflexivity|].
  split; [reflexivity|].
  split; [reflexivity|].
  split; vm_compute; reflexivity.
Qed.

(** C4.  Keys 1, 257 and 513 form the chain of bucket 1, in nodes 1, 3 and
    5.  The splice of [erase(257)] makes node 1 point at node 5, but node 5
    keeps node 3, the node being removed, as its [parentNode]; the delete
    that follows then frees node 5 too.  The splice of [erase(1)] makes node
    3 the head of the bucket while node 3 keeps node 1 as its
    [parentNode]. *)
Theorem erase_keeps_back_reference :
  exists m h n1 n3 h1 t1 m' h',
    put_all 8 (hash_map_new 256) [(1, 10); (257, 20); (513, 30)] empty_heap
      = Done m h /\
    nodes h !! 1%positive = Some n1 /\ rawKey n1 = 1 /\
    nodes h !! 3%positive = Some n3 /\ rawKey n3 = 257 /\
    parentNode n3 = Some 1%positive /\ childNode n3 = Some 5%positive /\
    unlink m 1 n3 h = Done m h1 /\
    childNode <$> nodes h1 !! 1%positive = Some (Some 5%positive) /\
    parentNode <$> nodes h1 !! 5%positive = Some (Some 3%positive) /\
    unlink m 1 n1 h = Done {| _hashIndices := 256; _elementCount := 3;
                               _heads := Some t1 |} h /\
    t1 !! 1 = Some 3%positive /\
    parentNode <$> nodes h !! 3%positive = Some (Some 1%positive) /\
    erase 8 m 257 h = Done m' h' /\
    childNode <$> nodes h' !! 1%positive = Some (Some 5%positive) /\
    nodes h' !! 5%positive = None.
Proof.
  do 8 eexists.
  split; [vm_compute; reflexivity|].
  split; [vm_compute; reflexivity|].
  split; [reflexivity|].
  split; [vm_compute; reflexivity|].
  split; [reflexivity|].
  split; [reflexivity|].
  split; [reflexivity|].
  split; [vm_compute; reflexivity|].
  split; [vm_compute; reflexivity|].
  split; [vm_compute; reflexivity|].
  split; [vm_compute; reflexivity|].
  split; [vm_compute; reflexivity|].
  split; [vm_compute; reflexivity|].
  split; [vm_compute; reflexivity|].
  split; vm_compute; reflexivity.
Qed.

(** C7.  Keys 1 and 257 share bucket 1 of a 256-bucket table.  The first
    [operator[]] for 257 creates its entry, adds 1 to [size()] and returns
    the address of its value; a second call right after it returns the same
    address and changes nothing.  After [erase(1)], an erase of another
    key, the entry of 257 is gone although 257 was never erased: the node
    destructor has freed its node and the value at the returned address,
    slot 1 of the table points at the freed node, and the next
    [operator[]] for 257 reads it. *)
Theorem get_or_insert_after_erase_of_other_key :
  exists m h p m1 h1 h2 m3 h3 t,
    put_all 8 (hash_map_new 256) [(1, 10)] empty_heap = Done m h /\
    operator_index 0 8 m 257 h = Done (p, m1) h1 /\
    size m1 = size m + 1 /\
    operator_index 0 8 m1 257 h1 = Done (p, m1) h1 /\
    store_value p 20 h1 = Done tt h2 /\
    get 0 8 m1 257 h2 = Done (20, m1) h2 /\
    erase 8 m1 1 h2 = Done m3 h3 /\
    values h3 !! p = None /\
    nodes h3 = ∅ /\
    _heads m3 = Some t /\ t !! 1 = Some 3%positive /\
    size m3 = size m1 /\
    operator_index 0 8 m3 257 h3 = Undefined /\
    get 0 8 m3 257 h3 = Undefined.
Proof.
  do 9 eexists.
  split; [vm_compute; reflexivity|].
  split; [vm_compute; reflexivity|].
  split; [reflexivity|].
  split; [vm_compute; reflexivity|].
  split; [vm_compute; reflexivity|].
  split; [vm_compute; reflexivity|].
  split; [vm_compute; reflexivity|].
  split; [reflexivity|].
  split; [reflexivity|].
  split; [reflexivity|].
  split; [reflexivity|].
  split; [reflexivity|].
  split; vm_compute; reflexivity.
Qed.

(** ** The two theorems above at a container holding one key *)

Lemma one_key_reached :
  put_all 8 (hash_map_new 256) [(1, 10)] empty_heap = Done one_key_map one_key_heap.
Proof. vm_compute. reflexivity. Qed.

Lemma one_key_heap_fresh : heap_fresh one_key_heap.
Proof.
  split; unfold one_key_heap; cbn [nodes values next_free];
    apply map_Forall_singleton; lia.
Defined.

Lemma one_key_chains : chains_within 8 one_key_heap one_key_map.
Proof.
  exists {[ 1 := 1%positive ]}. split; [reflexivity|]. intros i.
  destruct (decide (i = 1)) as [->|Hne].
  - exists [(1%positive, mk_node 1 2%positive None None, 10)].
    split; [|simpl; lia]. rewrite lookup_singleton_eq.
    econstructor; [reflexivity|reflexivity|constructor].
  - exists []. split; [|simpl; lia]. rewrite lookup_singleton_ne by done. constructor.
Defined.

Lemma get_or_insert_twice_witness :
  exists p m1 h1,
    operator_index 0 8 one_key_map 257 one_key_heap = Done (p, m1) h1 /\
    operator_index 0 8 m1 257 h1 = Done (p, m1) h1 /\
    size m1 = 2.
Proof.
  destruct (get_or_insert_twice 0 8 one_key_map 257 one_key_heap
              {[ 1 := 1%positive ]}
              [(1%positive, mk_node 1 2%positive None None, 10)])
    as (p & m1 & h1 & H1 & H2 & _ & Hnew & _).
  - exact one_key_heap_fresh.
  - reflexivity.
  - vm_compute. split; reflexivity.
  - econstructor; [reflexivity|reflexivity|constructor].
  - simpl. lia.
  - exists p, m1, h1. split; [exact H1|]. split; [exact H2|].
    destruct Hnew as (_ & Hsize & _).
    + intros Hin. apply list_elem_of_singleton in Hin. discriminate.
    + apply Hsize. vm_compute. split; congruence.
Defined.

Lemma copy_has_zero_size_witness :
  exists B h',
    hash_map_copy 8 one_key_map one_key_heap = Done B h' /\
    size one_key_map = 1 /\ size B = 0 /\ empty B = true.
Proof.
  destruct (copy_has_zero_size 8 one_key_map one_key_heap)
    as (B & h' & tA & tB & Hcopy & Hsize & Hempty & _).
  - exact one_key_heap_fresh.
  - exists 8. split; [lia|reflexivity].
  - vm_compute. congruence.
  - exact one_key_chains.
  - exists B, h'. split; [exact Hcopy|]. split; [reflexivity|]. split; assumption.
Defined.

(** ** [operator[]] on a represented container *)

Section Refinement.
Context {T : Type} (default_value : T).

Implicit Types (h : heap T) (m : hash_map) (g l : list (Z * ptr * ptr)).

Lemma linked_node_live h parent q l e :
  linked h parent q l -> e ∈ l ->
  exists n, nodes h !! entry_node e = Some n /\
            rawKey n = entry_key e /\ dataPointer n = entry_data e.
Proof.
  induction 1 as [|parent a n l Hn Hp Hrest IH]; intros He.
  - by apply elem_of_nil in He.
  - apply elem_of_cons in He as [->|He]; [|by apply IH]. eauto.
Qed.

(** A chain is a chain in any heap that has its nodes unchanged. *)
Lemma linked_frame h h' parent q l :
  linked h parent q l ->
  (forall e n, e ∈ l -> nodes h !! entry_node e = Some n ->
               nodes h' !! entry_node e = Some n) ->
  linked h' parent q l.
Proof.
  induction 1 as [|parent a n l Hn Hp Hrest IH]; intros Hsame; constructor.
  - apply (Hsame (rawKey n, a, dataPointer n)); [left|done].
  - done.
  - apply IH. intros e n' He. apply Hsame. by right.
Qed.

(** Appending behind the childless node [x] extends the chain that ends in
    [x] and leaves the others. *)
Lemma linked_appended h parent q l x nx k v :
  linked h parent q l ->
  nodes h !! x = Some nx -> childNode nx = None ->
  nodes h !! next_free h = None ->
  linked (appended h x nx k v) parent q
    (if decide (x ∈ entry_node <$> l)
     then l ++ [(k, next_free h, Pos.succ (next_free h))] else l).
Proof.
  intros Hl Hx Hxc Hnf.
  assert (Hxa : x <> next_free h) by (intros ->; congruence).
  induction Hl as [|parent a n l Hn Hp Hrest IH].
  { rewrite decide_False by (rewrite fmap_nil; apply not_elem_of_nil). constructor. }
  assert (Hna : a <> next_free h) by (intros ->; congruence).
  destruct (decide (a = x)) as [->|Hax].
  - assert (n = nx) as -> by congruence.
    rewrite Hxc in Hrest. inversion Hrest; subst.
    rewrite decide_True by (rewrite fmap_cons; left).
    change (linked (appended h x nx k v) (parentNode nx) (Some x)
              ((rawKey (set_childNode nx (Some (next_free h))), x,
                dataPointer (set_childNode nx (Some (next_free h))))
               :: [(k, next_free h, Pos.succ (next_free h))])).
    constructor.
    + unfold appended. proj. apply lookup_insert_eq.
    + done.
    + change (linked (appended h x nx k v) (Some x) (Some (next_free h))
                [(rawKey (mk_node k (Pos.succ (next_free h)) (Some x) None),
                  next_free h,
                  dataPointer (mk_node k (Pos.succ (next_free h)) (Some x) None))]).
      constructor; [|done|constructor].
      unfold appended. proj. rewrite lookup_insert_ne by done. apply lookup_insert_eq.
  - assert (Hiff : x ∈ entry_node <$> (rawKey n, a, dataPointer n) :: l
                   <-> x ∈ entry_node <$> l).
    { rewrite fmap_cons, elem_of_cons. unfold entry_node at 1. simpl.
      split; [intros [?|?]; [congruence|done]|by right]. }
    destruct (decide (x ∈ entry_node <$> l)) as [Hin|Hnin].
    + rewrite decide_True by (by apply Hiff).
      rewrite <- app_comm_cons. constructor; [|done|done].
      unfold appended. proj. rewrite lookup_insert_ne by done.
      by rewrite lookup_insert_ne.
    + rewrite decide_False by (by rewrite Hiff).
      constructor; [|done|done].
      unfold appended. proj. rewrite lookup_insert_ne by done.
      by rewrite lookup_insert_ne.
Qed.

(** The walk of [operator[]] along a chain: it returns the value address
    of the entry with the key, or appends behind the last node. *)
Lemma index_walk_linked fuel m k cur h parent l :
  linked h parent (Some cur) l -> (length l <= fuel)%nat ->
  nodes h !! next_free h = None ->
  (k ∈ entry_key <$> l ->
     exists a d, (k, a, d) ∈ l /\
       index_walk default_value fuel m k cur h = Done (d, m) h) /\
  (k ∉ entry_key <$> l ->
     exists x nx, x ∈ entry_node <$> l /\
       nodes h !! x = Some nx /\ childNode nx = None /\
       index_walk default_value fuel m k cur h
       = Done (Pos.succ (next_free h), count_up m) (appended h x nx k default_value)).
Proof.
  intros Hl Hlen Hnf. revert fuel Hlen.
  remember (Some cur) as q eqn:Hq. revert cur Hq.
  induction Hl as [|parent a n l Hn Hp Hrest IH]; intros cur Hq fuel Hlen; [discriminate|].
  injection Hq as <-.
  destruct fuel as [|fuel]; [simpl in Hlen; lia|].
  assert (Hstep : index_walk default_value (S fuel) m k a h =
            if rawKey n =? k then Done (dataPointer n, m) h
            else match childNode n with
                 | Some c => index_walk default_value fuel m k c h
                 | None =>
                     bind (new_node default_value k (Some a))
                       (fun a0 => bind (store_node a (set_childNode n (Some a0)))
                          (fun _ => bind (load_node a0)
                             (fun c => ret (dataPointer c, count_up m)))) h
                 end).
  { cbn [index_walk]. unfold bind at 1, load_node at 1. rewrite Hn.
    destruct (rawKey n =? k); [done|]. by destruct (childNode n). }
  rewrite Hstep. clear Hstep.
  rewrite fmap_cons. unfold entry_key at 1 3. simpl fst.
  destruct (Z.eqb_spec (rawKey n) k) as [<-|Hne].
  - split.
    + intros _. exists a, (dataPointer n). split; [left|done].
    + intros Hnin. destruct Hnin. by left.
  - destruct (childNode n) as [c|] eqn:Hchild.
    + destruct (IH c eq_refl fuel) as [Hfound Habsent]; [simpl in Hlen; lia|].
      split.
      * intros Hin. apply elem_of_cons in Hin as [?|Hin]; [congruence|].
        destruct (Hfound Hin) as (a' & d & Hin' & Hw).
        exists a', d. split; [by right|done].
      * intros Hnin. apply not_elem_of_cons in Hnin as [_ Hnin].
        destruct (Habsent Hnin) as (x & nx & Hx & Hnx & Hxc & Hw).
        exists x, nx. split_and!; try done. rewrite fmap_cons. by right.
    + inversion Hrest; subst. split.
      * intros Hin. apply elem_of_cons in Hin as [?|Hin]; [congruence|].
        by apply elem_of_nil in Hin.
      * intros _. exists a, n. split; [rewrite fmap_cons; left|]. 
        split; [done|]. split; [done|].
        assert (Hca : a <> next_free h) by (intros ->; congruence).
        unfold bind, new_node, bind, new_address, new_value, construct_node, ret,
          store_node, construct_node, load_node. proj.
        rewrite lookup_insert_ne by done. rewrite Hn. proj.
        rewrite lookup_insert_ne by done. rewrite lookup_insert_eq. proj.
        reflexivity.
Qed.


Lemma bucket_app m g e i :
  bucket m (g ++ [e]) i =
  bucket m g i ++ (if decide (hashThis m (entry_key e) = i) then [e] else []).
Proof.
  unfold bucket. rewrite filter_app. f_equal.
Qed.

Lemma elem_of_bucket m g i e :
  e ∈ bucket m g i <-> hashThis m (entry_key e) = i /\ e ∈ g.
Proof. unfold bucket. by rewrite list_elem_of_filter. Qed.

Lemma key_in_bucket m g k :
  k ∈ entry_key <$> g <-> k ∈ entry_key <$> bucket m g (hashThis m k).
Proof.
  rewrite !list_elem_of_fmap. split.
  - intros (e & -> & He). exists e. split; [done|]. by apply elem_of_bucket.
  - intros (e & -> & He). exists e. split; [done|]. by apply elem_of_bucket in He as [_ ?].
Qed.

(** A node belongs to the chain of one slot only. *)
Lemma bucket_node_slot m g h (t : gmap Z positive) i j x :
  (forall i, linked h None (t !! i) (bucket m g i)) ->
  x ∈ entry_node <$> bucket m g i -> x ∈ entry_node <$> bucket m g j -> i = j.
Proof.
  intros Hl Hi Hj.
  apply list_elem_of_fmap in Hi as (e & -> & He).
  apply list_elem_of_fmap in Hj as (e' & Hx & He').
  destruct (linked_node_live _ _ _ _ _ (Hl i) He) as (n & Hn & Hk & _).
  destruct (linked_node_live _ _ _ _ _ (Hl j) He') as (n' & Hn' & Hk' & _).
  rewrite <- Hx, Hn in Hn'. injection Hn' as <-.
  apply elem_of_bucket in He as [<- _]. apply elem_of_bucket in He' as [<- _].
  congruence.
Qed.

Lemma linked_None_nil h parent l : linked h parent None l -> l = [].
Proof. by inversion 1. Qed.

(** [operator[]] on a represented container.  For a key it holds, the
    call returns the address of the key's value and changes nothing; for a
    new key it adds one entry, with a default value in a new object, leaves
    every other value alone and counts the element. *)
Lemma operator_index_represents fuel m k h g :
  represents g h m ->
  (length (bucket m g (hashThis m k)) <= fuel)%nat ->
  (k ∈ entry_key <$> g ->
     exists a d, (k, a, d) ∈ g /\
       operator_index default_value fuel m k h = Done (d, m) h) /\
  (k ∉ entry_key <$> g ->
     exists m1 h1,
       operator_index default_value fuel m k h
       = Done (Pos.succ (next_free h), m1) h1 /\
       represents (g ++ [(k, next_free h, Pos.succ (next_free h))]) h1 m1 /\
       _hashIndices m1 = _hashIndices m /\
       _elementCount m1 = uint32 (_elementCount m + 1) /\
       values h1 = <[Pos.succ (next_free h) := default_value]> (values h)).
Proof.
  intros (Hfresh & Hcount & Hkeys & Hdatas & Hlive & t & Ht & Hlinked) Hfuel.
  destruct (hashThis_spec m k Hcount) as [_ Hrange].
  destruct (heap_fresh_lookup h (next_free h)) as [Hfn _]; [done|lia|].
  destruct (heap_fresh_lookup h (Pos.succ (next_free h))) as [_ Hfv]; [done|lia|].
  assert (Hstart : operator_index default_value fuel m k h =
            match t !! hashThis m k with
            | Some cur => index_walk default_value fuel m k cur h
            | None =>
                bind (new_node default_value k None)
                  (fun a => bind (write_head m (hashThis m k) (Some a))
                     (fun m' => bind (load_node a)
                        (fun n => ret (dataPointer n, count_up m')))) h
            end).
  { unfold operator_index. unfold bind at 1. unfold read_head. rewrite Ht.
    destruct (Z.leb_spec 0 (hashThis m k)); [|lia].
    destruct (Z.ltb_spec (hashThis m k) (_hashIndices m)); [|lia].
    cbn [andb]. unfold ret at 1. by destruct (t !! hashThis m k). }
  rewrite Hstart. clear Hstart.
  pose proof (Hlinked (hashThis m k)) as Hslot.
  assert (Hnewdata : Pos.succ (next_free h) ∉ entry_data <$> g).
  { intros Hin. apply list_elem_of_fmap in Hin as (e & He & Hin).
    apply Hlive in Hin as [v Hv]. rewrite <- He in Hv. congruence. }
  assert (Hnodup : k ∉ entry_key <$> g ->
            NoDup (entry_key <$> g ++ [(k, next_free h, Pos.succ (next_free h))]) /\
            NoDup (entry_data <$> g ++ [(k, next_free h, Pos.succ (next_free h))])).
  { intros Hnin. rewrite !fmap_app. split; apply NoDup_app.
    - split; [done|]. split; [|apply NoDup_singleton].
      intros x Hx Hx'. apply list_elem_of_singleton in Hx'. by subst.
    - split; [done|]. split; [|apply NoDup_singleton].
      intros x Hx Hx'. apply list_elem_of_singleton in Hx'. by subst. }
  destruct Hfresh as [Hfrn Hfrv].
  destruct (t !! hashThis m k) as [cur|] eqn:Hcur.
  - destruct (index_walk_linked fuel m k cur h None _ Hslot Hfuel Hfn)
      as [Hfound Habsent].
    split.
    + intros Hin. apply (key_in_bucket m) in Hin.
      destruct (Hfound Hin) as (a & d & Hin' & Hw).
      exists a, d. split; [|done]. by apply elem_of_bucket in Hin' as [_ ?].
    + intros Hnin.
      destruct Habsent as (x & nx & Hx & Hnx & Hxc & Hw).
      { by rewrite <- (key_in_bucket m). }
      exists (count_up m), (appended h x nx k default_value).
      split; [done|]. split; [|done].
      destruct (Hnodup Hnin) as [Hk' Hd'].
      split; [|split; [done|split; [done|split; [done|split]]]].
      * split; unfold appended; proj.
        -- apply map_Forall_insert_2; [apply Hfrn in Hnx; lia|].
           apply map_Forall_insert_2; [lia|].
           intros y z Hy. apply Hfrn in Hy. lia.
        -- apply map_Forall_insert_2; [lia|].
           intros y z Hy. apply Hfrv in Hy. lia.
      * intros e He. unfold appended. proj.
        apply elem_of_app in He as [He|He].
        -- rewrite lookup_insert_ne; [by apply Hlive|].
           intros Heq. apply Hnewdata. rewrite Heq. by apply list_elem_of_fmap_2.
        -- apply list_elem_of_singleton in He as ->. unfold entry_data. simpl.
           rewrite lookup_insert_eq. eauto.
      * exists t. split; [done|]. intros i.
        change (bucket (count_up m)) with (bucket m). rewrite bucket_app.
        pose proof (linked_appended h None (t !! i) (bucket m g i) x nx k
                      default_value (Hlinked i) Hnx Hxc Hfn) as Happ.
        unfold entry_key at 1. simpl fst.
        destruct (decide (hashThis m k = i)) as [<-|Hne].
        -- by rewrite decide_True in Happ.
        -- rewrite decide_False in Happ; [by rewrite app_nil_r|].
           intros Hxi. destruct Hne.
           by eapply bucket_node_slot.
  - apply linked_None_nil in Hslot.
    split.
    + intros Hin. apply (key_in_bucket m) in Hin. rewrite Hslot in Hin.
      by apply elem_of_nil in Hin.
    + intros Hnin. destruct (Hnodup Hnin) as [Hk' Hd'].
      eexists. eexists. split.
      { unfold bind, new_node, bind, new_address, new_value, construct_node, ret,
          write_head. proj. rewrite Ht.
        destruct (Z.leb_spec 0 (hashThis m k)); [|lia].
        destruct (Z.ltb_spec (hashThis m k) (_hashIndices m)); [|lia].
        cbn [andb]. unfold ret, load_node. proj. rewrite lookup_insert_eq. proj.
        reflexivity. }
      split; [|done].
      split; [|split; [done|split; [done|split; [done|split]]]].
      * split; proj.
        -- apply map_Forall_insert_2; [lia|]. intros y z Hy. apply Hfrn in Hy. lia.
        -- apply map_Forall_insert_2; [lia|]. intros y z Hy. apply Hfrv in Hy. lia.
      * intros e He. proj.
        apply elem_of_app in He as [He|He].
        -- rewrite lookup_insert_ne; [by apply Hlive|].
           intros Heq. apply Hnewdata. rewrite Heq. by apply list_elem_of_fmap_2.
        -- apply list_elem_of_singleton in He as ->. unfold entry_data. simpl.
           rewrite lookup_insert_eq. eauto.
      * eexists. split; [reflexivity|]. intros i.
        match goal with |- linked _ _ _ (bucket ?m' _ _) =>
          change (bucket m') with (bucket m) end.
        rewrite bucket_app. unfold entry_key at 1. simpl fst. unfold set_slot.
        destruct (decide (hashThis m k = i)) as [<-|Hne].
        -- rewrite lookup_insert_eq, Hslot. simpl.
           change (linked
             {| nodes := <[next_free h := mk_node k (Pos.succ (next_free h)) None None]> (nodes h);
                values := <[Pos.succ (next_free h) := default_value]> (values h);
                next_free := Pos.succ (Pos.succ (next_free h)) |}
             None (Some (next_free h))
             [(rawKey (mk_node k (Pos.succ (next_free h)) None None), next_free h,
               dataPointer (mk_node k (Pos.succ (next_free h)) None None))]).
           constructor; [proj; apply lookup_insert_eq|done|constructor].
        -- rewrite lookup_insert_ne by done. rewrite app_nil_r.
           eapply linked_frame; [apply Hlinked|].
           intros e n _ Hn. proj. rewrite lookup_insert_ne; [done|].
           intros Heq. congruence.
Qed.

End Refinement.

(** ** Assignments and reads through [operator[]] *)

Section Finite_map.
Context {T : Type} (default_value : T).

Implicit Types (h : heap T) (m : hash_map) (g l : list (Z * ptr * ptr)).

Lemma entry_unique g e e' :
  NoDup (entry_key <$> g) -> e ∈ g -> e' ∈ g -> entry_key e = entry_key e' -> e = e'.
Proof.
  induction g as [|x g IH]; intros Hnd He He' Hk; [by apply elem_of_nil in He|].
  rewrite fmap_cons in Hnd. apply NoDup_cons in Hnd as [Hx Hnd].
  apply elem_of_cons in He as [->|He]; apply elem_of_cons in He' as [->|He'].
  - done.
  - destruct Hx. rewrite Hk. by apply list_elem_of_fmap_2.
  - destruct Hx. rewrite <- Hk. by apply list_elem_of_fmap_2.
  - by apply IH.
Qed.

Lemma data_unique g e e' :
  NoDup (entry_data <$> g) -> e ∈ g -> e' ∈ g -> entry_data e = entry_data e' -> e = e'.
Proof.
  induction g as [|x g IH]; intros Hnd He He' Hk; [by apply elem_of_nil in He|].
  rewrite fmap_cons in Hnd. apply NoDup_cons in Hnd as [Hx Hnd].
  apply elem_of_cons in He as [->|He]; apply elem_of_cons in He' as [->|He'].
  - done.
  - destruct Hx. rewrite Hk. by apply list_elem_of_fmap_2.
  - destruct Hx. rewrite <- Hk. by apply list_elem_of_fmap_2.
  - by apply IH.
Qed.

Lemma bucket_length m g i : (length (bucket m g i) <= length g)%nat.
Proof. unfold bucket. apply length_filter. Qed.

(** A key maps to one value. *)
Lemma holds_functional g h m k v v' :
  represents g h m -> holds g h k v -> holds g h k v' -> v = v'.
Proof.
  intros (_ & _ & Hkeys & _) (a & d & He & Hv) (a' & d' & He' & Hv').
  assert ((k, a, d) = (k, a', d')) as [= -> ->] by (by eapply entry_unique).
  congruence.
Qed.

(** Reading a key the container holds. *)
Lemma get_represents fuel m k v h g :
  represents g h m -> holds g h k v ->
  (length (bucket m g (hashThis m k)) <= fuel)%nat ->
  get default_value fuel m k h = Done (v, m) h.
Proof.
  intros Hrep (a & d & He & Hv) Hfuel.
  destruct (operator_index_represents default_value fuel m k h g Hrep Hfuel)
    as [Hfound _].
  destruct Hfound as (a' & d' & He' & Hop).
  { apply list_elem_of_fmap. by exists (k, a, d). }
  destruct Hrep as (_ & _ & Hkeys & _).
  assert ((k, a, d) = (k, a', d')) as [= <- <-] by (by eapply entry_unique).
  unfold get, bind. rewrite Hop. cbn [fst snd]. unfold load_value. by rewrite Hv.
Qed.

(** Writing through the reference of an entry changes that value only. *)
Lemma store_value_represents g h m e v :
  represents g h m -> e ∈ g ->
  store_value (entry_data e) v h
  = Done tt {| nodes := nodes h; values := <[entry_data e := v]> (values h);
               next_free := next_free h |} /\
  represents g {| nodes := nodes h; values := <[entry_data e := v]> (values h);
                  next_free := next_free h |} m.
Proof.
  intros ([Hfrn Hfrv] & Hcount & Hkeys & Hdatas & Hlive & t & Ht & Hlinked) He.
  destruct (Hlive e He) as [v0 Hv0]. split.
  { unfold store_value. by rewrite Hv0. }
  split; [|split; [done|split; [done|split; [done|split]]]].
  - split; proj; [done|].
    apply map_Forall_insert_2; [by apply Hfrv in Hv0|done].
  - intros e' He'. proj. destruct (decide (entry_data e = entry_data e')) as [->|Hne].
    + rewrite lookup_insert_eq. eauto.
    + rewrite lookup_insert_ne by done. by apply Hlive.
  - exists t. split; [done|]. intros i.
    eapply linked_frame; [apply Hlinked|]. by intros.
Qed.

(** [map[k] = v] on a represented container: the key maps to [v]
    afterwards, every other key maps to what it mapped to, and the entry
    list grows by one exactly when the key is new. *)
Lemma put_represents fuel m k v h g :
  represents g h m ->
  (length (bucket m g (hashThis m k)) <= fuel)%nat ->
  exists m1 h1 g1,
    put default_value fuel m k v h = Done m1 h1 /\
    represents g1 h1 m1 /\
    holds g1 h1 k v /\
    (forall k' v', k' <> k -> holds g h k' v' <-> holds g1 h1 k' v') /\
    _hashIndices m1 = _hashIndices m /\
    (k ∈ entry_key <$> g -> g1 = g /\ m1 = m) /\
    (k ∉ entry_key <$> g ->
       (exists e, entry_key e = k /\ g1 = g ++ [e]) /\
       _elementCount m1 = uint32 (_elementCount m + 1)).
Proof.
  intros Hrep Hfuel.
  destruct (operator_index_represents default_value fuel m k h g Hrep Hfuel)
    as [Hfound Habsent].
  destruct (decide (k ∈ entry_key <$> g)) as [Hin|Hnin].
  - destruct (Hfound Hin) as (a & d & He & Hop).
    destruct (store_value_represents g h m (k, a, d) v Hrep He) as [Hst Hrep'].
    unfold entry_data in Hst, Hrep'. cbn [snd] in Hst, Hrep'.
    exists m. eexists. exists g.
    split; [unfold put, bind; rewrite Hop; cbn [fst snd]; rewrite Hst; reflexivity|].
    split; [done|]. split.
    { exists a, d. split; [done|]. proj. apply lookup_insert_eq. }
    split; [|split; [done|split; [done|done]]].
    intros k' v' Hne. destruct Hrep as (_ & _ & _ & Hdatas & _).
    split; intros (a' & d' & He' & Hv'); exists a', d'; (split; [done|]);
      cbn [values] in *.
    + rewrite lookup_insert_ne; [done|]. intros Heq.
      assert ((k, a, d) = (k', a', d')) as [= -> _ _]; [|done].
      by eapply data_unique.
    + rewrite lookup_insert_ne in Hv'; [done|]. intros Heq.
      assert ((k, a, d) = (k', a', d')) as [= -> _ _]; [|done].
      by eapply data_unique.
  - destruct (Habsent Hnin) as (m1 & h1 & Hop & Hrep1 & Hn1 & Hc1 & Hvals).
    set (e := (k, next_free h, Pos.succ (next_free h))) in *.
    assert (He : e ∈ g ++ [e]) by (apply elem_of_app; right; apply list_elem_of_singleton; done).
    destruct (store_value_represents _ h1 m1 e v Hrep1 He) as [Hst Hrep'].
    unfold e, entry_data in Hst, Hrep'. cbn [snd] in Hst, Hrep'.
    exists m1. eexists. exists (g ++ [e]).
    split; [unfold put, bind; rewrite Hop; cbn [fst snd]; rewrite Hst; reflexivity|].
    split; [done|]. split.
    { exists (next_free h), (Pos.succ (next_free h)). split; [done|]. proj.
      apply lookup_insert_eq. }
    split; [|split; [done|split; [done|]]].
    + intros k' v' Hne.
      destruct Hrep as (Hfresh & _ & _ & _ & Hlive & _).
      destruct (heap_fresh_lookup h (Pos.succ (next_free h))) as [_ Hfv]; [done|lia|].
      split; intros (a' & d' & He' & Hv').
      * exists a', d'. split; [apply elem_of_app; by left|]. proj.
        assert (d' <> Pos.succ (next_free h)) by (intros ->; congruence).
        rewrite lookup_insert_ne by done.
        rewrite Hvals. by rewrite lookup_insert_ne.
      * apply elem_of_app in He' as [He'|He'].
        2:{ apply list_elem_of_singleton in He'. unfold e in He'. congruence. }
        exists a', d'. split; [done|].
        assert (d' <> Pos.succ (next_free h)).
        { intros ->. destruct (Hlive _ He') as [? Hl]. simpl in Hl. congruence. }
        revert Hv'. proj.
        rewrite lookup_insert_ne by done. rewrite Hvals.
        by rewrite lookup_insert_ne.
    + intros _. split; [|done]. by exists e.
Qed.

End Finite_map.

(** ** What a user of [operator[]] and [bucketDensity] observes *)

Section Observations.
Context {T : Type} (default_value : T).

Implicit Types (h : heap T) (m : hash_map) (g l : list (Z * ptr * ptr)).

(** A newly constructed container holds no entry. *)
Lemma hash_map_new_represents storageSize h :
  0 <= storageSize < 2 ^ 32 -> heap_fresh h ->
  represents [] h (hash_map_new storageSize).
Proof.
  intros Hs Hfresh.
  destruct (hash_map_new_well_formed (T:=T) storageSize h Hs Hfresh) as (_ & Hcount & _).
  split; [done|]. split; [done|]. split; [constructor|]. split; [constructor|].
  split; [intros e He; by apply elem_of_nil in He|].
  exists ∅. split; [done|]. intros i. rewrite lookup_empty. constructor.
Qed.

(** X1.  After [map[k] = v] on a represented container, a read of [map[k]]
    returns [v] and changes neither the container nor the heap. *)
Theorem put_then_get fuel m k v h g :
  represents g h m ->
  (length g < fuel)%nat ->
  exists m1 h1,
    put default_value fuel m k v h = Done m1 h1 /\
    get default_value fuel m1 k h1 = Done (v, m1) h1.
Proof.
  intros Hrep Hfuel.
  pose proof (bucket_length m g (hashThis m k)) as Hb.
  destruct (put_represents default_value fuel m k v h g Hrep)
    as (m1 & h1 & g1 & Hput & Hrep1 & Hk & _ & _ & Hin & Hnin); [lia|].
  exists m1, h1. split; [done|].
  apply (get_represents default_value fuel m1 k v h1 g1 Hrep1 Hk).
  pose proof (bucket_length m1 g1 (hashThis m1 k)) as Hb1.
  destruct (decide (k ∈ entry_key <$> g)) as [Hi|Hi].
  - destruct (Hin Hi) as [-> ->]. lia.
  - destruct (Hnin Hi) as [(e & _ & ->) _]. rewrite length_app in Hb1. simpl in Hb1. lia.
Qed.

(** X2.  [map[k1] = v1] leaves every other key of the container with the
    value it had: a read of [map[k2]] returns it. *)
Theorem put_keeps_other_keys fuel m k1 v1 k2 v2 h g :
  represents g h m ->
  holds g h k2 v2 ->
  k1 <> k2 ->
  (length g < fuel)%nat ->
  exists m1 h1,
    put default_value fuel m k1 v1 h = Done m1 h1 /\
    get default_value fuel m1 k2 h1 = Done (v2, m1) h1.
Proof.
  intros Hrep Hk2 Hne Hfuel.
  pose proof (bucket_length m g (hashThis m k1)) as Hb.
  destruct (put_represents default_value fuel m k1 v1 h g Hrep)
    as (m1 & h1 & g1 & Hput & Hrep1 & _ & Hother & _ & Hin & Hnin); [lia|].
  exists m1, h1. split; [done|].
  apply (get_represents default_value fuel m1 k2 v2 h1 g1 Hrep1).
  - apply Hother; [done|done].
  - pose proof (bucket_length m1 g1 (hashThis m1 k2)) as Hb1.
    destruct (decide (k1 ∈ entry_key <$> g)) as [Hi|Hi].
    + destruct (Hin Hi) as [-> ->]. lia.
    + destruct (Hnin Hi) as [(e & _ & ->) _]. rewrite length_app in Hb1.
      simpl in Hb1. lia.
Qed.

(** X3.  A read of a key the container does not hold is not an error: it
    creates the entry with a default value, returns that value and adds one
    to [size()]; the keys already there keep their values. *)
Theorem get_missing_key_inserts_default fuel m k h g :
  represents g h m ->
  k ∉ entry_key <$> g ->
  (length g <= fuel)%nat ->
  exists m1 h1 e,
    get default_value fuel m k h = Done (default_value, m1) h1 /\
    entry_key e = k /\
    represents (g ++ [e]) h1 m1 /\
    size m1 = uint32 (size m + 1) /\
    bucketCount m1 = bucketCount m /\
    forall k' v', holds g h k' v' -> holds (g ++ [e]) h1 k' v'.
Proof.
  intros Hrep Hnin Hfuel.
  pose proof (bucket_length m g (hashThis m k)) as Hb.
  destruct (operator_index_represents default_value fuel m k h g Hrep)
    as [_ Habsent]; [lia|].
  destruct (Habsent Hnin) as (m1 & h1 & Hop & Hrep1 & Hn1 & Hc1 & Hvals).
  exists m1, h1, (k, next_free h, Pos.succ (next_free h)).
  split.
  { unfold get, bind. rewrite Hop. cbn [fst snd]. unfold load_value.
    rewrite Hvals, lookup_insert_eq. reflexivity. }
  split; [done|]. split; [done|]. split; [done|]. split; [done|].
  intros k' v' (a' & d' & He' & Hv').
  exists a', d'. split; [apply elem_of_app; by left|].
  rewrite Hvals. rewrite lookup_insert_ne; [done|].
  intros <-. destruct Hrep as (Hfresh & _).
  destruct (heap_fresh_lookup h (Pos.succ (next_free h))) as [_ Hfv]; [done|lia|].
  congruence.
Qed.

Lemma uint32_succ c : uint32 (uint32 c + 1) = uint32 (c + 1).
Proof. unfold uint32. by rewrite Zplus_mod_idemp_l. Qed.

Lemma density_walk_linked fuel c h parent q l :
  linked h parent q l -> (length l <= fuel)%nat ->
  density_walk fuel (uint32 c) q h = Done (uint32 (c + Z.of_nat (length l))) h.
Proof.
  intros Hl. revert fuel c.
  induction Hl as [|parent a n l Hn Hp Hrest IH]; intros fuel c Hlen.
  - destruct fuel; simpl; unfold ret; by rewrite Z.add_0_r.
  - destruct fuel as [|fuel]; [simpl in Hlen; lia|].
    cbn [density_walk]. unfold bind, load_node. rewrite Hn.
    rewrite uint32_succ, IH by (simpl in Hlen; lia).
    do 2 f_equal. simpl length. lia.
Qed.

(** X4.  [bucketDensity(k)] returns the number of keys of the container
    that hash to the bucket of [k], as a [uint32_t], and changes nothing. *)
Theorem bucketDensity_counts_bucket fuel m k h g :
  represents g h m ->
  (length g <= fuel)%nat ->
  bucketDensity fuel m k h
  = Done (uint32 (Z.of_nat (length (bucket m g (hashThis m k))))) h /\
  (Z.of_nat (length g) < 2 ^ 32 ->
   bucketDensity fuel m k h
   = Done (Z.of_nat (length (bucket m g (hashThis m k)))) h).
Proof.
  intros (Hfresh & Hcount & Hkeys & Hdatas & Hlive & t & Ht & Hlinked) Hfuel.
  destruct (hashThis_spec m k Hcount) as [_ Hrange].
  pose proof (bucket_length m g (hashThis m k)) as Hb.
  assert (Hd : bucketDensity fuel m k h
               = Done (uint32 (Z.of_nat (length (bucket m g (hashThis m k))))) h).
  { unfold bucketDensity, bind, read_head. rewrite Ht.
    destruct (Z.leb_spec 0 (hashThis m k)); [|lia].
    destruct (Z.ltb_spec (hashThis m k) (_hashIndices m)); [|lia].
    cbn [andb]. unfold ret.
    change 0 with (uint32 0) at 1.
    rewrite (density_walk_linked fuel 0 h None _ _ (Hlinked _)) by lia.
    reflexivity. }
  split; [done|]. intros Hsmall. rewrite Hd. do 2 f_equal.
  unfold uint32. apply Z.mod_small. lia.
Qed.

End Observations.

(** ** A sequence of assignments against a finite map *)

Lemma put_all_represents (kvs : list (Z * Z)) fuel m (h : heap Z) g (A : gmap Z Z) :
  represents g h m ->
  (forall k v, A !! k = Some v <-> holds g h k v) ->
  _elementCount m = uint32 (Z.of_nat (length g)) ->
  (length g + length kvs <= fuel)%nat ->
  exists m' h' g',
    put_all fuel m kvs h = Done m' h' /\
    represents g' h' m' /\
    (forall k v, assign A kvs !! k = Some v <-> holds g' h' k v) /\
    _elementCount m' = uint32 (Z.of_nat (length g')) /\
    _hashIndices m' = _hashIndices m /\
    (length g' <= length g + length kvs)%nat.
Proof.
  revert m h g A. induction kvs as [|[k v] kvs IH]; intros m h g A Hrep Hagree Hcount Hfuel.
  { exists m, h, g. simpl. unfold ret. split_and!; try done. lia. }
  pose proof (bucket_length m g (hashThis m k)) as Hb.
  destruct (put_represents 0 fuel m k v h g Hrep)
    as (m1 & h1 & g1 & Hput & Hrep1 & Hk & Hother & Hn1 & Hin & Hnin);
    [simpl in Hfuel; lia|].
  assert (Hg1 : _elementCount m1 = uint32 (Z.of_nat (length g1)) /\
                (length g1 <= S (length g))%nat).
  { destruct (decide (k ∈ entry_key <$> g)) as [Hi|Hi].
    - destruct (Hin Hi) as [-> ->]. split; [done|lia].
    - destruct (Hnin Hi) as [(e & _ & ->) ->]. rewrite Hcount, length_app.
      simpl length. split; [|lia].
      rewrite uint32_succ. f_equal. lia. }
  destruct Hg1 as [Hcount1 Hlen1].
  destruct (IH m1 h1 g1 (<[k := v]> A)) as (m' & h' & g' & Hrun & Hrep' & Hagree' & Hcount' & Hn' & Hlen').
  - done.
  - intros k' v'. destruct (decide (k' = k)) as [->|Hne].
    + rewrite lookup_insert_eq. split.
      * intros [= <-]. done.
      * intros Hh. f_equal. by eapply holds_functional.
    + rewrite lookup_insert_ne by done. rewrite Hagree. by apply Hother.
  - done.
  - simpl in Hfuel. lia.
  - exists m', h', g'. split.
    { cbn [put_all]. unfold bind. rewrite Hput. exact Hrun. }
    split_and!; try done; [congruence|simpl; lia].
Qed.

(** X5.  A new container after the assignments [map[k] = v] of a list, in
    order, agrees with the finite map after the same assignments: [size()]
    is its number of keys (as a [uint32_t]), a read of a key it binds returns
    the bound value and changes nothing, and a key it does not bind has no
    node. *)
Theorem assignments_agree_with_finite_map
    (storageSize : Z) (kvs : list (Z * Z)) (fuel : nat) :
  0 <= storageSize < 2 ^ 32 ->
  (length kvs <= fuel)%nat ->
  exists m h g,
    put_all fuel (hash_map_new storageSize) kvs empty_heap = Done m h /\
    represents g h m /\
    size m = uint32 (Z.of_nat (stdpp.base.size (assign ∅ kvs))) /\
    (forall k v, assign ∅ kvs !! k = Some v -> get 0 fuel m k h = Done (v, m) h) /\
    (forall k, assign ∅ kvs !! k = None -> k ∉ entry_key <$> g).
Proof.
  intros Hs Hfuel.
  assert (Hfresh : heap_fresh empty_heap).
  { split; apply map_Forall_empty. }
  destruct (put_all_represents kvs fuel (hash_map_new storageSize) empty_heap [] ∅)
    as (m & h & g & Hrun & Hrep & Hagree & Hcount & Hn & Hlen).
  - by apply hash_map_new_represents.
  - intros k v. rewrite lookup_empty. split; [done|].
    intros (a & d & He & _). by apply elem_of_nil in He.
  - done.
  - simpl. lia.
  - exists m, h, g. split; [done|]. split; [done|].
    assert (Hkeys : forall k, k ∈ entry_key <$> g <-> is_Some (assign ∅ kvs !! k)).
    { intros k. split.
      - intros Hin. apply list_elem_of_fmap in Hin as ([[k' a] d] & -> & He).
        destruct Hrep as (_ & _ & _ & _ & Hlive & _).
        destruct (Hlive _ He) as [v Hv]. exists v. apply Hagree. by exists a, d.
      - intros [v Hv]. apply Hagree in Hv as (a & d & He & _).
        apply list_elem_of_fmap. by exists (k, a, d). }
    split; [|split].
    + unfold size. rewrite Hcount. do 2 f_equal.
      destruct Hrep as (_ & _ & Hnd & _).
      rewrite <- (length_fmap entry_key g).
      rewrite <- (size_list_to_set (C:=gset Z)) by done.
      rewrite <- size_dom. f_equal. apply set_eq. intros k.
      rewrite elem_of_list_to_set, elem_of_dom. apply Hkeys.
    + intros k v Hv. apply (get_represents 0 fuel m k v h g Hrep).
      * by apply Hagree.
      * pose proof (bucket_length m g (hashThis m k)). simpl in Hlen. lia.
    + intros k Hnone Hin. apply Hkeys in Hin as [v Hv]. congruence.
Qed.

(** ** [erase] on a represented container *)

Section Erase_represented.
Context {T : Type}.

Implicit Types (h : heap T) (m : hash_map) (g l : list (Z * ptr * ptr)).

Lemma bind_eq {A B} (c : M T A) (k : A -> M T B) h a h1 :
  c h = Done a h1 -> bind c k h = k a h1.
Proof. unfold bind. by intros ->. Qed.

Lemma delete_node_null fuel h : delete_node fuel None h = Done tt h.
Proof. by destruct fuel. Qed.

Lemma filter_swap {A} (P Q : A -> Prop) `{!forall x, Decision (P x)}
    `{!forall x, Decision (Q x)} (l : list A) :
  filter P (filter Q l) = filter Q (filter P l).
Proof.
  induction l as [|x l IH]; [done|].
  destruct (decide (P x)) as [HP|HP], (decide (Q x)) as [HQ|HQ];
    repeat (rewrite ?(filter_cons_True P) by done;
            rewrite ?(filter_cons_True Q) by done;
            rewrite ?(filter_cons_False P) by done;
            rewrite ?(filter_cons_False Q) by done);
    by rewrite ?IH.
Qed.

Lemma NoDup_fmap_filter {A B} (f : A -> B) (P : A -> Prop)
    `{!forall x, Decision (P x)} (l : list A) :
  NoDup (f <$> l) -> NoDup (f <$> filter P l).
Proof.
  induction l as [|x l IH]; [done|]. rewrite fmap_cons, NoDup_cons.
  intros [Hx Hnd]. destruct (decide (P x)).
  - rewrite filter_cons_True by done. rewrite fmap_cons. apply NoDup_cons.
    split; [|by apply IH]. intros Hin. apply Hx.
    apply list_elem_of_fmap in Hin as (y & -> & Hy).
    apply list_elem_of_filter in Hy as [_ Hy]. by apply list_elem_of_fmap_2.
  - rewrite filter_cons_False by done. by apply IH.
Qed.

(** Nodes of a chain with distinct keys are distinct. *)
Lemma linked_nodes_NoDup h parent q l :
  linked h parent q l -> NoDup (entry_key <$> l) -> NoDup (entry_node <$> l).
Proof.
  induction 1 as [|parent a n l Hn Hp Hrest IH]; [constructor|].
  rewrite !fmap_cons. intros Hnd. apply NoDup_cons in Hnd as [Hk Hnd].
  apply NoDup_cons. split; [|by apply IH].
  intros Hin. apply Hk. apply list_elem_of_fmap in Hin as (e & Ha & He).
  destruct (linked_node_live _ _ _ _ _ Hrest He) as (n' & Hn' & Hk' & _).
  unfold entry_node at 1 in Ha. simpl in Ha. rewrite <- Ha, Hn in Hn'.
  injection Hn' as <-. unfold entry_key at 1. simpl. rewrite Hk'.
  by apply list_elem_of_fmap_2.
Qed.

(** The walk of [erase] past the entries that do not hold the key. *)
Lemma erase_walk_linked fuel m i k cur h parent l0 rest :
  linked h parent (Some cur) (l0 ++ rest) ->
  k ∉ entry_key <$> l0 ->
  (length (l0 ++ rest) <= fuel)%nat ->
  match rest with
  | [] => erase_walk fuel m i k cur h = Done m h
  | e :: _ =>
      entry_key e = k ->
      exists n (f : nat),
        nodes h !! entry_node e = Some n /\
        rawKey n = k /\ dataPointer n = entry_data e /\
        parentNode n = from_option (fun x => Some (entry_node x)) parent (last l0) /\
        linked h (parentNode n) (Some (entry_node e)) rest /\
        (length rest <= S f)%nat /\
        erase_walk fuel m i k cur h
        = bind (unlink m i n)
            (fun m' => bind (delete_node (S f) (Some (entry_node e)))
                         (fun _ => ret m')) h
  end.
Proof.
  revert fuel cur parent. induction l0 as [|x l0 IH]; intros fuel cur parent Hl Hnin Hlen.
  - simpl in Hl. inversion Hl as [|? a n l Hn Hp Hrest]; subst.
    intros Hk. destruct fuel as [|fuel]; [simpl in Hlen; lia|].
    exists n, fuel. unfold entry_node, entry_key, entry_data in *.
    cbn [fst snd app length] in *.
    split_and!; try done; try lia.
    cbn [erase_walk]. unfold bind at 1, load_node at 1.
    rewrite Hn, Hk, Z.eqb_refl. reflexivity.
  - rewrite <- app_comm_cons in Hl.
    inversion Hl as [|? a n l Hn Hp Hrest]; subst.
    rewrite fmap_cons in Hnin. apply not_elem_of_cons in Hnin as [Hne Hnin].
    unfold entry_key at 1 in Hne. simpl in Hne.
    destruct fuel as [|fuel]; [simpl in Hlen; lia|].
    assert (Hstep : erase_walk (S fuel) m i k cur h =
              match childNode n with
              | None => Done m h
              | Some c => erase_walk fuel m i k c h
              end).
    { cbn [erase_walk]. unfold bind at 1, load_node at 1. rewrite Hn.
      destruct (Z.eqb_spec (rawKey n) k); [congruence|]. by destruct (childNode n). }
    rewrite Hstep. clear Hstep.
    destruct (childNode n) as [c|] eqn:Hchild.
    + specialize (IH fuel c (Some cur) Hrest Hnin).
      destruct rest as [|e rest'].
      * apply IH. simpl in Hlen. lia.
      * intros Hk. destruct IH as (n' & f & H1 & H2 & H3 & H4 & H5 & H6 & H7);
          [simpl in Hlen; lia|done|].
        exists n', f. split_and!; try done.
        rewrite H4. destruct l0 as [|y l0]; [done|].
        change (last ((rawKey n, cur, dataPointer n) :: y :: l0)) with (last (y :: l0)).
        destruct (last (y :: l0)) eqn:E; [done|]. by apply last_None in E.
    + apply linked_None_nil in Hrest.
      apply app_eq_nil in Hrest as [-> ->]. done.
Qed.


(** Cutting the last node off a chain of at least two nodes. *)
Lemma linked_drop_last h parent q l1 ep ea np (V : gmap positive T) F :
  linked h parent q (l1 ++ [ep; ea]) ->
  NoDup (entry_node <$> l1 ++ [ep; ea]) ->
  nodes h !! entry_node ep = Some np ->
  linked {| nodes := delete (entry_node ea)
                       (<[entry_node ep := set_childNode np None]> (nodes h));
            values := V; next_free := F |} parent q (l1 ++ [ep]).
Proof.
  revert parent q. induction l1 as [|x l1 IH]; intros parent q Hl Hnd Hp.
  - simpl in *. inversion Hl as [|? p n l Hn Hpar Hrest]; subst.
    unfold entry_node in Hp. simpl in Hp.
    assert (n = np) as -> by congruence.
    apply NoDup_cons in Hnd as [Hpa _].
    assert (p <> entry_node ea).
    { intros ->. apply Hpa. left. }
    change (rawKey np, p, dataPointer np)
      with (rawKey (set_childNode np None), p, dataPointer (set_childNode np None)).
    constructor; [|done|constructor].
    proj. change (entry_node (rawKey np, p, dataPointer np)) with p.
    rewrite lookup_delete_ne by done. apply lookup_insert_eq.
  - rewrite <- app_comm_cons in Hl.
    inversion Hl as [|? a n l Hn Hpar Hrest]; subst.
    rewrite <- app_comm_cons, fmap_cons in Hnd. apply NoDup_cons in Hnd as [Hx Hnd].
    unfold entry_node at 1 in Hx. simpl in Hx.
    rewrite <- app_comm_cons. constructor; [|done|by apply IH].
    proj. rewrite fmap_app in Hx. apply not_elem_of_app in Hx as [_ Hx].
    assert (entry_node ea <> a) by (intros Heq; apply Hx; rewrite <- Heq; right; left).
    assert (entry_node ep <> a) by (intros Heq; apply Hx; rewrite <- Heq; left).
    rewrite lookup_delete_ne by done. by rewrite lookup_insert_ne.
Qed.

(** X6.  [erase] of a key the container does not hold changes nothing. *)
Theorem erase_missing_key_is_noop fuel m k h g :
  represents g h m ->
  k ∉ entry_key <$> g ->
  (length g <= fuel)%nat ->
  erase fuel m k h = Done m h.
Proof.
  intros (Hfresh & Hcount & Hkeys & Hdatas & Hlive & t & Ht & Hlinked) Hnin Hfuel.
  destruct (hashThis_spec m k Hcount) as [_ Hrange].
  unfold erase. unfold bind at 1. unfold read_head. rewrite Ht.
  destruct (Z.leb_spec 0 (hashThis m k)); [|lia].
  destruct (Z.ltb_spec (hashThis m k) (_hashIndices m)); [|lia].
  cbn [andb]. unfold ret at 1.
  pose proof (Hlinked (hashThis m k)) as Hslot.
  destruct (t !! hashThis m k) as [cur|]; [|done].
  pose proof (erase_walk_linked fuel m (hashThis m k) k cur h None
                (bucket m g (hashThis m k)) []) as Hw.
  rewrite app_nil_r in Hw. apply Hw; [done| |].
  - by rewrite <- (key_in_bucket m).
  - pose proof (bucket_length m g (hashThis m k)). lia.
Qed.

(** X7.  [erase] of the key held by the last node of its bucket removes
    that entry: its node and value are freed, the container holds the other
    entries with the values they had, and [size()] stays what it was. *)
Theorem erase_last_key_of_bucket fuel m k a d l0 h g :
  represents g h m ->
  bucket m g (hashThis m k) = l0 ++ [(k, a, d)] ->
  (length g <= fuel)%nat ->
  exists m' h',
    erase fuel m k h = Done m' h' /\
    represents (filter (fun e => entry_key e <> k) g) h' m' /\
    size m' = size m /\ bucketCount m' = bucketCount m /\
    nodes h' !! a = None /\ values h' !! d = None /\
    (forall k' v', k' <> k ->
       holds g h k' v' <-> holds (filter (fun e => entry_key e <> k) g) h' k' v').
Proof.
  intros (Hfresh & Hcount & Hkeys & Hdatas & Hlive & t & Ht & Hlinked) Hb Hfuel.
  destruct (hashThis_spec m k Hcount) as [_ Hrange].
  set (i := hashThis m k) in *. set (g' := filter (fun e => entry_key e <> k) g).
  assert (Heg : (k, a, d) ∈ g).
  { apply (elem_of_bucket m g i). rewrite Hb. apply elem_of_app. right. left. }
  assert (Hbk : NoDup (entry_key <$> l0 ++ [(k, a, d)])).
  { rewrite <- Hb. by apply NoDup_fmap_filter. }
  assert (Hk0 : k ∉ entry_key <$> l0).
  { rewrite fmap_app in Hbk. apply NoDup_app in Hbk as (_ & Hdis & _).
    intros Hin. apply (Hdis _ Hin). left. }
  pose proof (Hlinked i) as Hslot. rewrite Hb in Hslot.
  pose proof (linked_nodes_NoDup _ _ _ _ Hslot Hbk) as Hnodes.
  destruct (Hlive _ Heg) as [v0 Hv0]. unfold entry_data in Hv0. simpl in Hv0.
  (* facts about the container after the call *)
  assert (Hkeys' : NoDup (entry_key <$> g')) by (by apply NoDup_fmap_filter).
  assert (Hdatas' : NoDup (entry_data <$> g')) by (by apply NoDup_fmap_filter).
  assert (Hin' : forall e, e ∈ g' <-> e ∈ g /\ entry_key e <> k).
  { intros e. unfold g'. rewrite list_elem_of_filter. tauto. }
  assert (Hdne : forall e, e ∈ g' -> entry_data e <> d).
  { intros e He Heq. apply Hin' in He as [He Hne]. apply Hne.
    assert (e = (k, a, d)) as ->; [|done].
    by apply (data_unique g). }
  assert (Hbi : bucket m g' i = l0).
  { unfold g', bucket. rewrite filter_swap. fold (bucket m g i). rewrite Hb.
    rewrite filter_app. rewrite filter_cons_False by (unfold entry_key; simpl; tauto).
    rewrite filter_nil, app_nil_r.
    clear -Hk0. induction l0 as [|x l0 IH]; [done|].
    rewrite fmap_cons in Hk0. apply not_elem_of_cons in Hk0 as [Hx Hk0].
    rewrite filter_cons_True by done. by rewrite IH. }
  assert (Hbj : forall j, j <> i -> bucket m g' j = bucket m g j).
  { intros j Hj. unfold g', bucket. rewrite filter_swap.
    generalize (sublist_filter (fun e => hashThis m (entry_key e) = j) g).
    assert (Hall : Forall (fun e => hashThis m (entry_key e) = j)
                     (filter (fun e => hashThis m (entry_key e) = j) g)).
    { apply Forall_forall. intros e He. by apply list_elem_of_filter in He as [? _]. }
    intros _. induction Hall as [|x l Hx Hall IH]; [done|].
    rewrite filter_cons_True; [by rewrite IH|].
    intros Hxk. apply Hj. rewrite <- Hx, Hxk. done. }
  assert (Hother : forall j e, j <> i -> e ∈ bucket m g j ->
            forall x, x ∈ entry_node <$> l0 ++ [(k, a, d)] -> entry_node e <> x).
  { intros j e Hj He x Hx Heq. apply Hj.
    eapply (bucket_node_slot m g h t j i x); [done| |by rewrite Hb].
    rewrite <- Heq. by apply list_elem_of_fmap_2. }
  destruct Hfresh as [Hfrn Hfrv].
  assert (Hholds : forall V' F',
            (forall x, x <> d -> V' !! x = values h !! x) ->
            forall k' v' N', k' <> k ->
              holds g h k' v' <->
              holds g' {| nodes := N'; values := V'; next_free := F' |} k' v').
  { intros V' F' HV k' v' N' Hne. split.
    - intros (a' & d' & He & Hv). exists a', d'.
      assert (He' : (k', a', d') ∈ g') by (apply Hin'; done).
      split; [done|]. proj. rewrite HV; [done|]. by apply (Hdne _ He').
    - intros (a' & d' & He & Hv). exists a', d'.
      pose proof (Hdne _ He) as Hd. apply Hin' in He as [He _].
      split; [done|]. revert Hv. proj. by rewrite HV. }
  (* the walk *)
  assert (Hcur : exists cur, t !! i = Some cur).
  { destruct (t !! i) as [cur|]; [eauto|].
    apply linked_None_nil in Hslot. by destruct l0. }
  destruct Hcur as [cur Hcur]. rewrite Hcur in Hslot.
  destruct (erase_walk_linked fuel m i k cur h None l0 [(k, a, d)] Hslot Hk0)
    as (n & f & Hn & Hnk & Hnd & Hnp & Hnl & _ & Hw); [|done|].
  { rewrite <- Hb. pose proof (bucket_length m g i). lia. }
  unfold entry_node, entry_data in Hn, Hnd, Hnl, Hw. simpl in Hn, Hnd, Hnl, Hw.
  assert (Hchild : childNode n = None).
  { inversion Hnl as [|? ? n' ? Hn' _ Hrest]; subst.
    inversion Hrest. congruence. }
  assert (Hstart : erase fuel m k h = erase_walk fuel m i k cur h).
  { unfold erase. unfold bind at 1. unfold read_head. rewrite Ht. fold i.
    destruct (Z.leb_spec 0 i); [|lia].
    destruct (Z.ltb_spec i (_hashIndices m)); [|lia].
    cbn [andb]. unfold ret at 1. by rewrite Hcur. }
  rewrite Hstart, Hw. clear Hstart Hw.
  assert (Hdel : forall h0,
            nodes h0 !! a = Some n -> values h0 = values h ->
            delete_node (S f) (Some a) h0
            = Done tt {| nodes := delete a (nodes h0); values := delete d (values h);
                         next_free := next_free h0 |}).
  { intros h0 HN HV. cbn [delete_node]. unfold bind, load_node. rewrite HN.
    unfold delete_value. rewrite Hnd, HV, Hv0, Hchild, delete_node_null.
    unfold release_node. proj. by rewrite HN. }
  destruct l0 as [|x l0 _] using rev_ind.
  - (* the node is the head of its bucket *)
    simpl in Hnp.
    assert (Hun : unlink m i n h
                  = Done {| _hashIndices := _hashIndices m;
                            _elementCount := _elementCount m;
                            _heads := Some (delete i t) |} h).
    { unfold unlink. rewrite Hnp, Hchild. unfold write_head. rewrite Ht.
      destruct (Z.leb_spec 0 i); [|lia].
      destruct (Z.ltb_spec i (_hashIndices m)); [|lia]. done. }
    eexists. eexists. split.
    { rewrite (bind_eq _ _ _ _ _ Hun).
      rewrite (bind_eq _ _ _ _ _ (Hdel h Hn eq_refl)). reflexivity. }
    split; [|split; [done|split; [done|split; [|split]]]].
    + split; [|split; [done|split; [done|split; [done|split]]]].
      * split; proj; by apply map_Forall_delete.
      * intros e He. proj. rewrite lookup_delete_ne by (by apply not_eq_sym, Hdne).
        apply Hlive. by apply Hin'.
      * eexists. split; [reflexivity|]. intros j.
        match goal with |- linked _ _ _ (bucket ?m' _ _) =>
          change (bucket m') with (bucket m) end.
        destruct (decide (j = i)) as [->|Hj].
        -- rewrite lookup_delete_eq, Hbi. constructor.
        -- rewrite lookup_delete_ne by done. rewrite Hbj by done.
           eapply linked_frame; [apply Hlinked|].
           intros e n' He Hn'. proj. rewrite lookup_delete_ne; [done|].
           intros Heq. eapply (Hother j e Hj He a); [|done].
           rewrite fmap_app. apply elem_of_app. right. left.
    + proj. apply lookup_delete_eq.
    + proj. apply lookup_delete_eq.
    + intros k' v' Hne. apply Hholds; [|done].
      intros y Hy. by rewrite lookup_delete_ne.
  - (* the node has a predecessor [x] *)
    rewrite last_snoc in Hnp. simpl in Hnp.
    rewrite <- app_assoc in Hslot, Hnodes, Hother. simpl in Hslot, Hnodes, Hother.
    assert (Hxin : x ∈ bucket m g i).
    { rewrite Hb. apply elem_of_app. left. apply elem_of_app. right. left. }
    destruct (linked_node_live _ _ _ _ _ (Hlinked i) Hxin) as (np & Hp & _).
    assert (Hpa : entry_node x <> a).
    { intros Heq. rewrite fmap_app in Hnodes.
      apply NoDup_app in Hnodes as (_ & _ & Hnd2). simpl in Hnd2.
      apply NoDup_cons in Hnd2 as [Hnd2 _]. apply Hnd2. rewrite Heq. left. }
    assert (Hun : unlink m i n h
                  = Done m {| nodes := <[entry_node x := set_childNode np None]> (nodes h);
                              values := values h; next_free := next_free h |}).
    { unfold unlink. rewrite Hnp, Hchild. unfold bind, load_node. rewrite Hp.
      unfold store_node. rewrite Hp. reflexivity. }
    eexists. eexists. split.
    { rewrite (bind_eq _ _ _ _ _ Hun).
      erewrite bind_eq; [reflexivity|].
      apply Hdel; [|done]. proj. by rewrite lookup_insert_ne. }
    split; [|split; [done|split; [done|split; [|split]]]].
    + split; [|split; [done|split; [done|split; [done|split]]]].
      * split; proj; apply map_Forall_delete; [|done].
        apply map_Forall_insert_2; [by apply Hfrn in Hp|done].
      * intros e He. proj. rewrite lookup_delete_ne by (by apply not_eq_sym, Hdne).
        apply Hlive. by apply Hin'.
      * exists t. split; [done|]. intros j.
        destruct (decide (j = i)) as [->|Hj].
        -- rewrite Hcur, Hbi.
           by apply (linked_drop_last h None (Some cur) l0 x (k, a, d) np).
        -- rewrite Hbj by done.
           eapply linked_frame; [apply Hlinked|].
           intros e n' He Hn'. proj.
           rewrite lookup_delete_ne.
           2:{ intros Heq. eapply (Hother j e Hj He a); [|done].
               rewrite fmap_app. apply elem_of_app. right. right. left. }
           rewrite lookup_insert_ne; [done|].
           intros Heq. eapply (Hother j e Hj He (entry_node x)); [|done].
           rewrite fmap_app. apply elem_of_app. right. left.
    + proj. apply lookup_delete_eq.
    + proj. apply lookup_delete_eq.
    + intros k' v' Hne. apply Hholds; [|done].
      intros y Hy. by rewrite lookup_delete_ne.
Qed.

End Erase_represented.

(** ** [clear] on a represented container *)

Section Clear_represented.
Context {T : Type}.

Implicit Types (h : heap T) (m : hash_map) (g l : list (Z * ptr * ptr)).

Lemma freed_fresh h l h' : heap_fresh h -> freed h l h' -> heap_fresh h'.
Proof.
  intros [Hn Hv] (Hnf & Hfn & Hfv). split; intros x y Hx; rewrite Hnf.
  - rewrite Hfn in Hx. destruct (decide _); [done|]. by apply Hn in Hx.
  - rewrite Hfv in Hx. destruct (decide _); [done|]. by apply Hv in Hx.
Qed.

(** The destructor of the first node of a chain frees the whole chain. *)
Lemma delete_node_linked fuel h parent a l :
  linked h parent (Some a) l ->
  NoDup (entry_node <$> l) -> NoDup (entry_data <$> l) ->
  (forall e, e ∈ l -> is_Some (values h !! entry_data e)) ->
  (length l <= fuel)%nat ->
  exists h', delete_node fuel (Some a) h = Done tt h' /\ freed h l h'.
Proof.
  revert fuel h parent a.
  induction l as [|e0 l IH]; intros fuel h parent a Hl Hnn Hnd Hlive Hlen;
    [inversion Hl|].
  inversion Hl as [|? ? n ? Hn Hp Hrest]; subst.
  destruct fuel as [|fuel]; [simpl in Hlen; lia|].
  rewrite fmap_cons in Hnn, Hnd.
  apply NoDup_cons in Hnn as [Ha Hnn]. apply NoDup_cons in Hnd as [Hd Hnd].
  unfold entry_node at 1 in Ha. unfold entry_data at 1 in Hd. simpl in Ha, Hd.
  destruct (Hlive (rawKey n, a, dataPointer n)) as [v Hv]; [left|].
  unfold entry_data in Hv. simpl in Hv.
  set (h1 := {| nodes := nodes h; values := delete (dataPointer n) (values h);
                next_free := next_free h |}).
  assert (Hstart : delete_node (S fuel) (Some a) h =
            bind (delete_node fuel (childNode n)) (fun _ => release_node a) h1).
  { cbn [delete_node]. unfold bind at 1, load_node at 1. rewrite Hn.
    unfold bind at 1, delete_value at 1. rewrite Hv. reflexivity. }
  rewrite Hstart. clear Hstart.
  assert (Hrest1 : linked h1 (Some a) (childNode n) l).
  { eapply linked_frame; [done|]. by intros. }
  assert (Hlive1 : forall e, e ∈ l -> is_Some (values h1 !! entry_data e)).
  { intros e He. unfold h1. proj. rewrite lookup_delete_ne.
    - apply Hlive. by right.
    - intros Heq. apply Hd. rewrite Heq. by apply list_elem_of_fmap_2. }
  assert (Hmid : exists h2, delete_node fuel (childNode n) h1 = Done tt h2 /\ freed h1 l h2).
  { destruct (childNode n) as [c|] eqn:Hchild.
    - apply (IH fuel h1 (Some a) c); try done. simpl in Hlen. lia.
    - apply linked_None_nil in Hrest1 as ->. exists h1.
      rewrite delete_node_null. split; [done|].
      split; [done|]. split; intros x; by rewrite decide_False by apply not_elem_of_nil. }
  destruct Hmid as (h2 & Hdel & Hnf2 & Hfn2 & Hfv2).
  assert (Ha2 : nodes h2 !! a = Some n).
  { rewrite Hfn2. by rewrite decide_False. }
  eexists. split.
  { rewrite (bind_eq _ _ _ _ _ Hdel). unfold release_node. rewrite Ha2. reflexivity. }
  split; [done|]. split; proj.
  - intros x. rewrite fmap_cons. unfold entry_node at 1. simpl.
    destruct (decide (x = a)) as [->|Hne].
    + rewrite lookup_delete_eq. by rewrite decide_True by left.
    + rewrite lookup_delete_ne by done. rewrite Hfn2.
      destruct (decide (x ∈ entry_node <$> l)) as [Hin|Hnin].
      * by rewrite decide_True by (by right).
      * rewrite decide_False; [done|].
        intros Hin. apply elem_of_cons in Hin as [?|?]; done.
  - intros y. rewrite fmap_cons. unfold entry_data at 1. simpl. rewrite Hfv2.
    unfold h1. proj.
    destruct (decide (y ∈ entry_data <$> l)) as [Hin|Hnin].
    + by rewrite decide_True by (by right).
    + destruct (decide (y = dataPointer n)) as [->|Hne].
      * rewrite decide_True by left. apply lookup_delete_eq.
      * rewrite lookup_delete_ne by done. rewrite decide_False; [done|].
        intros Hin. apply elem_of_cons in Hin as [?|?]; done.
Qed.

(** The inner loop of [clear] on one chain: nothing to do on an empty
    slot, one node freed on a chain of one, and a read of a freed node on a
    longer chain. *)
Lemma clear_chain_linked fuel h q l :
  linked h None q l ->
  NoDup (entry_node <$> l) -> NoDup (entry_data <$> l) ->
  (forall e, e ∈ l -> is_Some (values h !! entry_data e)) ->
  (length l <= fuel)%nat ->
  ((length l <= 1)%nat ->
     exists h', clear_chain fuel q h = Done tt h' /\ freed h l h') /\
  ((2 <= length l)%nat -> clear_chain fuel q h = Undefined).
Proof.
  intros Hl Hnn Hnd Hlive Hlen.
  destruct Hl as [parent|parent a n l Hn Hp Hrest].
  { split; [|simpl; lia]. intros _. exists h. rewrite clear_chain_null.
    split; [done|]. split; [done|].
    split; intros x; by rewrite decide_False by apply not_elem_of_nil. }
  destruct fuel as [|fuel]; [simpl in Hlen; lia|].
  destruct (delete_node_linked (S fuel) h parent a _
              (linked_cons h parent a n l Hn Hp Hrest) Hnn Hnd Hlive Hlen)
    as (h' & Hdel & Hfreed).
  assert (Hstart : clear_chain (S fuel) (Some a) h = clear_chain fuel (childNode n) h').
  { cbn [clear_chain]. unfold bind at 1, load_node at 1. rewrite Hn.
    by rewrite (bind_eq _ _ _ _ _ Hdel). }
  rewrite Hstart. split.
  - intros Hone. destruct l as [|e l]; [|simpl in Hone; lia].
    inversion Hrest; subst. exists h'. by rewrite clear_chain_null.
  - intros Htwo. inversion Hrest as [|? c nc l' Hc Hpc Hrest']; subst; [simpl in Htwo; lia|].
    destruct fuel as [|fuel]; [simpl in Hlen; lia|].
    cbn [clear_chain]. unfold bind, load_node.
    destruct Hfreed as (_ & Hfn & _). rewrite Hfn.
    rewrite decide_True; [done|]. rewrite !fmap_cons. right. left.
Qed.


Lemma filter_none {A} (P : A -> Prop) `{!forall x, Decision (P x)} (l : list A) :
  (forall x, x ∈ l -> ~ P x) -> filter P l = [].
Proof.
  induction l as [|x l IH]; intros Hall; [done|].
  rewrite filter_cons_False by (apply Hall; left). apply IH.
  intros y Hy. apply Hall. by right.
Qed.

Lemma filter_all {A} (P : A -> Prop) `{!forall x, Decision (P x)} (l : list A) :
  (forall x, x ∈ l -> P x) -> filter P l = l.
Proof.
  induction l as [|x l IH]; intros Hall; [done|].
  rewrite filter_cons_True by (apply Hall; left). f_equal. apply IH.
  intros y Hy. apply Hall. by right.
Qed.

Lemma below_zero m g : 0 < _hashIndices m < 2 ^ 32 -> below m g 0 = [].
Proof.
  intros Hcount. unfold below. apply filter_none. intros e _.
  destruct (hashThis_spec m (entry_key e) Hcount). lia.
Qed.

Lemma below_all m g :
  0 < _hashIndices m < 2 ^ 32 -> below m g (_hashIndices m) = g.
Proof.
  intros Hcount. unfold below. apply filter_all. intros e _.
  destruct (hashThis_spec m (entry_key e) Hcount). lia.
Qed.

Lemma freed_nil h : freed h [] h.
Proof.
  split; [done|]. split; intros x; by rewrite decide_False by apply not_elem_of_nil.
Qed.

Lemma freed_compose h l1 h1 l2 h2 l3 :
  freed h l1 h1 -> freed h1 l2 h2 ->
  (forall e, e ∈ l3 <-> e ∈ l1 \/ e ∈ l2) ->
  freed h l3 h2.
Proof.
  intros (Hnf1 & Hn1 & Hv1) (Hnf2 & Hn2 & Hv2) Hiff.
  assert (Hmem : forall (f : Z * ptr * ptr -> ptr) x,
            x ∈ f <$> l3 <-> x ∈ f <$> l1 \/ x ∈ f <$> l2).
  { intros f x. rewrite !list_elem_of_fmap. split.
    - intros (e & -> & He). apply Hiff in He as [He|He]; [left|right]; eauto.
    - intros [(e & -> & He)|(e & -> & He)]; exists e; (split; [done|]);
        apply Hiff; auto. }
  split; [congruence|]. split.
  - intros x. rewrite Hn2, Hn1.
    destruct (decide (x ∈ entry_node <$> l2)) as [H2|H2].
    + rewrite decide_True; [done|]. apply Hmem. by right.
    + destruct (decide (x ∈ entry_node <$> l1)) as [H1|H1].
      * rewrite decide_True; [done|]. apply Hmem. by left.
      * rewrite decide_False; [done|]. rewrite Hmem. tauto.
  - intros y. rewrite Hv2, Hv1.
    destruct (decide (y ∈ entry_data <$> l2)) as [H2|H2].
    + rewrite decide_True; [done|]. apply Hmem. by right.
    + destruct (decide (y ∈ entry_data <$> l1)) as [H1|H1].
      * rewrite decide_True; [done|]. apply Hmem. by left.
      * rewrite decide_False; [done|]. rewrite Hmem. tauto.
Qed.

(** While [clear] is at slot [i], the chains of the slots from [i] on
    are as they were. *)
Lemma slot_untouched m g h (t : gmap Z positive) i hi j :
  NoDup (entry_data <$> g) ->
  (forall e, e ∈ g -> is_Some (values h !! entry_data e)) ->
  (forall i, linked h None (t !! i) (bucket m g i)) ->
  freed h (below m g i) hi -> i <= j ->
  linked hi None (t !! j) (bucket m g j) /\
  (forall e, e ∈ bucket m g j -> is_Some (values hi !! entry_data e)).
Proof.
  intros Hdatas Hlive Hlinked (_ & Hn & Hv) Hij. split.
  - eapply linked_frame; [apply Hlinked|].
    intros e n He Hlook. rewrite Hn. rewrite decide_False; [done|].
    intros Hin. apply list_elem_of_fmap in Hin as (e' & Heq & He').
    apply list_elem_of_filter in He' as [Hlt He'].
    assert (j = hashThis m (entry_key e')); [|lia].
    eapply (bucket_node_slot m g h t _ _ (entry_node e)); [done| |].
    + by apply list_elem_of_fmap_2.
    + rewrite Heq. apply list_elem_of_fmap_2. by apply elem_of_bucket.
  - intros e He. rewrite Hv. apply elem_of_bucket in He as [Hj He].
    rewrite decide_False; [by apply Hlive|].
    intros Hin. apply list_elem_of_fmap in Hin as (e' & Heq & He').
    apply list_elem_of_filter in He' as [Hlt He'].
    assert (e = e') as -> by (by eapply data_unique). lia.
Qed.

Lemma below_succ m g i e :
  e ∈ below m g (i + 1) <-> e ∈ below m g i \/ e ∈ bucket m g i.
Proof.
  unfold below, bucket. rewrite !list_elem_of_filter.
  split; [intros [H ?]|intros [[H ?]|[H ?]]].
  - destruct (decide (hashThis m (entry_key e) = i)); [right|left]; split; done || lia.
  - split; done || lia.
  - split; done || lia.
Qed.

(** The outer loop of [clear] from slot [i]: it completes when each
    remaining bucket holds at most one key, and reads a freed node at the
    first bucket that holds two. *)
Lemma clear_slots_represented fuel m g h (t : gmap Z positive) (count : nat) i hi :
  _heads m = Some t ->
  NoDup (entry_key <$> g) -> NoDup (entry_data <$> g) ->
  (forall e, e ∈ g -> is_Some (values h !! entry_data e)) ->
  (forall i, linked h None (t !! i) (bucket m g i)) ->
  (length g <= fuel)%nat ->
  0 <= i -> i + Z.of_nat count <= _hashIndices m ->
  freed h (below m g i) hi ->
  ((forall j, i <= j < i + Z.of_nat count -> (length (bucket m g j) <= 1)%nat) ->
     exists h', clear_slots fuel m count i hi = Done tt h' /\
                freed h (below m g (i + Z.of_nat count)) h') /\
  ((exists j, i <= j < i + Z.of_nat count /\ (2 <= length (bucket m g j))%nat) ->
     clear_slots fuel m count i hi = Undefined).
Proof.
  intros Ht Hkeys Hdatas Hlive Hlinked Hfuel.
  revert i hi. induction count as [|count IH]; intros i hi Hi Hle Hfreed.
  { split.
    - intros _. exists hi. split; [done|]. by rewrite Z.add_0_r.
    - intros (j & Hj & _). lia. }
  destruct (slot_untouched m g h t i hi i Hdatas Hlive Hlinked Hfreed) as [Hl Hlv]; [lia|].
  pose proof (bucket_length m g i) as Hbl.
  destruct (clear_chain_linked fuel hi (t !! i) (bucket m g i) Hl) as [Hone Htwo].
  { apply (linked_nodes_NoDup _ _ _ _ Hl). by apply NoDup_fmap_filter. }
  { by apply NoDup_fmap_filter. }
  { done. }
  { lia. }
  assert (Hstart : clear_slots fuel m (S count) i hi =
            bind (clear_chain fuel (t !! i))
                 (fun _ => clear_slots fuel m count (i + 1)) hi).
  { cbn [clear_slots]. unfold bind at 1. unfold read_head. rewrite Ht.
    destruct (Z.leb_spec 0 i); [|lia].
    destruct (Z.ltb_spec i (_hashIndices m)); [|lia]. done. }
  rewrite Hstart. clear Hstart.
  destruct (decide (length (bucket m g i) <= 1)%nat) as [Hsmall|Hbig].
  - destruct (Hone Hsmall) as (h1 & Hrun & Hfreed1).
    rewrite (bind_eq _ _ _ _ _ Hrun).
    assert (Hfreed' : freed h (below m g (i + 1)) h1).
    { eapply freed_compose; [done|done|]. intros e. apply below_succ. }
    destruct (IH (i + 1) h1) as [IHok IHbad]; [lia|lia|done|].
    replace (i + Z.of_nat (S count)) with (i + 1 + Z.of_nat count) by lia.
    split.
    + intros Hall. apply IHok. intros j Hj. apply Hall. lia.
    + intros (j & Hj & Hlen). apply IHbad. exists j. split; [|done].
      destruct (decide (j = i)) as [->|]; lia.
  - split.
    + intros Hall. destruct Hbig. apply Hall. lia.
    + intros _. unfold bind. rewrite Htwo by lia. done.
Qed.

(** X8.  On a container in which no two keys share a bucket, [clear]
    frees every node and value and zeroes the table, so that every
    [bucketDensity] is 0; [size()] keeps the value it had. *)
Theorem clear_without_collisions fuel m h g :
  represents g h m ->
  (forall j, (length (bucket m g j) <= 1)%nat) ->
  (length g <= fuel)%nat ->
  exists m' h',
    clear fuel m h = Done m' h' /\
    represents [] h' m' /\
    freed h g h' /\
    size m' = size m /\ bucketCount m' = bucketCount m /\
    forall k, bucketDensity fuel m' k h' = Done 0 h'.
Proof.
  intros (Hfresh & Hcount & Hkeys & Hdatas & Hlive & t & Ht & Hlinked) Hone Hfuel.
  assert (Hfreed0 : freed h (below m g 0) h).
  { rewrite below_zero by done. apply freed_nil. }
  destruct (clear_slots_represented fuel m g h t (Z.to_nat (_hashIndices m)) 0 h
              Ht Hkeys Hdatas Hlive Hlinked Hfuel) as [Hok _]; [lia|lia|done|].
  destruct Hok as (h' & Hrun & Hfreed); [by intros|].
  replace (0 + Z.of_nat (Z.to_nat (_hashIndices m))) with (_hashIndices m) in Hfreed by lia.
  rewrite below_all in Hfreed by done.
  eexists. exists h'. split.
  { unfold clear. rewrite (bind_eq _ _ _ _ _ Hrun). unfold memsetHeads.
    rewrite Ht. reflexivity. }
  split; [|split; [done|split; [done|split; [done|]]]].
  - split; [by eapply freed_fresh|]. split; [done|].
    split; [constructor|]. split; [constructor|].
    split; [intros e He; by apply elem_of_nil in He|].
    eexists. split; [reflexivity|]. intros i. rewrite lookup_empty. constructor.
  - intros k.
    match goal with |- bucketDensity _ ?m' _ _ = _ => set (m1 := m') end.
    destruct (hashThis_spec m1 k Hcount) as [_ Hrange].
    unfold bucketDensity, bind, read_head. cbn [_heads m1].
    destruct (Z.leb_spec 0 (hashThis m1 k)); [|lia].
    destruct (Z.ltb_spec (hashThis m1 k) (_hashIndices m1)); [|lia].
    cbn [andb]. unfold ret. rewrite lookup_empty. by destruct fuel.
Qed.

(** X9.  On a container that holds two different keys of the same bucket,
    [clear] has undefined behaviour: after deleting the head of the chain,
    whose destructor frees the chain, it reads the freed second node. *)
Theorem clear_with_collision_is_undefined fuel m h g k1 k2 :
  represents g h m ->
  k1 ∈ entry_key <$> g -> k2 ∈ entry_key <$> g ->
  k1 <> k2 -> hashThis m k1 = hashThis m k2 ->
  (length g <= fuel)%nat ->
  clear fuel m h = Undefined.
Proof.
  intros (Hfresh & Hcount & Hkeys & Hdatas & Hlive & t & Ht & Hlinked) H1 H2 Hne Hhash Hfuel.
  assert (Hfreed0 : freed h (below m g 0) h).
  { rewrite below_zero by done. apply freed_nil. }
  destruct (clear_slots_represented fuel m g h t (Z.to_nat (_hashIndices m)) 0 h
              Ht Hkeys Hdatas Hlive Hlinked Hfuel) as [_ Hbad]; [lia|lia|done|].
  unfold clear, bind. rewrite Hbad; [done|].
  exists (hashThis m k1). destruct (hashThis_spec m k1 Hcount) as [_ Hrange].
  split; [lia|].
  apply (key_in_bucket m) in H1. apply (key_in_bucket m) in H2.
  rewrite <- Hhash in H2.
  destruct (bucket m g (hashThis m k1)) as [|e1 [|e2 l]]; [| |simpl; lia].
  - by apply elem_of_nil in H1.
  - apply list_elem_of_singleton in H1. apply list_elem_of_singleton in H2. congruence.
Qed.

End Clear_represented.

(** * Properties of SimpleHashMap *)

(** ** Hashing and construction *)

Lemma size_t_small z : 0 <= z < 2 ^ 64 -> Simple.size_t z = z.
Proof. intros Hz. unfold Simple.size_t. by apply Z.mod_small. Qed.

Lemma to_int_small z : 0 <= z < 2 ^ 31 -> Simple.to_int z = z.
Proof.
  intros Hz. unfold Simple.to_int. rewrite Z.mod_small by lia.
  destruct (Z.ltb_spec z (2 ^ 31)); [done|lia].
Qed.

Lemma land_upper_bound_l a b : 0 <= a -> 0 <= b -> Z.land a b <= a.
Proof. intros Ha Hb. rewrite Z.land_comm. by apply land_upper_bound. Qed.

(** X10.  [SimpleHashMap::hashThis] drops the sign of the key before
    masking: a key and its negation share a bucket.  For a table of at
    least one slot the result is [|key| & (storageSize - 1)], an index of
    the table whose bits all lie in [storageSize - 1], and the remainder of
    [|key|] when the size is a power of two.  The least [int] has no
    absolute value: the negation overflows. *)
Theorem simple_hashThis_drops_sign (m : Simple.SimpleHashMap) (key : Z) :
  0 < Simple.bucketCount m < 2 ^ 64 ->
  - 2 ^ 31 < key < 2 ^ 31 ->
  Simple.hashThis m key = Some (Z.land (Z.abs key) (Simple.bucketCount m - 1)) /\
  Simple.hashThis m (- key) = Simple.hashThis m key /\
  0 <= Z.land (Z.abs key) (Simple.bucketCount m - 1) < Simple.bucketCount m /\
  Z.land (Z.land (Z.abs key) (Simple.bucketCount m - 1)) (Simple.bucketCount m - 1)
    = Z.land (Z.abs key) (Simple.bucketCount m - 1) /\
  (power_of_two (Simple.bucketCount m) ->
     Simple.hashThis m key = Some (Z.abs key mod Simple.bucketCount m)) /\
  Simple.hashThis m (- 2 ^ 31) = None.
Proof.
  unfold Simple.bucketCount. intros Hs Hk.
  assert (Hgen : forall k, - 2 ^ 31 < k < 2 ^ 31 ->
            Simple.hashThis m k
            = Some (Z.land (Z.abs k) (Simple._storageSize m - 1))).
  { intros k Hk'. unfold Simple.hashThis.
    assert ((if k <? 0 then k * -1 else k) = Z.abs k) as ->.
    { destruct (Z.ltb_spec k 0); lia. }
    destruct (Z.ltb_spec (Z.abs k) (2 ^ 31)); [|lia].
    rewrite !size_t_small by lia. f_equal. apply to_int_small.
    split; [apply Z.land_nonneg; lia|].
    pose proof (land_upper_bound_l (Z.abs k) (Simple._storageSize m - 1)). lia. }
  split; [by apply Hgen|]. split.
  { rewrite !Hgen by lia. by rewrite Z.abs_opp. }
  split.
  { split; [apply Z.land_nonneg; lia|].
    pose proof (land_upper_bound (Z.abs key) (Simple._storageSize m - 1)). lia. }
  split.
  { rewrite <- Z.land_assoc. by rewrite Z.land_diag. }
  split; [|reflexivity].
  intros (e & He & Heq). rewrite Hgen by done. f_equal. rewrite Heq.
  by rewrite Z.sub_1_r, <- Z.ones_equiv, Z.land_ones.
Qed.

Lemma simple_hashThis_drops_sign_witness :
  Simple.hashThis (Simple.SimpleHashMap_new 8) (-3) = Some 3 /\
  Simple.hashThis (Simple.SimpleHashMap_new 8) 3
  = Simple.hashThis (Simple.SimpleHashMap_new 8) (-3).
Proof.
  destruct (simple_hashThis_drops_sign (Simple.SimpleHashMap_new 8) (-3))
    as (H1 & H2 & _).
  - vm_compute. split; reflexivity.
  - lia.
  - split; [exact H1|exact H2].
Defined.

Lemma simple_constructor_size (storageSize : Z) :
  0 <= storageSize < 2 ^ 64 ->
  0 < Simple._storageSize (Simple.SimpleHashMap_new storageSize) /\
  Simple._storageSize (Simple.SimpleHashMap_new storageSize) < 2 ^ 64.
Proof.
  intros Hs. unfold Simple.SimpleHashMap_new. cbn [Simple._storageSize].
  destruct (Z.eqb_spec storageSize 0) as [->|Hne]; [|cbn [andb]; lia].
  change (Z.land 0 (Simple.size_t (0 - 1)) =? 0) with true. cbn [andb]. lia.
Qed.

(** X11.  The constructor of [SimpleHashMap] keeps the requested size as
    it is, power of two or not, and replaces only a request of zero, by
    256. *)
Theorem simple_constructor_keeps_size (storageSize : Z) :
  0 <= storageSize < 2 ^ 64 ->
  Simple.bucketCount (Simple.SimpleHashMap_new storageSize)
  = (if decide (storageSize = 0) then 256 else storageSize) /\
  0 < Simple.bucketCount (Simple.SimpleHashMap_new storageSize) < 2 ^ 64 /\
  Simple.size (Simple.SimpleHashMap_new storageSize) = 0 /\
  Simple.empty (Simple.SimpleHashMap_new storageSize) = true.
Proof.
  intros Hs.
  assert (Heq : Simple.bucketCount (Simple.SimpleHashMap_new storageSize)
                = if decide (storageSize = 0) then 256 else storageSize).
  { unfold Simple.bucketCount, Simple.SimpleHashMap_new.
    cbn [Simple._storageSize].
    destruct (decide (storageSize = 0)) as [->|Hne]; [reflexivity|].
    by destruct (Z.eqb_spec storageSize 0). }
  rewrite Heq. split; [done|]. split; [|done].
  destruct (decide (storageSize = 0)); lia.
Qed.

Lemma simple_constructor_keeps_size_witness :
  Simple.bucketCount (Simple.SimpleHashMap_new 5) = 5 /\
  Simple.bucketCount (Simple.SimpleHashMap_new 0) = 256.
Proof.
  split.
  - destruct (simple_constructor_keeps_size 5) as [H _]; [lia|exact H].
  - destruct (simple_constructor_keeps_size 0) as [H _]; [lia|exact H].
Defined.

(** ** The destructor of SimpleHashMap *)

Section Simple_destroy.
Context {T : Type}.

Implicit Types (h : heap T) (m : Simple.SimpleHashMap).

Lemma simple_destroy_slots_empty_slot fuel m (t : gmap Z positive) (count : nat) i h :
  Simple._heads m = Some t ->
  0 <= i -> i + Z.of_nat count <= Simple._storageSize m ->
  (exists j, i <= j < i + Z.of_nat count /\ t !! j = None) ->
  forall h', Simple.destroy_slots fuel m count i h <> Done tt h'.
Proof.
  intros Ht. revert i h. induction count as [|count IH]; intros i h Hi Hle (j & Hj & Hnone) h'.
  { lia. }
  assert (Hstart : Simple.destroy_slots fuel m (S count) i h =
            bind (Simple.destroy_chain fuel (t !! i))
                 (fun _ => Simple.destroy_slots fuel m count (i + 1)) h).
  { cbn [Simple.destroy_slots]. unfold bind at 1. unfold Simple.read_head. rewrite Ht.
    destruct (Z.leb_spec 0 i); [|lia].
    destruct (Z.ltb_spec i (Simple._storageSize m)); [|lia]. done. }
  rewrite Hstart. unfold bind.
  destruct (decide (j = i)) as [->|Hne].
  - rewrite Hnone. by destruct fuel.
  - destruct (Simple.destroy_chain fuel (t !! i) h) as [[] h1| |]; [|done..].
    apply IH; [lia|lia|]. exists j. split; [lia|done].
Qed.

(** X12.  [~SimpleHashMap] cannot complete on a container that has an
    empty bucket: its [do ... while] reads [childNode] through the null
    head.  On a newly constructed container the first slot already does. *)
Theorem simple_destructor_needs_full_table fuel m (t : gmap Z positive) j (h : heap T) :
  Simple._heads m = Some t ->
  0 <= j < Simple.bucketCount m ->
  t !! j = None ->
  (forall h', Simple.SimpleHashMap_destroy fuel m h <> Done tt h') /\
  (forall storageSize, 0 <= storageSize < 2 ^ 64 ->
     Simple.SimpleHashMap_destroy fuel (Simple.SimpleHashMap_new storageSize) h
     = Undefined).
Proof.
  unfold Simple.bucketCount. intros Ht Hj Hnone. split.
  - intros h'. unfold Simple.SimpleHashMap_destroy. unfold bind at 1.
    destruct (Simple.destroy_slots fuel m (Z.to_nat (Simple._storageSize m)) 0 h)
      as [[] h1| |] eqn:Hrun; [|done..].
    exfalso. revert Hrun.
    apply (simple_destroy_slots_empty_slot fuel m t); [done|lia|lia|].
    exists j. split; [lia|done].
  - intros s Hs.
    destruct (simple_constructor_size s Hs) as [Hpos Hcount].
    unfold Simple.SimpleHashMap_destroy. unfold bind at 1.
    destruct (Z.to_nat (Simple._storageSize (Simple.SimpleHashMap_new s)))
      as [|count] eqn:Hc; [lia|].
    cbn [Simple.destroy_slots]. unfold bind at 1. unfold Simple.read_head.
    cbn [Simple._heads Simple.SimpleHashMap_new].
    destruct (Z.ltb_spec 0 (Simple._storageSize (Simple.SimpleHashMap_new s))); [|lia].
    cbn [Z.leb andb]. unfold ret, bind. rewrite lookup_empty. by destruct fuel.
Qed.

End Simple_destroy.

Lemma simple_destructor_needs_full_table_witness :
  Simple.SimpleHashMap_destroy 8 (Simple.SimpleHashMap_new 4) empty_heap = Undefined.
Proof.
  destruct (simple_destructor_needs_full_table 8 (Simple.SimpleHashMap_new 4) ∅ 0
              empty_heap) as [_ H].
  - reflexivity.
  - vm_compute. split; [discriminate|reflexivity].
  - apply lookup_empty.
  - apply H. lia.
Defined.

(** ** [SimpleHashMap::erase] *)

Section Simple_erase.
Context {T : Type}.

Implicit Types (h : heap T) (m : Simple.SimpleHashMap)
  (l : list (ptr * hash_map_ll_node * T)).

(** A chain is a chain in any heap that has its nodes and values
    unchanged. *)
Lemma chain_frame h h' q l :
  chain h q l ->
  (forall x, x ∈ l ->
     nodes h' !! link_node x = nodes h !! link_node x /\
     values h' !! link_data x = values h !! link_data x) ->
  chain h' q l.
Proof.
  induction 1 as [|a n v l Hn Hv Hrest IH]; intros Hsame; [constructor|].
  destruct (Hsame (a, n, v)) as [Hn' Hv']; [left|].
  unfold link_node, link_data in Hn', Hv'. simpl in Hn', Hv'.
  constructor; [congruence|congruence|].
  apply IH. intros x Hx. apply Hsame. by right.
Qed.

Lemma back_linked_app parent l1 x l2 :
  back_linked parent (l1 ++ x :: l2) ->
  parentNode (snd (fst x))
  = from_option (fun y => Some (link_node y)) parent (last l1).
Proof.
  revert parent. induction l1 as [|y l1 IH]; intros parent; simpl.
  - by intros [? _].
  - intros [_ Hrest]. rewrite (IH _ Hrest). destruct l1 as [|z l1]; [done|].
    change (last (y :: z :: l1)) with (last (z :: l1)).
    destruct (last (z :: l1)) eqn:E; [done|]. by apply last_None in E.
Qed.

(** The walk of [erase] up to the node that holds the key. *)
Lemma simple_erase_walk_chain fuel m i k cur h l1 x l2 :
  chain h (Some cur) (l1 ++ x :: l2) ->
  k ∉ link_key <$> l1 -> link_key x = k ->
  (length (l1 ++ x :: l2) <= fuel)%nat ->
  Simple.erase_walk fuel m i k cur h
  = bind (Simple.unlink m i (snd (fst x)))
      (fun m' => bind (Simple.delete_HashNode (link_node x)) (fun _ => ret m')) h.
Proof.
  intros Hc Hnin <- Hlen. revert fuel cur Hc Hnin Hlen.
  induction l1 as [|y l1 IH]; intros fuel cur Hc Hnin Hlen.
  - simpl in Hc. inversion Hc as [|? n v ? Hn Hv Hrest]; subst.
    destruct fuel as [|fuel]; [simpl in Hlen; lia|].
    unfold link_key, link_node. cbn [fst snd].
    cbn [Simple.erase_walk]. unfold bind at 1, load_node at 1.
    rewrite Hn, Z.eqb_refl. reflexivity.
  - rewrite <- app_comm_cons in Hc.
    inversion Hc as [|? n v ? Hn Hv Hrest]; subst.
    rewrite fmap_cons in Hnin. apply not_elem_of_cons in Hnin as [Hne Hnin].
    destruct fuel as [|fuel]; [simpl in Hlen; lia|].
    assert (Hc' : exists c, childNode n = Some c).
    { destruct (childNode n); [eauto|]. inversion Hrest as [Heq|]. by destruct l1. }
    destruct Hc' as [c Hchild]. rewrite Hchild in Hrest.
    cbn [Simple.erase_walk]. unfold bind at 1, load_node at 1. rewrite Hn.
    destruct (Z.eqb_spec (rawKey n) (link_key x)) as [Heq|_].
    { destruct Hne. by rewrite <- Heq. }
    rewrite Hchild. apply IH; try done. simpl in Hlen. lia.
Qed.

(** Taking the node [x] out of a chain in which it has the predecessor
    [p]. *)
Lemma chain_splice h q l1 p x l2 :
  chain h q (l1 ++ p :: x :: l2) ->
  NoDup (link_node <$> l1 ++ p :: x :: l2) ->
  NoDup (link_data <$> l1 ++ p :: x :: l2) ->
  chain {| nodes := delete (link_node x)
                      (<[link_node p := set_childNode (snd (fst p)) (childNode (snd (fst x)))]>
                         (nodes h));
           values := delete (link_data x) (values h);
           next_free := next_free h |} q
    (l1 ++ (link_node p, set_childNode (snd (fst p)) (childNode (snd (fst x))), snd p)
        :: l2).
Proof.
  revert q. induction l1 as [|y l1 IH]; intros q Hc Hnn Hnd.
  - simpl in *. inversion Hc as [|ap np vp ? Hp Hvp Hrest]; subst.
    inversion Hrest as [|ax nx vx ? Hx Hvx Hrest2]; subst.
    unfold link_node, link_data in *. cbn [fst snd] in *.
    apply NoDup_cons in Hnn as [Hpn Hnn]. apply NoDup_cons in Hnn as [Hxn Hnn].
    apply NoDup_cons in Hnd as [Hpd Hnd]. apply NoDup_cons in Hnd as [Hxd Hnd].
    rewrite ?fmap_cons in Hpn, Hpd. cbn [fst snd] in Hpn, Hpd.
    apply not_elem_of_cons in Hpn as [Hpx Hpn].
    apply not_elem_of_cons in Hpd as [Hpdx Hpd].
    constructor; proj.
    + rewrite lookup_delete_ne by done. apply lookup_insert_eq.
    + by rewrite lookup_delete_ne.
    + eapply chain_frame; [done|]. intros z Hz. proj. split.
      * rewrite lookup_delete_ne.
        2:{ intros Heq. apply Hxn. rewrite Heq. by apply list_elem_of_fmap_2. }
        rewrite lookup_insert_ne; [done|].
        intros Heq. apply Hpn. rewrite Heq. by apply list_elem_of_fmap_2.
      * rewrite lookup_delete_ne; [done|].
        intros Heq. apply Hxd. rewrite Heq. by apply list_elem_of_fmap_2.
  - rewrite <- !app_comm_cons in *.
    inversion Hc as [|a n v ? Hn Hv Hrest]; subst.
    rewrite !fmap_cons in Hnn, Hnd.
    apply NoDup_cons in Hnn as [Han Hnn]. apply NoDup_cons in Hnd as [Had Hnd].
    unfold link_node at 1 in Han. unfold link_data at 1 in Had. cbn [fst snd] in Han, Had.
    rewrite fmap_app, !fmap_cons in Han, Had.
    apply not_elem_of_app in Han as [_ Han]. apply not_elem_of_app in Had as [_ Had].
    apply not_elem_of_cons in Han as [Hap Han]. apply not_elem_of_cons in Han as [Hax _].
    apply not_elem_of_cons in Had as [_ Had]. apply not_elem_of_cons in Had as [Hadx _].
    constructor; proj.
    + rewrite lookup_delete_ne by done. by rewrite lookup_insert_ne.
    + by rewrite lookup_delete_ne.
    + by apply IH.
Qed.

Lemma set_slot_lookup (t : gmap Z positive) i p : set_slot t i p !! i = p.
Proof.
  unfold set_slot. destruct p; [apply lookup_insert_eq|apply lookup_delete_eq].
Qed.

Lemma set_slot_lookup_ne (t : gmap Z positive) i j p :
  j <> i -> set_slot t i p !! j = t !! j.
Proof.
  intros Hne. unfold set_slot.
  destruct p; [by rewrite lookup_insert_ne|by rewrite lookup_delete_ne].
Qed.

Lemma back_linked_split parent l r :
  back_linked parent (l ++ r) <->
  back_linked parent l /\
  back_linked (from_option (fun y => Some (link_node y)) parent (last l)) r.
Proof.
  revert parent. induction l as [|y l IH]; intros parent.
  - simpl. tauto.
  - rewrite <- app_comm_cons. cbn [back_linked]. rewrite IH.
    destruct l as [|z l]; [simpl; tauto|].
    change (last (y :: z :: l)) with (last (z :: l)).
    destruct (last (z :: l)) eqn:E; [simpl; tauto|]. by apply last_None in E.
Qed.

Lemma chain_node_live h q l1 x l2 :
  chain h q (l1 ++ x :: l2) ->
  nodes h !! link_node x = Some (snd (fst x)) /\
  values h !! link_data x = Some (snd x).
Proof.
  revert q. induction l1 as [|y l1 IH]; intros q Hq.
  - inversion Hq; subst. done.
  - rewrite <- app_comm_cons in Hq. inversion Hq; subst. eauto.
Qed.

(** What [erase] does to a chain that holds the key in the node [x]: the
    container, the heap and the chain it leaves. *)
Lemma simple_erase_spec fuel m k i (t : gmap Z positive) l1 x l2 h :
  Simple._heads m = Some t ->
  Simple.hashThis m k = Some i ->
  0 <= i < Simple._storageSize m ->
  chain h (t !! i) (l1 ++ x :: l2) ->
  back_linked None (l1 ++ x :: l2) ->
  NoDup (link_node <$> l1 ++ x :: l2) ->
  NoDup (link_data <$> l1 ++ x :: l2) ->
  link_key x = k -> k ∉ link_key <$> l1 ->
  (length (l1 ++ x :: l2) <= fuel)%nat ->
  exists m' h' (t' : gmap Z positive) l1',
    Simple.erase fuel m k h = Done m' h' /\
    Simple._heads m' = Some t' /\
    Simple._storageSize m' = Simple._storageSize m /\
    Simple._nodeCount m' = Simple._nodeCount m /\
    chain h' (t' !! i) (l1' ++ l2) /\
    link_entry <$> l1' = link_entry <$> l1 /\
    link_node <$> l1' = link_node <$> l1 /\
    (forall j, j <> i -> t' !! j = t !! j) /\
    next_free h' = next_free h /\
    values h' = delete (link_data x) (values h) /\
    nodes h' !! link_node x = None /\
    (forall b, b <> link_node x ->
       (forall p, last l1 = Some p -> b <> link_node p) ->
       nodes h' !! b = nodes h !! b) /\
    (forall p, last l1 = Some p ->
       nodes h' !! link_node p
       = Some (set_childNode (snd (fst p)) (childNode (snd (fst x))))) /\
    (back_linked None (l1' ++ l2) <-> l2 = []).
Proof.
  intros Ht Hhash Hi Hc Hback Hnn Hnd Hk Hnin Hlen.
  assert (Hcur : exists cur, t !! i = Some cur).
  { destruct (t !! i); [eauto|]. inversion Hc. by destruct l1. }
  destruct Hcur as [cur Hcur]. rewrite Hcur in Hc.
  assert (Hstart : Simple.erase fuel m k h = Simple.erase_walk fuel m i k cur h).
  { unfold Simple.erase. unfold bind at 1. unfold Simple.hashed. rewrite Hhash.
    unfold ret at 1. unfold bind at 1. unfold Simple.read_head. rewrite Ht.
    destruct (Z.leb_spec 0 i); [|lia].
    destruct (Z.ltb_spec i (Simple._storageSize m)); [|lia].
    cbn [andb]. unfold ret at 1. by rewrite Hcur. }
  rewrite Hstart, (simple_erase_walk_chain fuel m i k cur h l1 x l2) by done.
  clear Hstart.
  pose proof (back_linked_app _ _ _ _ Hback) as Hparent.
  destruct (chain_node_live _ _ _ _ _ Hc) as [Hn Hv].
  destruct x as [[a n] v]. unfold link_node, link_data, link_key in *.
  cbn [fst snd] in *.
  assert (Hdel : forall h0,
            nodes h0 !! a = Some n -> values h0 = values h ->
            Simple.delete_HashNode a h0
            = Done tt {| nodes := delete a (nodes h0);
                         values := delete (dataPointer n) (values h);
                         next_free := next_free h0 |}).
  { intros h0 HN HV. unfold Simple.delete_HashNode, bind, load_node. rewrite HN.
    unfold delete_value. rewrite HV, Hv. unfold release_node. proj. by rewrite HN. }
  destruct l1 as [|p l1 _] using rev_ind.
  - (* the node is the head of the bucket *)
    simpl in Hparent, Hc, Hnn, Hnd, Hback.
    assert (Hun : Simple.unlink m i n h
                  = Done {| Simple._storageSize := Simple._storageSize m;
                            Simple._nodeCount := Simple._nodeCount m;
                            Simple._heads := Some (set_slot t i (childNode n)) |} h).
    { unfold Simple.unlink. rewrite Hparent. unfold Simple.write_head. rewrite Ht.
      destruct (Z.leb_spec 0 i); [|lia].
      destruct (Z.ltb_spec i (Simple._storageSize m)); [|lia]. done. }
    eexists. eexists. exists (set_slot t i (childNode n)), []. split.
    { rewrite (bind_eq _ _ _ _ _ Hun).
      rewrite (bind_eq _ _ _ _ _ (Hdel h Hn eq_refl)). reflexivity. }
    split; [done|]. split; [done|]. split; [done|]. split.
    { rewrite set_slot_lookup. inversion Hc as [|? ? ? ? _ _ Hrest]; subst.
      apply NoDup_cons in Hnn as [Han _]. apply NoDup_cons in Hnd as [Had _].
      eapply chain_frame; [done|]. intros z Hz. proj. split.
      - rewrite lookup_delete_ne; [done|].
        intros Heq. apply Han. rewrite Heq. by apply list_elem_of_fmap_2.
      - rewrite lookup_delete_ne; [done|].
        intros Heq. apply Had. rewrite Heq. by apply list_elem_of_fmap_2. }
    split; [done|]. split; [done|].
    split; [intros j Hj; by apply set_slot_lookup_ne|].
    proj. split; [done|]. split; [done|].
    split; [apply lookup_delete_eq|].
    split; [intros b Hb _; by rewrite lookup_delete_ne|].
    split; [intros p Hp; discriminate|].
    simpl. destruct l2 as [|s l3]; [done|].
    destruct Hback as (_ & Hs & _). simpl. split; [|done].
    intros [Hs' _]. unfold link_node in Hs. cbn [fst snd] in Hs. congruence.
  - (* the node has the predecessor [p] *)
    rewrite last_snoc in Hparent. simpl in Hparent.
    rewrite <- app_assoc in Hc, Hnn, Hnd, Hback. simpl in Hc, Hnn, Hnd, Hback.
    destruct (chain_node_live _ _ _ _ _ Hc) as [Hp _].
    destruct p as [[ap np] vp]. unfold link_node in Hparent, Hp.
    cbn [fst snd] in Hparent, Hp.
    assert (Hpa : ap <> a).
    { intros ->. rewrite fmap_app in Hnn. apply NoDup_app in Hnn as (_ & _ & Hnn).
      rewrite !fmap_cons in Hnn. apply NoDup_cons in Hnn as [Hnn _].
      apply Hnn. left. }
    assert (Hun : Simple.unlink m i n h
                  = Done m {| nodes := <[ap := set_childNode np (childNode n)]> (nodes h);
                              values := values h; next_free := next_free h |}).
    { unfold Simple.unlink. rewrite Hparent. unfold bind, load_node. rewrite Hp.
      unfold store_node. rewrite Hp. reflexivity. }
    eexists. eexists. exists t, (l1 ++ [(ap, set_childNode np (childNode n), vp)]).
    split.
    { rewrite (bind_eq _ _ _ _ _ Hun).
      erewrite bind_eq; [reflexivity|].
      apply Hdel; [|done]. proj. by rewrite lookup_insert_ne by done. }
    split; [done|]. split; [done|]. split; [done|]. split.
    { rewrite Hcur, <- app_assoc.
      apply (chain_splice h (Some cur) l1 (ap, np, vp) (a, n, v) l2 Hc Hnn Hnd). }
    split; [by rewrite !fmap_app|]. split; [by rewrite !fmap_app|].
    split; [done|]. proj. split; [done|]. split; [done|].
    split; [apply lookup_delete_eq|].
    split.
    { intros b Hb Hbp. rewrite lookup_delete_ne by done.
      rewrite lookup_insert_ne; [done|].
      intros <-. by apply (Hbp (ap, np, vp)); [apply last_snoc|]. }
    split.
    { intros p Hlast. rewrite last_snoc in Hlast. injection Hlast as <-.
      unfold link_node. cbn [fst snd].
      rewrite lookup_delete_ne by done. apply lookup_insert_eq. }
    rewrite <- app_assoc. simpl.
    apply back_linked_split in Hback as [Hb1 Hb2].
    rewrite back_linked_split. cbn [back_linked] in Hb2 |- *.
    destruct Hb2 as (Hpp & _ & Hb2). unfold link_node in Hb2 |- *.
    cbn [fst snd parentNode set_childNode] in Hb2 |- *.
    destruct l2 as [|s l3]; [by split_and!|].
    split; [|done]. intros (_ & _ & Hs' & _).
    destruct Hb2 as [Hs _]. congruence.
Qed.

(** X13.  On a chain in which every node has its predecessor as
    [parentNode] (the head has none), as [operator[]] builds it,
    [SimpleHashMap::erase] of a key held by the node [x] frees that node
    and its value and nothing else: every other value and every node but
    the predecessor of [x] is left as it was, the predecessor gets the
    successor of [x] as its child (the table slot does, when [x] was the
    head), the chain keeps the other keys, in order, in the nodes and with
    the values they had, and the other buckets are not touched.  [size()]
    stays what it was.  The successor of [x] keeps the freed node as its
    [parentNode]: the chain left is linked backwards as [erase] expects
    only when [x] was the last node. *)
Theorem simple_erase_removes_one_node fuel m k i (t : gmap Z positive) l1 x l2 h :
  Simple._heads m = Some t ->
  Simple.hashThis m k = Some i ->
  0 <= i < Simple.bucketCount m ->
  chain h (t !! i) (l1 ++ x :: l2) ->
  back_linked None (l1 ++ x :: l2) ->
  NoDup (link_node <$> l1 ++ x :: l2) ->
  NoDup (link_data <$> l1 ++ x :: l2) ->
  link_key x = k -> k ∉ link_key <$> l1 ->
  (length (l1 ++ x :: l2) <= fuel)%nat ->
  exists m' h' (t' : gmap Z positive) l',
    Simple.erase fuel m k h = Done m' h' /\
    Simple._heads m' = Some t' /\
    Simple.size m' = Simple.size m /\
    Simple.bucketCount m' = Simple.bucketCount m /\
    (forall j, j <> i -> t' !! j = t !! j) /\
    chain h' (t' !! i) l' /\
    link_entry <$> l' = link_entry <$> (l1 ++ l2) /\
    link_node <$> l' = link_node <$> (l1 ++ l2) /\
    next_free h' = next_free h /\
    nodes h' !! link_node x = None /\
    values h' = delete (link_data x) (values h) /\
    (forall b, b <> link_node x ->
       (forall p, last l1 = Some p -> b <> link_node p) ->
       nodes h' !! b = nodes h !! b) /\
    (forall p, last l1 = Some p ->
       nodes h' !! link_node p
       = Some (set_childNode (snd (fst p)) (childNode (snd (fst x))))) /\
    (forall s, head l2 = Some s ->
       nodes h' !! link_node s = Some (snd (fst s)) /\
       parentNode (snd (fst s)) = Some (link_node x)) /\
    (back_linked None l' <-> l2 = []).
Proof.
  unfold Simple.bucketCount, Simple.size.
  intros Ht Hhash Hi Hc Hback Hnn Hnd Hk Hnin Hlen.
  destruct (simple_erase_spec fuel m k i t l1 x l2 h)
    as (m' & h' & t' & l1' & Hrun & Ht' & Hsz & Hcount & Hc' & Hentries & Hnodes
        & Hslots & Hfree & Hvals & Hgone & Hframe & Hpred & Hbl); try done.
  exists m', h', t', (l1' ++ l2). split_and!; try done.
  - by rewrite !fmap_app, Hentries.
  - by rewrite !fmap_app, Hnodes.
  - intros s Hs. destruct l2 as [|s' l3]; [done|]. injection Hs as ->. split.
    + by destruct (chain_node_live _ _ _ _ _ Hc').
    + replace (l1 ++ x :: s :: l3) with ((l1 ++ [x]) ++ s :: l3) in Hback
        by (by rewrite <- app_assoc).
      apply back_linked_app in Hback. by rewrite last_snoc in Hback.
Qed.

(** X18.  After [SimpleHashMap::erase] has removed a node that has a
    successor, [erase] of the successor's key has undefined behaviour: the
    successor still names the freed node as its [parentNode], and the
    splice writes the [childNode] of that node. *)
Theorem simple_erase_of_successor_is_undefined
    fuel m k i (t : gmap Z positive) l1 x s l3 h :
  Simple._heads m = Some t ->
  Simple.hashThis m k = Some i ->
  Simple.hashThis m (link_key s) = Some i ->
  0 <= i < Simple.bucketCount m ->
  chain h (t !! i) (l1 ++ x :: s :: l3) ->
  back_linked None (l1 ++ x :: s :: l3) ->
  NoDup (link_node <$> l1 ++ x :: s :: l3) ->
  NoDup (link_data <$> l1 ++ x :: s :: l3) ->
  NoDup (link_key <$> l1 ++ x :: s :: l3) ->
  link_key x = k ->
  (length (l1 ++ x :: s :: l3) <= fuel)%nat ->
  exists m' h',
    Simple.erase fuel m k h = Done m' h' /\
    Simple.erase fuel m' (link_key s) h' = Undefined.
Proof.
  unfold Simple.bucketCount.
  intros Ht Hhash Hhs Hi Hc Hback Hnn Hnd Hnk Hk Hlen.
  assert (Hnin : k ∉ link_key <$> l1).
  { rewrite fmap_app in Hnk. apply NoDup_app in Hnk as (_ & Hnk & _).
    intros Hin. apply (Hnk _ Hin). rewrite fmap_cons, Hk. left. }
  assert (Hsnin : link_key s ∉ link_key <$> l1).
  { rewrite fmap_app in Hnk. apply NoDup_app in Hnk as (_ & Hnk & _).
    intros Hin. apply (Hnk _ Hin). rewrite !fmap_cons. right. left. }
  destruct (simple_erase_spec fuel m k i t l1 x (s :: l3) h)
    as (m' & h' & t' & l1' & Hrun & Ht' & Hsz & _ & Hc' & Hentries & _
        & _ & _ & _ & Hgone & _); try done.
  exists m', h'. split; [done|].
  assert (Hkeys : link_key <$> l1' = link_key <$> l1).
  { transitivity (fst <$> (link_entry <$> l1')).
    - by rewrite <- list_fmap_compose.
    - rewrite Hentries. by rewrite <- list_fmap_compose. }
  assert (Hlen' : length l1' = length l1).
  { by rewrite <- (length_fmap link_entry l1'), Hentries, length_fmap. }
  assert (Hcur : exists cur, t' !! i = Some cur).
  { destruct (t' !! i); [eauto|]. inversion Hc'. by destruct l1'. }
  destruct Hcur as [cur Hcur]. rewrite Hcur in Hc'.
  assert (Hstart : Simple.erase fuel m' (link_key s) h'
                   = Simple.erase_walk fuel m' i (link_key s) cur h').
  { unfold Simple.erase. unfold bind at 1. unfold Simple.hashed.
    assert (Hh' : Simple.hashThis m' (link_key s) = Some i).
    { rewrite <- Hhs. unfold Simple.hashThis. by rewrite Hsz. }
    rewrite Hh'. unfold ret at 1. unfold bind at 1. unfold Simple.read_head.
    rewrite Ht', Hsz.
    destruct (Z.leb_spec 0 i); [|lia].
    destruct (Z.ltb_spec i (Simple._storageSize m)); [|lia].
    cbn [andb]. unfold ret at 1. by rewrite Hcur. }
  rewrite Hstart, (simple_erase_walk_chain fuel m' i (link_key s) cur h' l1' s l3);
    try done.
  - replace (l1 ++ x :: s :: l3) with ((l1 ++ [x]) ++ s :: l3) in Hback
      by (by rewrite <- app_assoc).
    apply back_linked_app in Hback. rewrite last_snoc in Hback. simpl in Hback.
    unfold bind at 1. unfold Simple.unlink. rewrite Hback.
    unfold bind at 1. unfold load_node. by rewrite Hgone.
  - by rewrite Hkeys.
  - rewrite length_app in Hlen |- *. simpl in Hlen |- *. lia.
Qed.

End Simple_erase.

(** ** [SimpleHashMap::bucketDensity] and [SimpleHashMap::clear] *)

Section Simple_queries.
Context {T : Type}.

Implicit Types (h : heap T) (m : Simple.SimpleHashMap)
  (l : list (ptr * hash_map_ll_node * T)).

Lemma size_t_succ c : Simple.size_t (Simple.size_t c + 1) = Simple.size_t (c + 1).
Proof. unfold Simple.size_t. by rewrite Zplus_mod_idemp_l. Qed.

Lemma simple_density_walk_chain fuel c a h l :
  chain h (Some a) l -> (length l <= fuel)%nat ->
  Simple.density_walk fuel (Simple.size_t (c + 1)) a h
  = Done (Simple.size_t (c + Z.of_nat (length l))) h.
Proof.
  revert fuel c a. induction l as [|x l IH]; intros fuel c a Hc Hlen; [inversion Hc|].
  inversion Hc as [|? n v ? Hn Hv Hrest]; subst.
  destruct fuel as [|fuel]; [simpl in Hlen; lia|].
  cbn [Simple.density_walk]. unfold bind, load_node. rewrite Hn.
  destruct (childNode n) as [c'|] eqn:Hchild.
  - rewrite size_t_succ. rewrite (IH fuel (c + 1) c') by (done || simpl in Hlen; lia).
    do 2 f_equal. simpl length. lia.
  - inversion Hrest; subst. unfold ret. do 2 f_equal.
Qed.

(** X14.  [SimpleHashMap::bucketDensity] returns the number of nodes of
    the chain of the key's bucket, as a [size_t], and changes nothing. *)
Theorem simple_bucketDensity_counts_chain fuel m k i (t : gmap Z positive) l h :
  Simple._heads m = Some t ->
  Simple.hashThis m k = Some i ->
  0 <= i < Simple.bucketCount m ->
  chain h (t !! i) l ->
  (length l <= fuel)%nat ->
  Simple.bucketDensity fuel m k h = Done (Simple.size_t (Z.of_nat (length l))) h.
Proof.
  unfold Simple.bucketCount. intros Ht Hhash Hi Hc Hlen.
  unfold Simple.bucketDensity. unfold bind at 1. unfold Simple.hashed. rewrite Hhash.
  unfold ret at 1. unfold bind at 1. unfold Simple.read_head. rewrite Ht.
  destruct (Z.leb_spec 0 i); [|lia].
  destruct (Z.ltb_spec i (Simple._storageSize m)); [|lia].
  cbn [andb]. unfold ret at 1.
  destruct (t !! i) as [a|].
  - by rewrite (simple_density_walk_chain fuel 0 a h l).
  - inversion Hc. reflexivity.
Qed.

(** The loop of [clear] from slot [i], on a table whose heads are live
    nodes, each heading one slot and owning a value of its own. *)
Lemma simple_clear_slots_spec m (t : gmap Z positive) h (count : nat) i hi :
  Simple._heads m = Some t ->
  heads_owned h t ->
  Simple._storageSize m <= 2 ^ 31 ->
  0 <= i -> i + Z.of_nat count <= Simple._storageSize m ->
  heads_released h t i hi ->
  exists h',
    Simple.clear_slots m count i hi = Done tt h' /\
    heads_released h t (i + Z.of_nat count) h'.
Proof.
  intros Ht (Hlive & Hinj & Hdata) Hint. revert i hi.
  induction count as [|count IH]; intros i hi Hi Hle Hrel.
  { exists hi. split; [done|]. by replace (i + Z.of_nat 0) with i by lia. }
  assert (Hstart : Simple.clear_slots m (S count) i hi =
            bind (match t !! i with
                  | Some a => Simple.delete_HashNode a
                  | None => ret tt
                  end)
                 (fun _ => Simple.clear_slots m count (i + 1)) hi).
  { cbn [Simple.clear_slots]. rewrite to_int_small by lia.
    unfold bind at 1. unfold Simple.read_head. rewrite Ht.
    destruct (Z.leb_spec 0 i); [|lia].
    destruct (Z.ltb_spec i (Simple._storageSize m)); [|lia]. done. }
  rewrite Hstart. clear Hstart.
  replace (i + Z.of_nat (S count)) with (i + 1 + Z.of_nat count) by lia.
  destruct Hrel as (Hgone & Hkept & Hvgone & Hvkept).
  destruct (t !! i) as [a|] eqn:Hslot.
  - destruct (Hlive i a Hslot) as (n & Hn & v & Hv).
    assert (Hna : nodes hi !! a = Some n).
    { rewrite Hkept; [done|].
      intros (j & Hj & Hx). assert (j = i) by (by eapply Hinj). lia. }
    assert (Hva : values hi !! dataPointer n = Some v).
    { rewrite Hvkept; [done|].
      intros (j & a' & n' & Hj & Ha' & Hn' & Hd).
      assert (j = i) by (by eapply (Hdata j i a' a n' n)). lia. }
    assert (Hdel : Simple.delete_HashNode a hi
              = Done tt {| nodes := delete a (nodes hi);
                           values := delete (dataPointer n) (values hi);
                           next_free := next_free hi |}).
    { unfold Simple.delete_HashNode, bind, load_node. rewrite Hna.
      unfold delete_value. rewrite Hva. unfold release_node. proj. by rewrite Hna. }
    rewrite (bind_eq _ _ _ _ _ Hdel). apply IH; [lia|lia|].
    split_and!; proj.
    + intros x (j & Hj & Hx). destruct (decide (x = a)) as [->|Hne].
      * by rewrite lookup_delete_eq.
      * rewrite lookup_delete_ne by done. apply Hgone.
        exists j. split; [|done].
        destruct (decide (j = i)) as [->|]; [congruence|lia].
    + intros x Hx. rewrite lookup_delete_ne.
      * apply Hkept. intros (j & Hj & Hj'). apply Hx. exists j. split; [lia|done].
      * intros <-. apply Hx. exists i. split; [lia|done].
    + intros y (j & a' & n' & Hj & Ha' & Hn' & Hd).
      destruct (decide (y = dataPointer n)) as [->|Hne].
      * by rewrite lookup_delete_eq.
      * rewrite lookup_delete_ne by done. apply Hvgone.
        exists j, a', n'. split_and!; try done; try lia.
        destruct (decide (j = i)) as [->|]; [|lia].
        congruence.
    + intros y Hy. rewrite lookup_delete_ne.
      * apply Hvkept. intros (j & a' & n' & Hj & Hrest). apply Hy.
        exists j, a', n'. split; [lia|done].
      * intros <-. apply Hy. exists i, a, n. split_and!; try done; lia.
  - unfold bind, ret. apply IH; [lia|lia|].
    split_and!.
    + intros x (j & Hj & Hx). apply Hgone. exists j. split; [|done].
      destruct (decide (j = i)) as [->|]; [congruence|lia].
    + intros x Hx. apply Hkept. intros (j & Hj & Hj'). apply Hx.
      exists j. split; [lia|done].
    + intros y (j & a' & n' & Hj & Ha' & Hrest). apply Hvgone.
      exists j, a', n'. split; [|done].
      destruct (decide (j = i)) as [->|]; [congruence|lia].
    + intros y Hy. apply Hvkept. intros (j & a' & n' & Hj & Hrest). apply Hy.
      exists j, a', n'. split; [lia|done].
Qed.

(** X15.  [SimpleHashMap::clear] deletes the head node of every bucket and
    its value, and nothing else: a node further down a chain stays
    allocated, while the table that led to it is reset, and the element
    count is left as it was. *)
Theorem simple_clear_frees_heads_only m (t : gmap Z positive) h :
  Simple._heads m = Some t ->
  0 <= Simple.bucketCount m <= 2 ^ 31 ->
  heads_owned h t ->
  exists m' h',
    Simple.clear m h = Done m' h' /\
    Simple._heads m' = Some ∅ /\
    Simple.size m' = Simple.size m /\
    Simple.bucketCount m' = Simple.bucketCount m /\
    heads_released h t (Simple.bucketCount m) h' /\
    (forall i a n c, t !! i = Some a -> 0 <= i < Simple.bucketCount m ->
       nodes h !! a = Some n -> childNode n = Some c ->
       (forall j, t !! j <> Some c) ->
       nodes h' !! a = None /\ nodes h' !! c = nodes h !! c).
Proof.
  unfold Simple.bucketCount. intros Ht Hsz Hown.
  destruct (simple_clear_slots_spec m t h (Z.to_nat (Simple._storageSize m)) 0 h)
    as (h' & Hrun & Hrel); try done; try lia.
  { split_and!; try done.
    - intros x (j & Hj & _). lia.
    - intros y (j & a & n & Hj & _). lia. }
  replace (0 + Z.of_nat (Z.to_nat (Simple._storageSize m)))
    with (Simple._storageSize m) in Hrel by lia.
  unfold Simple.clear. rewrite (bind_eq _ _ _ _ _ Hrun).
  unfold Simple.memsetHeads. rewrite Ht.
  eexists _, h'. split; [reflexivity|]. split_and!; try done.
  intros i a n c Ha Hi Hn Hc Hnot. destruct Hrel as (Hgone & Hkept & _). split.
  - apply Hgone. by exists i.
  - apply Hkept. intros (j & _ & Hj). by apply (Hnot j).
Qed.

End Simple_queries.

(** ** [SimpleHashMap::operator[]] *)

Section Simple_access.
Context {T : Type} (default_value : T).

Implicit Types (h : heap T) (m : Simple.SimpleHashMap).

Lemma simple_index_walk_found fuel m k cur h l :
  chain h (Some cur) l -> k ∈ link_key <$> l -> (length l <= fuel)%nat ->
  exists x, x ∈ l /\ link_key x = k /\
    Simple.index_walk default_value fuel m k cur h = Done (link_data x, m) h.
Proof.
  revert cur fuel. induction l as [|[[a n] v] l IH]; intros cur fuel Hc Hin Hlen.
  { inversion Hc. }
  inversion Hc as [|? ? ? ? Hn Hv Hrest]; subst.
  destruct fuel as [|fuel]; [simpl in Hlen; lia|].
  cbn [Simple.index_walk]. unfold bind, load_node. rewrite Hn.
  destruct (Z.eqb_spec (rawKey n) k) as [Heq|Hne].
  - exists (a, n, v). split; [left|]. done.
  - destruct (childNode n) as [c|] eqn:Hchild.
    + destruct (IH c fuel) as (x & Hx & Hk & Hw).
      * done.
      * rewrite fmap_cons in Hin. apply elem_of_cons in Hin as [Heq|Hin]; [|done].
        by destruct Hne.
      * simpl in Hlen. lia.
      * exists x. split; [by right|done].
    + inversion Hrest; subst.
      rewrite fmap_cons in Hin. apply elem_of_cons in Hin as [Heq|Hin].
      * by destruct Hne.
      * by apply elem_of_nil in Hin.
Qed.

Lemma simple_index_walk_appends fuel m k cur h l :
  heap_fresh h ->
  chain h (Some cur) l -> k ∉ link_key <$> l -> (length l <= fuel)%nat ->
  exists p h1,
    Simple.index_walk default_value fuel m k cur h = Done (p, Simple.count_up m) h1 /\
    values h1 !! p = Some default_value /\
    values h !! p = None /\
    (forall x n, nodes h !! x = Some n -> is_Some (childNode n) ->
                 nodes h1 !! x = Some n) /\
    (forall fuel' m2, (length l < fuel')%nat ->
        Simple.index_walk default_value fuel' m2 k cur h1 = Done (p, m2) h1).
Proof.
  intros Hfresh. revert cur fuel.
  induction l as [|[[a n] v] l IH]; intros cur fuel Hc Hin Hlen.
  { inversion Hc. }
  inversion Hc as [|? ? ? ? Hn Hv Hrest]; subst.
  destruct fuel as [|fuel]; [simpl in Hlen; lia|].
  rewrite fmap_cons in Hin. apply not_elem_of_cons in Hin as [Hne Hin].
  unfold link_key in Hne; simpl in Hne.
  cbn [Simple.index_walk]. unfold bind at 1, load_node at 1. rewrite Hn.
  destruct (Z.eqb_spec (rawKey n) k) as [Heq|_]; [by destruct Hne|].
  destruct (childNode n) as [c|] eqn:Hchild.
  - destruct (IH c fuel) as (p & h1 & Hw & Hp & Hold & Hframe & Hagain); [done..|simpl in Hlen; lia|].
    exists p, h1. split; [done|]. split; [done|]. split; [done|]. split; [done|].
    intros fuel' m2 Hf. destruct fuel' as [|fuel']; [lia|].
    cbn [Simple.index_walk]. unfold bind, load_node.
    rewrite (Hframe a n Hn) by (rewrite Hchild; eauto).
    destruct (Z.eqb_spec (rawKey n) k) as [Heq|_]; [by destruct Hne|].
    rewrite Hchild. apply Hagain. simpl in Hf. lia.
  - inversion Hrest; subst.
    destruct (heap_fresh_lookup h (next_free h)) as [Hfn Hfv]; [done|lia|].
    destruct (heap_fresh_lookup h (Pos.succ (next_free h))) as [_ Hfv']; [done|lia|].
    assert (Hca : a <> next_free h) by (intros ->; congruence).
    exists (Pos.succ (next_free h)).
    eexists. split.
    { unfold bind, new_node, bind, new_address, new_value, construct_node, ret,
        store_node, construct_node, load_node. proj.
      rewrite lookup_insert_ne by done. rewrite Hn. proj.
      rewrite lookup_insert_ne by done. rewrite lookup_insert_eq. proj.
      reflexivity. }
    proj. split; [by rewrite lookup_insert_eq|]. split; [done|]. split.
    { intros x n' Hx [c Hc']. destruct (decide (x = a)) as [->|Hxc].
      - congruence.
      - rewrite lookup_insert_ne by done.
        rewrite lookup_insert_ne; [done|]. intros <-. congruence. }
    intros fuel' m2 Hf. simpl in Hf.
    destruct fuel' as [|[|fuel']]; [lia..|].
    cbn [Simple.index_walk]. unfold bind, load_node. proj.
    rewrite lookup_insert_eq. proj.
    destruct (Z.eqb_spec (rawKey n) k) as [Heq|_]; [by destruct Hne|].
    cbn [Simple.index_walk]. unfold bind, load_node. proj.
    rewrite lookup_insert_ne by done. rewrite lookup_insert_eq. proj.
    rewrite Z.eqb_refl. reflexivity.
Qed.

(** X16.  [SimpleHashMap::operator[]] on a bucket that is a well-formed
    chain returns a reference, and a second call for the same key returns
    the same reference and changes nothing.  For a key the chain does not
    hold the first call creates a default value in a new object and adds 1
    to [size()] (as a [size_t]); for a key it holds the first call changes
    nothing either. *)
Theorem simple_get_or_insert_twice fuel m k i h (t : gmap Z positive) l :
  heap_fresh h ->
  Simple._heads m = Some t ->
  Simple.hashThis m k = Some i ->
  0 <= i < Simple.bucketCount m ->
  chain h (t !! i) l ->
  (length l < fuel)%nat ->
  exists p m1 h1,
    Simple.operator_index default_value fuel m k h = Done (p, m1) h1 /\
    Simple.operator_index default_value fuel m1 k h1 = Done (p, m1) h1 /\
    is_Some (values h1 !! p) /\
    Simple.bucketCount m1 = Simple.bucketCount m /\
    (k ∉ link_key <$> l ->
       Simple.size m1 = Simple.size_t (Simple.size m + 1) /\
       values h !! p = None /\ values h1 !! p = Some default_value) /\
    (k ∈ link_key <$> l -> m1 = m /\ h1 = h).
Proof.
  unfold Simple.bucketCount. intros Hfresh Hheads Hhash Hrange Hchain Hfuel.
  assert (Hchk : (0 <=? i) && (i <? Simple._storageSize m) = true).
  { apply andb_true_iff. split; [apply Z.leb_le|apply Z.ltb_lt]; lia. }
  assert (Hop : forall m2 h2 (t2 : gmap Z positive),
            Simple._storageSize m2 = Simple._storageSize m ->
            Simple._heads m2 = Some t2 ->
            Simple.operator_index default_value fuel m2 k h2
            = match t2 !! i with
              | None =>
                  bind (new_node default_value k None) (fun a =>
                  bind (Simple.write_head m2 i (Some a)) (fun m' =>
                  bind (load_node a) (fun n =>
                  ret (dataPointer n, Simple.count_up m')))) h2
              | Some c => Simple.index_walk default_value fuel m2 k c h2
              end).
  { intros m2 h2 t2 Hs Ht2. unfold Simple.operator_index.
    unfold bind at 1. unfold Simple.hashed.
    assert (Hh2 : Simple.hashThis m2 k = Some i).
    { rewrite <- Hhash. unfold Simple.hashThis. by rewrite Hs. }
    rewrite Hh2. unfold ret at 1. unfold bind at 1. unfold Simple.read_head.
    rewrite Ht2, Hs, Hchk. unfold ret at 1. by destruct (t2 !! i). }
  rewrite (Hop m h t eq_refl Hheads).
  destruct (t !! i) as [cur|] eqn:Hslot.
  - destruct (decide (k ∈ link_key <$> l)) as [Hin|Hnin].
    + destruct (simple_index_walk_found fuel m k cur h l) as (x & Hx & Hk & Hw); [done..|lia|].
      exists (link_data x), m, h. rewrite Hw.
      split; [done|]. split.
      { rewrite (Hop m h t eq_refl Hheads), Hslot. done. }
      split; [by eapply chain_value_live|]. split; [done|]. done.
    + destruct (simple_index_walk_appends fuel m k cur h l)
        as (p & h1 & Hw & Hp & Hold & _ & Hagain); [done..|lia|].
      exists p, (Simple.count_up m), h1. rewrite Hw.
      split; [done|]. split.
      { rewrite (Hop (Simple.count_up m) h1 t eq_refl Hheads), Hslot. by apply Hagain. }
      split; [eauto|]. split; [done|]. split; [|done].
      intros _. done.
  - inversion Hchain; subst.
    exists (Pos.succ (next_free h)). eexists. eexists.
    split.
    { unfold bind, new_node, bind, new_address, new_value, construct_node, ret,
        Simple.write_head. proj. rewrite Hheads, Hchk. unfold ret, load_node. proj.
      rewrite lookup_insert_eq. proj. reflexivity. }
    split.
    { erewrite Hop; [|reflexivity|reflexivity].
      unfold set_slot. rewrite lookup_insert_eq.
      destruct fuel as [|fuel]; [simpl in Hfuel; lia|].
      cbn [Simple.index_walk]. unfold bind, load_node. proj.
      rewrite lookup_insert_eq. proj. rewrite Z.eqb_refl. reflexivity. }
    proj. rewrite lookup_insert_eq. split; [eauto|]. split; [done|]. split.
    + intros _. split; [done|]. split; [|done]. apply heap_fresh_lookup; [done|lia].
    + intros Hin. by apply elem_of_nil in Hin.
Qed.

End Simple_access.

(** ** The theorems above at containers holding one and two keys *)

Lemma one_key_represents :
  represents [(1, 1%positive, 2%positive)] one_key_heap one_key_map.
Proof.
  split; [exact one_key_heap_fresh|]. split; [vm_compute; split; reflexivity|].
  split; [apply NoDup_singleton|]. split; [apply NoDup_singleton|].
  split.
  - intros e He. apply list_elem_of_singleton in He. subst e. by exists 10.
  - exists {[ 1 := 1%positive ]}. split; [reflexivity|]. intros i.
    destruct (decide (i = 1)) as [->|Hne].
    + rewrite lookup_singleton_eq.
      apply (linked_cons one_key_heap None 1%positive
               (mk_node 1 2%positive None None) []); [reflexivity|reflexivity|constructor].
    + rewrite lookup_singleton_ne by done.
      unfold bucket. rewrite filter_cons_False; [constructor|].
      intros Hi. apply Hne. rewrite <- Hi. reflexivity.
Defined.

Lemma two_key_reached :
  put_all 8 (hash_map_new 256) [(1, 10); (257, 20)] empty_heap
  = Done two_key_map two_key_heap.
Proof. vm_compute. reflexivity. Qed.

Lemma two_key_heap_fresh : heap_fresh two_key_heap.
Proof.
  split; unfold two_key_heap; cbn [nodes values next_free].
  - apply map_Forall_insert_2; [lia|apply map_Forall_singleton; lia].
  - apply map_Forall_insert_2; [lia|apply map_Forall_singleton; lia].
Defined.

Lemma two_key_represents :
  represents [(1, 1%positive, 2%positive); (257, 3%positive, 4%positive)]
    two_key_heap two_key_map.
Proof.
  split; [exact two_key_heap_fresh|]. split; [vm_compute; split; reflexivity|].
  split; [apply NoDup_cons; split; [|apply NoDup_singleton];
          intros Hin; apply list_elem_of_singleton in Hin; discriminate|].
  split; [apply NoDup_cons; split; [|apply NoDup_singleton];
          intros Hin; apply list_elem_of_singleton in Hin; discriminate|].
  split.
  - intros e He. apply elem_of_cons in He as [->|He]; [by exists 10|].
    apply list_elem_of_singleton in He. subst e. by exists 20.
  - exists {[ 1 := 1%positive ]}. split; [reflexivity|]. intros i.
    destruct (decide (i = 1)) as [->|Hne].
    + rewrite lookup_singleton_eq.
      apply (linked_cons two_key_heap None 1%positive
               (mk_node 1 2%positive None (Some 3%positive))
               [(257, 3%positive, 4%positive)]); [reflexivity|reflexivity|].
      apply (linked_cons two_key_heap (Some 1%positive) 3%positive
               (mk_node 257 4%positive (Some 1%positive) None) []);
        [reflexivity|reflexivity|constructor].
    + rewrite lookup_singleton_ne by done.
      unfold bucket. rewrite filter_cons_False.
      * rewrite filter_cons_False; [constructor|].
        intros Hi. apply Hne. rewrite <- Hi. reflexivity.
      * intros Hi. apply Hne. rewrite <- Hi. reflexivity.
Defined.

Lemma put_then_get_witness :
  exists m1 h1,
    put 0 8 one_key_map 257 20 one_key_heap = Done m1 h1 /\
    get 0 8 m1 257 h1 = Done (20, m1) h1.
Proof.
  apply (put_then_get 0 8 one_key_map 257 20 one_key_heap
           [(1, 1%positive, 2%positive)]).
  - exact one_key_represents.
  - simpl. lia.
Defined.

Lemma put_keeps_other_keys_witness :
  exists m1 h1,
    put 0 8 one_key_map 257 20 one_key_heap = Done m1 h1 /\
    get 0 8 m1 1 h1 = Done (10, m1) h1.
Proof.
  apply (put_keeps_other_keys 0 8 one_key_map 257 20 1 10 one_key_heap
           [(1, 1%positive, 2%positive)]).
  - exact one_key_represents.
  - exists 1%positive, 2%positive. split; [apply list_elem_of_singleton|]; reflexivity.
  - discriminate.
  - simpl. lia.
Defined.

Lemma get_missing_key_inserts_default_witness :
  exists m1 h1,
    get 0 8 one_key_map 257 one_key_heap = Done (0, m1) h1 /\
    size m1 = 2 /\ bucketCount m1 = 256.
Proof.
  destruct (get_missing_key_inserts_default 0 8 one_key_map 257 one_key_heap
              [(1, 1%positive, 2%positive)])
    as (m1 & h1 & e & Hget & _ & _ & Hsize & Hcount & _).
  - exact one_key_represents.
  - intros Hin. apply list_elem_of_singleton in Hin. discriminate.
  - simpl. lia.
  - exists m1, h1. split; [exact Hget|]. split; [exact Hsize|exact Hcount].
Defined.

Lemma bucketDensity_counts_bucket_witness :
  bucketDensity 8 two_key_map 1 two_key_heap = Done 2 two_key_heap.
Proof.
  destruct (bucketDensity_counts_bucket 8 two_key_map 1 two_key_heap
              [(1, 1%positive, 2%positive); (257, 3%positive, 4%positive)])
    as [H _].
  - exact two_key_represents.
  - simpl. lia.
  - exact H.
Defined.

Lemma assignments_agree_with_finite_map_witness :
  exists m h,
    put_all 8 (hash_map_new 256) [(1, 10); (257, 20); (1, 30)] empty_heap = Done m h /\
    size m = 2 /\
    get 0 8 m 1 h = Done (30, m) h /\
    get 0 8 m 257 h = Done (20, m) h.
Proof.
  destruct (assignments_agree_with_finite_map 256 [(1, 10); (257, 20); (1, 30)] 8)
    as (m & h & g & Hrun & _ & Hsize & Hget & _).
  - lia.
  - simpl. lia.
  - exists m, h. split; [exact Hrun|]. split; [exact Hsize|].
    split; apply Hget; reflexivity.
Defined.

Lemma erase_missing_key_is_noop_witness :
  erase 8 two_key_map 513 two_key_heap = Done two_key_map two_key_heap.
Proof.
  apply (erase_missing_key_is_noop 8 two_key_map 513 two_key_heap
           [(1, 1%positive, 2%positive); (257, 3%positive, 4%positive)]).
  - exact two_key_represents.
  - intros Hin. apply elem_of_cons in Hin as [Hin|Hin]; [discriminate|].
    apply list_elem_of_singleton in Hin. discriminate.
  - simpl. lia.
Defined.

Lemma erase_last_key_of_bucket_witness :
  exists m' h',
    erase 8 two_key_map 257 two_key_heap = Done m' h' /\
    represents [(1, 1%positive, 2%positive)] h' m' /\
    size m' = 2 /\
    nodes h' !! 3%positive = None /\ values h' !! 4%positive = None.
Proof.
  destruct (erase_last_key_of_bucket 8 two_key_map 257 3%positive 4%positive
              [(1, 1%positive, 2%positive)] two_key_heap
              [(1, 1%positive, 2%positive); (257, 3%positive, 4%positive)])
    as (m' & h' & Hrun & Hrep & Hsize & _ & Hnode & Hval & _).
  - exact two_key_represents.
  - reflexivity.
  - simpl. lia.
  - exists m', h'. split; [exact Hrun|]. split; [exact Hrep|].
    split; [exact Hsize|]. split; [exact Hnode|exact Hval].
Defined.

Lemma clear_without_collisions_witness :
  exists m' h',
    clear 8 one_key_map one_key_heap = Done m' h' /\
    represents [] h' m' /\
    size m' = 1 /\
    forall k, bucketDensity 8 m' k h' = Done 0 h'.
Proof.
  destruct (clear_without_collisions 8 one_key_map one_key_heap
              [(1, 1%positive, 2%positive)])
    as (m' & h' & Hrun & Hrep & _ & Hsize & _ & Hdens).
  - exact one_key_represents.
  - intros j. unfold bucket. etrans; [apply length_filter|]. simpl. lia.
  - simpl. lia.
  - exists m', h'. split; [exact Hrun|]. split; [exact Hrep|].
    split; [exact Hsize|exact Hdens].
Defined.

Lemma clear_with_collision_is_undefined_witness :
  clear 8 two_key_map two_key_heap = Undefined.
Proof.
  apply (clear_with_collision_is_undefined 8 two_key_map two_key_heap
           [(1, 1%positive, 2%positive); (257, 3%positive, 4%positive)] 1 257).
  - exact two_key_represents.
  - apply elem_of_cons. left. reflexivity.
  - apply elem_of_cons. right. apply list_elem_of_singleton. reflexivity.
  - discriminate.
  - reflexivity.
  - simpl. lia.
Defined.

Lemma two_key_chain :
  chain two_key_heap (Some 1%positive)
    ([(1%positive, mk_node 1 2%positive None (Some 3%positive), 10)]
     ++ (3%positive, mk_node 257 4%positive (Some 1%positive) None, 20) :: []).
Proof.
  apply chain_cons; [reflexivity|reflexivity|].
  apply chain_cons; [reflexivity|reflexivity|]. constructor.
Defined.

Lemma simple_erase_removes_one_node_witness :
  exists m' h',
    Simple.erase 8 simple_two_key_map 1 two_key_heap = Done m' h' /\
    Simple.size m' = 2 /\
    nodes h' !! 1%positive = None /\
    values h' = delete 2%positive (values two_key_heap) /\
    nodes h' !! 3%positive = Some (mk_node 257 4%positive (Some 1%positive) None).
Proof.
  destruct (simple_erase_removes_one_node 8 simple_two_key_map 1 1
              {[ 1 := 1%positive ]}
              []
              (1%positive, mk_node 1 2%positive None (Some 3%positive), 10)
              [(3%positive, mk_node 257 4%positive (Some 1%positive) None, 20)]
              two_key_heap)
    as (m' & h' & t' & l' & Hrun & _ & Hsize & _ & _ & _ & _ & _ & _ & Hnode & Hvals
        & _ & _ & Hnext & _).
  - reflexivity.
  - reflexivity.
  - vm_compute. split; [discriminate|reflexivity].
  - rewrite lookup_singleton_eq. exact two_key_chain.
  - simpl. split; [reflexivity|]. split; [reflexivity|exact I].
  - apply NoDup_cons; split; [|apply NoDup_singleton].
    intros Hin; apply list_elem_of_singleton in Hin; discriminate.
  - apply NoDup_cons; split; [|apply NoDup_singleton].
    intros Hin; apply list_elem_of_singleton in Hin; discriminate.
  - reflexivity.
  - intros Hin. apply elem_of_nil in Hin. exact Hin.
  - simpl. lia.
  - exists m', h'. split; [exact Hrun|]. split; [exact Hsize|].
    split; [exact Hnode|]. split; [exact Hvals|].
    destruct (Hnext (3%positive, mk_node 257 4%positive (Some 1%positive) None, 20))
      as [Hs _]; [reflexivity|exact Hs].
Defined.

Lemma simple_erase_of_successor_is_undefined_witness :
  exists m' h',
    Simple.erase 8 simple_two_key_map 1 two_key_heap = Done m' h' /\
    Simple.erase 8 m' 257 h' = Undefined.
Proof.
  apply (simple_erase_of_successor_is_undefined 8 simple_two_key_map 1 1
           {[ 1 := 1%positive ]}
           []
           (1%positive, mk_node 1 2%positive None (Some 3%positive), 10)
           (3%positive, mk_node 257 4%positive (Some 1%positive) None, 20)
           [] two_key_heap).
  - reflexivity.
  - reflexivity.
  - reflexivity.
  - vm_compute. split; [discriminate|reflexivity].
  - rewrite lookup_singleton_eq. exact two_key_chain.
  - simpl. split; [reflexivity|]. split; [reflexivity|exact I].
  - apply NoDup_cons; split; [|apply NoDup_singleton].
    intros Hin; apply list_elem_of_singleton in Hin; discriminate.
  - apply NoDup_cons; split; [|apply NoDup_singleton].
    intros Hin; apply list_elem_of_singleton in Hin; discriminate.
  - apply NoDup_cons; split; [|apply NoDup_singleton].
    intros Hin; apply list_elem_of_singleton in Hin; discriminate.
  - reflexivity.
  - simpl. lia.
Defined.

Lemma simple_bucketDensity_counts_chain_witness :
  Simple.bucketDensity 8 simple_two_key_map 1 two_key_heap = Done 2 two_key_heap.
Proof.
  apply (simple_bucketDensity_counts_chain 8 simple_two_key_map 1 1
           {[ 1 := 1%positive ]}
           ([(1%positive, mk_node 1 2%positive None (Some 3%positive), 10)]
            ++ (3%positive, mk_node 257 4%positive (Some 1%positive) None, 20) :: [])
           two_key_heap).
  - reflexivity.
  - reflexivity.
  - vm_compute. split; [discriminate|reflexivity].
  - rewrite lookup_singleton_eq. exact two_key_chain.
  - simpl. lia.
Defined.

Lemma two_key_heads_owned : heads_owned two_key_heap {[ 1 := 1%positive ]}.
Proof.
  split_and!.
  - intros j a Hj. apply lookup_singleton_Some in Hj as [_ <-].
    exists (mk_node 1 2%positive None (Some 3%positive)). split; [reflexivity|by exists 10].
  - intros j j' a Hj Hj'. apply lookup_singleton_Some in Hj as [<- _].
    by apply lookup_singleton_Some in Hj' as [<- _].
  - intros j j' a a' n n' Hj Hj' _ _ _. apply lookup_singleton_Some in Hj as [<- _].
    by apply lookup_singleton_Some in Hj' as [<- _].
Defined.

Lemma simple_clear_frees_heads_only_witness :
  exists m' h',
    Simple.clear simple_two_key_map two_key_heap = Done m' h' /\
    Simple._heads m' = Some ∅ /\
    Simple.size m' = 2 /\
    nodes h' !! 1%positive = None /\
    nodes h' !! 3%positive = Some (mk_node 257 4%positive (Some 1%positive) None).
Proof.
  destruct (simple_clear_frees_heads_only simple_two_key_map {[ 1 := 1%positive ]}
              two_key_heap)
    as (m' & h' & Hrun & Ht' & Hsize & _ & _ & Hleak).
  - reflexivity.
  - vm_compute. split; discriminate.
  - exact two_key_heads_owned.
  - destruct (Hleak 1 1%positive (mk_node 1 2%positive None (Some 3%positive)) 3%positive)
      as [Hhead Hchild].
    + reflexivity.
    + vm_compute. split; [discriminate|reflexivity].
    + reflexivity.
    + reflexivity.
    + intros j Hj. apply lookup_singleton_Some in Hj as [_ Hj]. discriminate.
    + exists m', h'. split; [exact Hrun|]. split; [exact Ht'|]. split; [exact Hsize|].
      split; [exact Hhead|]. rewrite Hchild. reflexivity.
Defined.

Lemma simple_get_or_insert_twice_witness :
  exists p m1 h1,
    Simple.operator_index 0 8 simple_two_key_map (-513) two_key_heap = Done (p, m1) h1 /\
    Simple.operator_index 0 8 m1 (-513) h1 = Done (p, m1) h1 /\
    Simple.size m1 = 3 /\ values h1 !! p = Some 0.
Proof.
  destruct (simple_get_or_insert_twice 0 8 simple_two_key_map (-513) 1 two_key_heap
              {[ 1 := 1%positive ]}
              ([(1%positive, mk_node 1 2%positive None (Some 3%positive), 10)]
               ++ (3%positive, mk_node 257 4%positive (Some 1%positive) None, 20) :: []))
    as (p & m1 & h1 & H1 & H2 & _ & _ & Hnew & _).
  - exact two_key_heap_fresh.
  - reflexivity.
  - reflexivity.
  - vm_compute. split; [discriminate|reflexivity].
  - rewrite lookup_singleton_eq. exact two_key_chain.
  - simpl. lia.
  - destruct Hnew as (Hsize & _ & Hval).
    + intros Hin. apply elem_of_cons in Hin as [Hin|Hin]; [discriminate|].
      apply list_elem_of_singleton in Hin. discriminate.
    + exists p, m1, h1. split; [exact H1|]. split; [exact H2|].
      split; [exact Hsize|exact Hval].
Defined.
